(** * scdl: the acquisition and transcode pipeline of [scdl/scdl.py]

    A shallow embedding of the functions of [scdl/scdl.py] that copy a
    stream, drive ffmpeg, assemble metadata and keep the download archive,
    followed by the properties proved about them.

    Conventions of the embedding.
    - A Python [str] is a list of Unicode code points ([pystr]); [u] turns an
      ASCII literal into one.  [bytes] are lists of [Byte.byte].
    - Python [int] is [Z].  A Python float is an IEEE 754 binary64
      number: a finite one is taken by its value, a rational ([Q]), and
      every operation rounds its exact result to the nearest float, ties to
      even ([round]).
    - A call that may raise returns an [outcome]; a call that also touches
      the file system threads a [world] and returns it next to the outcome.
    - Collaborators that are not part of this file (the SoundCloud client,
      HTTP, the ffmpeg process, the naming subsystem) appear as explicit
      inputs: the answer they gave to the call.  A call is described when
      it comes to an end: the run of ffmpeg is given by what the process
      gave back.
    - File locks are those of [filelock] on POSIX: taking a lock creates
      the lock file, and releasing it leaves the file in place.  The lock
      files are removed when the interpreter exits ([clean_up_locks], run
      by [atexit]); the world that a call is said to leave is the one at
      the moment the call returns or raises.
    - What is logged or drawn on the terminal is left out. *)

From Stdlib Require Import ZArith NArith QArith Lqa Lia List String Ascii Bool.
From Stdlib Require DecimalString DecimalPos DecimalZ.
From stdpp Require Import base decidable option list gmap.
Import ListNotations.

Local Open Scope Z_scope.
Local Open Scope list_scope.

(** ** Python values *)

Abbreviation pystr := (list N) (only parsing).
Abbreviation bytes := (list Byte.byte) (only parsing).

Definition u (s : string) : pystr := map N_of_ascii (list_ascii_of_string s).

(** [a == b] on [str]. *)
Definition str_eqb (a b : pystr) : bool := bool_decide (a = b).

(** Exceptions that the modelled functions raise or let through. *)
Inductive exn : Type :=
| SoundCloudException (msg : pystr)
| SystemExit (code : Z)
| ValueError
| TypeError
| OSError
| OverflowError.

Inductive outcome (A : Type) : Type :=
| Returned (a : A)
| Raised (e : exn).
Arguments Returned {A} a.
Arguments Raised {A} e.

(** The options of one invocation ([**kwargs]); an absent key and [None]
    both read as [None] through [kwargs.get]. *)
Record kwargs : Type := {
  kw_c : bool;
  kw_force_metadata : bool;
  kw_overwrite : bool;
  kw_remove : bool;
  kw_flac : bool;
  kw_onlymp3 : bool;
  kw_opus : bool;
  kw_no_original : bool;
  kw_only_original : bool;
  kw_original_art : bool;
  kw_extract_artist : bool;
  kw_original_metadata : bool;
  kw_no_album_tag : bool;
  kw_hide_progress : bool;
  kw_name_format : pystr;
  kw_min_size : option Z;
  kw_max_size : option Z;
  kw_download_archive : option pystr;
  kw_sync : option pystr
}.

(** ** SizeGuard: the bounds test of [_write_streaming_response_to_pipe]
       and [get_transcoding_m3u8] *)

(** A number or [math.inf]. *)
Inductive ext : Type :=
| Finite (z : Z)
| Infinity.

(** [kwargs.get("min_size") or 0] *)
Definition min_size_of (kw : kwargs) : Z :=
  match kw_min_size kw with
  | Some z => if z =? 0 then 0 else z
  | None => 0
  end.

(** [kwargs.get("max_size") or math.inf] *)
Definition max_size_of (kw : kwargs) : ext :=
  match kw_max_size kw with
  | Some z => if z =? 0 then Infinity else Finite z
  | None => Infinity
  end.

Definition le_ext (x : Z) (hi : ext) : bool :=
  match hi with
  | Finite h => x <=? h
  | Infinity => true
  end.

(** [min_size <= total <= max_size] *)
Definition within_bounds (lo x : Z) (hi : ext) : bool :=
  (lo <=? x) && le_ext x hi.

Definition bounds_message : pystr :=
  u "File not within --min-size and --max-size bounds".

(** The guard itself: raise unless the declared length is within bounds. *)
Definition size_guard (kw : kwargs) (total : Z) : outcome unit :=
  if within_bounds (min_size_of kw) total (max_size_of kw)
  then Returned tt
  else Raised (SoundCloudException bounds_message).

(** ** StreamCopier: [_write_streaming_response_to_pipe] *)

Inductive sink_kind : Type :=
| BytesIO
| RawPipe.

(** The sink [pipe]: what was written so far, and whether it was flushed
    and closed. *)
Record sink : Type := {
  sink_is : sink_kind;
  sink_data : bytes;
  sink_flushed : bool;
  sink_closed : bool
}.

Definition sink_write (p : sink) (b : bytes) : sink :=
  {| sink_is := sink_is p; sink_data := sink_data p ++ b;
     sink_flushed := false; sink_closed := sink_closed p |}.

Definition sink_flush (p : sink) : sink :=
  {| sink_is := sink_is p; sink_data := sink_data p;
     sink_flushed := true; sink_closed := sink_closed p |}.

Definition sink_close (p : sink) : sink :=
  {| sink_is := sink_is p; sink_data := sink_data p;
     sink_flushed := sink_flushed p; sink_closed := true |}.

Definition new_sink (k : sink_kind) : sink :=
  {| sink_is := k; sink_data := []; sink_flushed := false; sink_closed := false |}.

Definition chunk_size : Z := 8192.

Definition len {A} (l : list A) : Z := Z.of_nat (length l).

(** The loop over [iter(lambda: response.raw.read(chunk_size), b'')].
    [reads] lists what the successive calls of [read] return; once the list
    is used up the stream is at its end and [read] returns [b''].  The
    iterator stops at the first [b''].  A chunk goes through the
    [chunk_size]-byte buffer: [buffer[:len(chunk)]] has at most
    [chunk_size] bytes, and the slice assignment raises [ValueError] when
    the chunk is longer than that. *)
Fixpoint copy_loop (reads : list bytes) (received : Z) (pipe : sink)
  : outcome Z * sink :=
  match reads with
  | [] => (Returned received, pipe)
  | chunk :: rest =>
      match chunk with
      | [] => (Returned received, pipe)
      | _ :: _ =>
          if chunk_size <? len chunk then (Raised ValueError, pipe)
          else copy_loop rest (received + len chunk) (sink_write pipe chunk)
      end
  end.

Definition _write_streaming_response_to_pipe
    (total_length : Z) (reads : list bytes) (pipe : sink) (kw : kwargs)
  : outcome unit * sink :=
  match size_guard kw total_length with
  | Raised e => (Raised e, pipe)
  | Returned _ =>
      match copy_loop reads 0 pipe with
      | (Raised e, pipe1) => (Raised e, pipe1)
      | (Returned received, pipe1) =>
          let pipe2 := sink_flush pipe1 in
          if negb (received =? total_length) then (Raised (SystemExit 1), pipe2)
          else
            match sink_is pipe2 with
            | BytesIO => (Returned tt, pipe2)
            | RawPipe => (Returned tt, sink_close pipe2)
            end
      end
  end.

(** [_copy_stream]: a fresh [BytesIO] filled from the response. *)
Definition _copy_stream (total_length : Z) (reads : list bytes) (kw : kwargs)
  : outcome bytes :=
  match _write_streaming_response_to_pipe total_length reads (new_sink BytesIO) kw with
  | (Returned _, result) => Returned (sink_data result)
  | (Raised e, _) => Raised e
  end.

(** What the [except SoundCloudException] clause of [download_track]
    catches; anything else leaves [download_track] and, uncaught, ends the
    process. *)
Definition caught_by_download_track (e : exn) : bool :=
  match e with
  | SoundCloudException _ => true
  | _ => false
  end.

(** The bytes the stream delivers before its end. *)
Fixpoint delivered (reads : list bytes) : bytes :=
  match reads with
  | [] => []
  | [] :: _ => []
  | chunk :: rest => chunk ++ delivered rest
  end.


(** ** Operations of [str] *)

(** [s.startswith(p)], returning what follows the prefix. *)
Fixpoint strip_prefix (p s : pystr) : option pystr :=
  match p, s with
  | [], _ => Some s
  | _ :: _, [] => None
  | a :: p', b :: s' => if N.eqb a b then strip_prefix p' s' else None
  end.

Definition startswith (s p : pystr) : bool :=
  match strip_prefix p s with
  | Some _ => true
  | None => false
  end.

(** The text before and after the leftmost occurrence of [sep]. *)
Fixpoint split_once (sep s : pystr) {struct s} : option (pystr * pystr) :=
  match strip_prefix sep s with
  | Some rest => Some ([], rest)
  | None =>
      match s with
      | [] => None
      | c :: s' =>
          match split_once sep s' with
          | Some (l, r) => Some (c :: l, r)
          | None => None
          end
      end
  end.

(** [sep in s] *)
Definition contains (sep s : pystr) : bool :=
  match split_once sep s with
  | Some _ => true
  | None => false
  end.

(** [s.split(sep, maxsplit=1)] *)
Definition split1 (sep s : pystr) : list pystr :=
  match split_once sep s with
  | Some (l, r) => [l; r]
  | None => [s]
  end.

(** The code points that [str.strip()] removes (those for which
    [str.isspace] holds). *)
Definition is_space (c : N) : bool :=
  ((9 <=? c) && (c <=? 13) || (28 <=? c) && (c <=? 32)
   || (c =? 133) || (c =? 160) || (c =? 5760)
   || (8192 <=? c) && (c <=? 8202) || (c =? 8232) || (c =? 8233)
   || (c =? 8239) || (c =? 8287) || (c =? 12288))%N.

Fixpoint lstrip (s : pystr) : pystr :=
  match s with
  | [] => []
  | c :: s' => if is_space c then lstrip s' else s
  end.

Definition rstrip (s : pystr) : pystr := rev (lstrip (rev s)).

Definition strip (s : pystr) : pystr := rstrip (lstrip s).

(** [str(n)] for an [int]. *)
Definition str_of_Z (n : Z) : pystr :=
  u (DecimalString.NilZero.string_of_int (Z.to_int n)).

(** ** Python floats *)

(** A binary64 number: a finite one by its value, or one of the two
    infinities.  Not-a-number arises in none of the operations below, and
    the sign of a zero is not kept: no comparison and no difference made
    here tells [0.0] from [-0.0]. *)
Inductive float : Type :=
| Real (q : Q)
| Inf (negative : bool).

(** [2 ** e] *)
Definition pow2 (e : Z) : Q :=
  if 0 <=? e then inject_Z (2 ^ e) else 1 # Z.to_pos (2 ^ (- e)).

(** The integer part of the binary logarithm of [n / d], for positive [n]
    and [d]. *)
Definition floor_log2 (n d : Z) : Z :=
  let k := Z.log2 n - Z.log2 d in
  if (if 0 <=? k then d * 2 ^ k <=? n else d <=? n * 2 ^ (- k)) then k else k - 1.

(** The integer nearest to [a / b], the even one of two that are equally
    near; [a] is not negative and [b] is positive. *)
Definition nearest_even (a b : Z) : Z :=
  let q := a / b in
  match 2 * (a mod b) ?= b with
  | Lt => q
  | Gt => q + 1
  | Eq => if Z.even q then q else q + 1
  end.

(** The float nearest to the positive number [n / d].  The significand has
    53 bits, down to the exponent [-1074] of the subnormal numbers; a
    result of [2 ** 1024] or more is out of range. *)
Definition round_pos (n d : Z) : float :=
  let e := Z.max (floor_log2 n d - 52) (-1074) in
  let m := if 0 <=? e then nearest_even n (d * 2 ^ e)
           else nearest_even (n * 2 ^ (- e)) d in
  if (0 <=? e) && (2 ^ 1024 <=? m * 2 ^ e) then Inf false
  else Real (Qred (inject_Z m * pow2 e)).

Definition fneg (f : float) : float :=
  match f with
  | Real q => Real (Qred (- q))
  | Inf negative => Inf (negb negative)
  end.

(** Rounding to nearest, ties to even. *)
Definition round (x : Q) : float :=
  match Qnum x with
  | 0 => Real 0
  | Zpos n => round_pos (Zpos n) (Zpos (Qden x))
  | Zneg n => fneg (round_pos (Zpos n) (Zpos (Qden x)))
  end.

(** [a - b], [a + b] and [a * b] on finite floats. *)
Definition fsub (a b : Q) : float := round (a - b).
Definition fadd (a b : Q) : float := round (a + b).
Definition fmul (a b : Q) : float := round (a * b).

(** [a / b] on [int], for a positive [b]: the float nearest to the
    quotient; [OverflowError] when it is out of range. *)
Definition true_divide (a : Z) (b : positive) : outcome Q :=
  match round (a # b) with
  | Real q => Returned q
  | Inf _ => Raised OverflowError
  end.

(** The conversion of an [int] that meets a float in an operation;
    [OverflowError] when it is out of range. *)
Definition float_of_int (z : Z) : outcome Q := true_divide z 1.

(** ** TranscodeProcess: [_re_encode_ffmpeg] *)

Definition progress_keys : list pystr :=
  [u "progress"; u "speed"; u "drop_frames"; u "dup_frames"; u "out_time";
   u "out_time_ms"; u "out_time_us"; u "total_size"; u "bitrate"].

Definition _is_ffmpeg_progress_line (parameters : list pystr) : bool :=
  match parameters with
  | [key; _] => existsb (str_eqb key) progress_keys
  | _ => false
  end.

Definition _is_unsupported_codec_for_streaming (codec : pystr) : bool :=
  str_eqb codec (u "ipod").

(** [min(a, b)] of Python: [b] when [b < a], else [a]. *)
Definition py_min (a b : Q) : Q := if Qle_bool a b then a else b.

(** What one run of the ffmpeg process gave back: the lines [readline]
    returned on its diagnostic stream, the chunks read from its output
    channel, its exit code, and the content of the temporary output file
    (if the process left one). *)
Record ffmpeg_run : Type := {
  stderr_lines : list pystr;
  stdout_reads : list bytes;
  returncode : Z;
  temp_file : option bytes
}.

(** The variables of the progress loop; [updates] lists the arguments of
    [progress.update], oldest first.  [last_secs] starts as the [int] 0
    and holds a finite float from the first update on. *)
Record progress_state : Type := {
  errors_output : pystr;
  last_secs : Q;
  updates : list float
}.

Definition progress_start : progress_state :=
  {| errors_output := []; last_secs := 0%Q; updates := [] |}.

Section Ffmpeg.

(** The builtin [int] applied to a [str]; [None] stands for
    [ValueError]. *)
Variable py_int : pystr -> option Z.

(** [int(parameters[1]) / 1_000_000], or [0] on [ValueError]; the
    [OverflowError] of the division is not caught. *)
Definition parse_seconds (parameters : list pystr) : outcome Q :=
  match py_int (nth 1 parameters []) with
  | Some v => true_divide v 1000000
  | None => Returned 0%Q
  end.

(** One line of the loop over [iter(pipe.stderr.readline, '')]. *)
Definition progress_step (total_sec : Q) (st : progress_state) (line : pystr)
  : outcome progress_state :=
  let parameters := split1 (u "=") line in
  if negb (_is_ffmpeg_progress_line parameters) then
    Returned {| errors_output := errors_output st ++ line;
                last_secs := last_secs st; updates := updates st |}
  else if negb (startswith line (u "out_time_ms")) then Returned st
  else
    match parse_seconds parameters with
    | Raised err => Raised err
    | Returned seconds =>
        let seconds := py_min seconds total_sec in
        let changed := fsub seconds (last_secs st) in
        Returned {| errors_output := errors_output st;
                    last_secs := seconds; updates := updates st ++ [changed] |}
    end.

(** The loop; it ends at the first [''] that [readline] returns, or with
    the exception of a line, the variables being those of that moment. *)
Fixpoint progress_loop (total_sec : Q) (lines : list pystr) (st : progress_state)
  : option exn * progress_state :=
  match lines with
  | [] => (None, st)
  | [] :: _ => (None, st)
  | line :: rest =>
      match progress_step total_sec st line with
      | Returned st1 => progress_loop total_sec rest st1
      | Raised err => (Some err, st)
      end
  end.

Definition ffmpeg_error_message (code : Z) (errors : pystr) : pystr :=
  u "FFmpeg error(" ++ str_of_Z code ++ u "): " ++ errors.

(** [_re_encode_ffmpeg], from [total_sec = track_duration_ms / 1000] on.
    The result pairs the outcome with the progress updates the observer
    received. *)
Definition _re_encode_ffmpeg
    (out_codec : pystr) (track_duration_ms : Z) (run : ffmpeg_run)
  : outcome bytes * list float :=
  let streaming_supported := negb (_is_unsupported_codec_for_streaming out_codec) in
  let stdout := if streaming_supported then delivered (stdout_reads run) else [] in
  match true_divide track_duration_ms 1000 with
  | Raised err => (Raised err, [])
  | Returned total_sec =>
      match progress_loop total_sec (stderr_lines run) progress_start with
      | (Some err, st) => (Raised err, updates st)
      | (None, st) =>
          if negb (returncode run =? 0) then
            (Raised (SoundCloudException
                       (ffmpeg_error_message (returncode run) (errors_output st))),
             updates st)
          else if streaming_supported then (Returned stdout, updates st)
          else
            match temp_file run with
            | Some content => (Returned (stdout ++ content), updates st)
            | None => (Raised OSError, updates st)
            end
      end
  end.

End Ffmpeg.

(** [int] on ASCII text: optional white space around an optional sign and
    decimal digits, with single underscores allowed between digits. *)
Definition digit_of (c : N) : option Z :=
  if ((48 <=? c) && (c <=? 57))%N then Some (Z.of_N c - 48) else None.

Fixpoint int_digits (s : pystr) (acc : Z) (after_digit : bool) : option Z :=
  match s with
  | [] => if after_digit then Some acc else None
  | c :: s' =>
      match digit_of c with
      | Some d => int_digits s' (10 * acc + d) true
      | None =>
          if (c =? 95)%N && after_digit then
            match s' with
            | [] => None
            | _ => int_digits s' acc false
            end
          else None
      end
  end.

Definition int_ascii (s : pystr) : option Z :=
  match strip s with
  | 45%N :: ds => option_map Z.opp (int_digits ds 0 false)
  | 43%N :: ds => int_digits ds 0 false
  | ds => int_digits ds 0 false
  end.

(** ** The file system *)

(** What the functions below read and change outside their arguments.
    A path is written as it leads from the working directory: the files of
    that directory are those with a bare name ([in_cwd]).
    - [files]: the regular files that are opened as bytes, by path, with
      their content: the audio files and the lock files.
    - [archives]: the archive (ledger) files, by path, with the text
      Python reads from them.  An archive in the working directory is one
      of the files of that directory, and [remove_files] finds it there;
      but no audio or lock file is looked for, written or removed under
      the path of an archive.
    - [broken]: the archive paths on which taking the lock or opening the
      file raises [OSError] ([IOError] and [filelock.Timeout] are both
      [OSError]).
    - [lockable]: the paths of [broken] whose lock is taken all the same,
      it being [open] that raises; their lock file is created.
    - [fileToKeep]: the module-level list of that name.
    Modification times and what is logged are not part of the model. *)
Record world : Type := {
  files : gmap pystr bytes;
  archives : gmap pystr pystr;
  broken : gset pystr;
  lockable : gset pystr;
  fileToKeep : list pystr
}.

Definition set_files (f : gmap pystr bytes) (w : world) : world :=
  {| files := f; archives := archives w; broken := broken w;
     lockable := lockable w; fileToKeep := fileToKeep w |}.

Definition set_archives (a : gmap pystr pystr) (w : world) : world :=
  {| files := files w; archives := a; broken := broken w;
     lockable := lockable w; fileToKeep := fileToKeep w |}.

Definition set_fileToKeep (k : list pystr) (w : world) : world :=
  {| files := files w; archives := archives w; broken := broken w;
     lockable := lockable w; fileToKeep := k |}.

(** [str(path) + ".scdl.lock"], the lock file of [get_filelock(path)]. *)
Definition lock_path (path : pystr) : pystr := path ++ u ".scdl.lock".

(** Taking the lock of a path: the lock file is opened for writing,
    created when it is missing and emptied when it is not; it stays when
    the lock is released. *)
Definition take_lock (path : pystr) (w : world) : world :=
  set_files (<[lock_path path := []]> (files w)) w.

(** What the failed attempt on a path of [broken] leaves behind. *)
Definition lock_left (path : pystr) (w : world) : world :=
  if bool_decide (path ∈ lockable w) then take_lock path w else w.

(** A bare name: the path of a file of the working directory. *)
Definition in_cwd (path : pystr) : bool := negb (existsb (N.eqb 47%N) path).

(** Computations over the world that may raise. *)
Definition M (A : Type) : Type := world -> outcome A * world.

Definition ret {A} (a : A) : M A := fun w => (Returned a, w).

Definition raise {A} (e : exn) : M A := fun w => (Raised e, w).

Definition bind {A B} (c : M A) (k : A -> M B) : M B :=
  fun w =>
    match c w with
    | (Returned a, w1) => k a w1
    | (Raised e, w1) => (Raised e, w1)
    end.

Notation "x <- c ;; k" := (bind c (fun x => k))
  (at level 20, c at level 99, k at level 200, only parsing).
Notation "c ;;; k" := (bind c (fun _ => k))
  (at level 100, k at level 200, only parsing, right associativity).

Definition modify (f : world -> world) : M unit := fun w => (Returned tt, f w).

Definition read {A} (f : world -> A) : M A := fun w => (Returned (f w), w).

(** [sys.exit(code)] *)
Definition sys_exit {A} (code : Z) : M A := raise (SystemExit code).

(** [os.path.isfile(name)] *)
Definition isfile (name : pystr) : M bool :=
  read (fun w => bool_decide (is_Some (files w !! name))).

(** ** ArchiveLedger: reading and appending *)

Definition newline : N := 10%N.

(** The lines of a text file as iteration over the file yields them: each
    ends with its newline, except possibly the last. *)
Fixpoint lines_from (cur s : pystr) : list pystr :=
  match s with
  | [] => match cur with [] => [] | _ :: _ => [cur] end
  | c :: s' =>
      if N.eqb c newline then (cur ++ [c]) :: lines_from [] s'
      else lines_from (cur ++ [c]) s'
  end.

Definition file_lines (text : pystr) : list pystr := lines_from [] text.

(** The text of an archive as [open(path, "a+")] finds it: empty when the
    file had to be created. *)
Definition archive_text (w : world) (path : pystr) : pystr :=
  default [] (archives w !! path).

(** The loop [for line in file: if line.strip() == track_id: return True]. *)
Fixpoint has_line (track_id : pystr) (lines : list pystr) : bool :=
  match lines with
  | [] => false
  | line :: rest => if str_eqb (strip line) track_id then true else has_line track_id rest
  end.

(** [in_download_archive]; the result [None] is Python's [None]. *)
Definition in_download_archive (id : Z) (kw : kwargs) : M (option bool) :=
  match kw_download_archive kw with
  | None => ret None
  | Some archive_filename =>
      fun w =>
        if bool_decide (archive_filename ∈ broken w)
        then (Returned (Some false), lock_left archive_filename w)
        else
          let text := archive_text w archive_filename in
          (Returned (Some (has_line (str_of_Z id) (file_lines text))),
           take_lock archive_filename
             (set_archives (<[archive_filename := text]> (archives w)) w))
  end.

(** [record_download_archive] *)
Definition record_download_archive (id : Z) (kw : kwargs) : M unit :=
  match kw_download_archive kw with
  | None => ret tt
  | Some archive_filename =>
      fun w =>
        if bool_decide (archive_filename ∈ broken w)
        then (Returned tt, lock_left archive_filename w)
        else
          let text := archive_text w archive_filename in
          (Returned tt,
           take_lock archive_filename
             (set_archives
                (<[archive_filename := text ++ str_of_Z id ++ [newline]]> (archives w))
                w))
  end.

(** ** DownloadOrchestrator: [already_downloaded] *)

Definition slash : N := 47%N.
Definition dot : N := 46%N.

(** The extension [os.path.splitext(p)[1]] (POSIX): from the last dot of
    the last path component, unless only dots precede it there. *)
Fixpoint ext_scan (s : pystr) (seen_name : bool) (cur : option pystr) : pystr :=
  match s with
  | [] => default [] cur
  | c :: s' =>
      if N.eqb c slash then ext_scan s' false None
      else if N.eqb c dot then
        if seen_name then ext_scan s' true (Some s) else ext_scan s' false None
      else ext_scan s' true cur
  end.

Definition splitext_ext (p : pystr) : pystr := ext_scan p false None.

Definition can_convert (filename : pystr) : bool :=
  let ext := splitext_ext filename in
  contains (u "wav") ext || contains (u "aif") ext.

(** [filename[:-4] + ".flac"] *)
Definition flac_sibling (filename : pystr) : pystr :=
  take (length filename - 4) filename ++ u ".flac".

Definition already_downloaded (id : Z) (filename : pystr) (kw : kwargs)
  : M bool :=
  on_disk <- isfile filename ;;
  let already := on_disk in
  sibling <- (if kw_flac kw && can_convert filename
              then isfile (flac_sibling filename) else ret false) ;;
  let already := if sibling then true else already in
  archived <- (match kw_download_archive kw with
               | Some _ => r <- in_download_archive id kw ;; ret (default false r)
               | None => ret false
               end) ;;
  let already := if archived then true else already in
  reset <- (if kw_flac kw && can_convert filename
            then isfile filename else ret false) ;;
  let already := if reset then false else already in
  let already := if kw_overwrite kw then false else already in
  if already then
    if kw_c kw || kw_remove kw || kw_force_metadata kw then ret true
    else sys_exit 1
  else ret false.

(** ** Tracks and playlists, as the SoundCloud client hands them over *)

Record transcoding : Type := {
  preset : pystr;
  protocol : pystr;
  transcoding_url : option pystr;
  transcoding_duration : Z
}.

(** The attributes of a track that the modelled functions read; [username]
    and [avatar_url] are those of [track.user], [created_at] is the
    creation time as [strftime('%Y-%m-%d %H:%M:%S')] prints it. *)
Record track : Type := {
  track_id : Z;
  track_title : pystr;
  username : pystr;
  avatar_url : pystr;
  user_id : Z;
  streamable : bool;
  policy : pystr;
  downloadable : bool;
  duration : Z;
  transcodings : list transcoding;
  permalink_url : pystr;
  artwork_url : option pystr;
  description : option pystr;
  genre : option pystr;
  created_at : pystr
}.

Definition set_title (t : track) (new_title : pystr) : track :=
  {| track_id := track_id t; track_title := new_title; username := username t;
     avatar_url := avatar_url t; user_id := user_id t; streamable := streamable t;
     policy := policy t; downloadable := downloadable t; duration := duration t;
     transcodings := transcodings t; permalink_url := permalink_url t;
     artwork_url := artwork_url t; description := description t;
     genre := genre t; created_at := created_at t |}.

(** [playlist_info], once [download_playlist] has set its track number. *)
Record playlist_info : Type := {
  playlist_author : pystr;
  playlist_id : Z;
  playlist_title : pystr;
  tracknumber : pystr
}.

(** ** MetadataAssembler: [_try_get_artwork] and [_add_metadata_to_stream] *)

Record response : Type := {
  status_code : Z;
  content_type : option pystr;
  content : bytes
}.

(** What [requests.get] did: a response, or a [RequestException]. *)
Inductive http_answer : Type :=
| Answered (r : response)
| RequestFailed.

(** [s.replace(old, new)] for a non-empty [old]: every occurrence, from the
    left, without overlap.  [skip] counts the characters of a replaced
    occurrence still to pass over. *)
Fixpoint replace_from (old new : pystr) (skip : nat) (s : pystr) : pystr :=
  match s with
  | [] => []
  | c :: s' =>
      match skip with
      | S k => replace_from old new k s'
      | O =>
          if startswith s old
          then new ++ replace_from old new (length old - 1) s'
          else c :: replace_from old new 0 s'
      end
  end.

Definition replace (old new s : pystr) : pystr := replace_from old new 0 s.

(** [s.lower()] on the letters A to Z.  Outside ASCII only U+212A lowers
    to an ASCII letter alone (to [k]), which the three media types below do
    not contain, so that the comparison with them is that of Python. *)
Definition lower (s : pystr) : pystr :=
  map (fun c => if ((65 <=? c) && (c <=? 90))%N then (c + 32)%N else c) s.

Definition artwork_types : list pystr :=
  [u "image/png"; u "image/jpeg"; u "image/jpg"].

Record metadata_info : Type := {
  artist : pystr;
  title : pystr;
  meta_description : option pystr;
  meta_genre : option pystr;
  artwork_jpeg : option bytes;
  link : pystr;
  date : pystr;
  album_title : option pystr;
  album_author : option pystr;
  album_track_num : option pystr
}.

(** The five separators of the artist extraction: a hyphen-minus, a minus
    sign (U+2212), an en dash (U+2013), an em dash (U+2014) or a horizontal
    bar (U+2015), each between two spaces. *)
Definition dash_set : list pystr :=
  [[32; 45; 32]; [32; 8722; 32]; [32; 8211; 32]; [32; 8212; 32]; [32; 8213; 32]]%N.

(** The loop [for dash in {...}] of the artist extraction, over the
    separators in the order [dashes] in which the set yields them; the
    result is the new artist and title. *)
Fixpoint extract_artist (dashes : list pystr) (artist0 title0 : pystr)
  : pystr * pystr :=
  match dashes with
  | [] => (artist0, title0)
  | dash :: rest =>
      match split_once dash title0 with
      | None => extract_artist rest artist0 title0
      | Some (l, r) => (strip l, strip r)
      end
  end.

Section Metadata.

(** The answer of [requests.get(url, allow_redirects=False, timeout=5)]. *)
Variable http_get : pystr -> http_answer.

(** The order in which the set literal of separators is iterated. *)
Variable dashes : list pystr.

(** [mutagen.File(stream)] together with [METADATA_ASSEMBLERS.get]: for a
    recognised container, the buffer that deleting the old tags, running
    the handler and saving leaves for a given [MetadataInfo]. *)
Variable assembler : bytes -> option (metadata_info -> bytes).

Definition _try_get_artwork (url size : pystr) : option response :=
  let new_artwork_url := replace (u "large") size url in
  match http_get new_artwork_url with
  | RequestFailed => None
  | Answered artwork_response =>
      if negb (status_code artwork_response =? 200) then None
      else
        let ctype := lower (default [] (content_type artwork_response)) in
        if negb (existsb (str_eqb ctype) artwork_types) then None
        else Some artwork_response
  end.

(** [track.artwork_url or track.user.avatar_url] *)
Definition artwork_base_url (t : track) : pystr :=
  match artwork_url t with
  | Some (c :: url) => c :: url
  | _ => avatar_url t
  end.

(** The artwork lookup at the head of [_add_metadata_to_stream]. *)
Definition get_artwork (t : track) (kw : kwargs) : option response :=
  let artwork_response :=
    if kw_original_art kw
    then _try_get_artwork (artwork_base_url t) (u "original")
    else None in
  match artwork_response with
  | Some r => Some r
  | None => _try_get_artwork (artwork_base_url t) (u "t500x500")
  end.

(** [_add_metadata_to_stream] up to the construction of [MetadataInfo]:
    the track with its possibly rewritten title, and the record. *)
Definition build_metadata (t : track) (pl : option playlist_info) (kw : kwargs)
  : track * metadata_info :=
  let artwork_response := get_artwork t kw in
  let '(artist1, title1) :=
    if kw_extract_artist kw
    then extract_artist dashes (username t) (track_title t)
    else (username t, track_title t) in
  let album := if kw_no_album_tag kw then None else pl in
  (set_title t title1,
   {| artist := artist1;
      title := title1;
      meta_description := description t;
      meta_genre := genre t;
      artwork_jpeg := option_map content artwork_response;
      link := permalink_url t;
      date := created_at t;
      album_title := option_map playlist_title album;
      album_author := option_map playlist_author album;
      album_track_num := option_map tracknumber album |}).

(** [_add_metadata_to_stream]: the track and the buffer afterwards; an
    unrecognised container leaves the buffer as it is. *)
Definition _add_metadata_to_stream
    (t : track) (stream : bytes) (pl : option playlist_info) (kw : kwargs)
  : track * bytes :=
  let '(t1, metadata) := build_metadata t pl kw in
  match assembler stream with
  | None => (t1, stream)
  | Some handler => (t1, handler metadata)
  end.

End Metadata.

(** ** DownloadOrchestrator: [download_original_file], [download_hls] and
       [download_track] *)

(** The source handed to the encoder: a streaming response (its declared
    content length and the chunks its raw stream delivers) or the URL of a
    playlist, which may be [None]. *)
Inductive in_data : Type :=
| FromResponse (total_length : Z) (reads : list bytes)
| FromUrl (url : option pystr).

(** What the requests at the head of [download_original_file] led to: no
    original (no download link, or status 401 or 404), a response without
    a file name in its [content-disposition] header (printed as
    [header]), or a response, with the values of [orig_filename],
    [filename] and [ext] once the name of the file has been derived. *)
Inductive original_answer : Type :=
| OriginalMissing
| OriginalNoFilename (header : pystr)
| OriginalFound (orig_filename filename ext : pystr)
                (total_length : Z) (reads : list bytes).

(** The collaborators' answers during the processing of one track. *)
Record env : Type := {
  auth_token : bool;
  me_id : Z;
  lock_free_original : bool;
  lock_free_hls : bool;
  original : original_answer;
  filename_for : pystr -> pystr;
  m3u8_url : pystr;
  run : ffmpeg_run;
  env_int : pystr -> option Z;
  env_http : pystr -> http_answer;
  env_dashes : list pystr;
  env_assembler : bytes -> option (metadata_info -> bytes)
}.

Definition lift {A} (o : outcome A) : M A := fun w => (o, w).

Definition is_downloading_to_stdout (kw : kwargs) : bool :=
  str_eqb (kw_name_format kw) (u "-").

(** [get_filename(track, ext=ext, playlist_info=playlist_info, **kwargs)];
    the naming itself belongs to [filename_for]. *)
Definition get_filename (e : env) (ext : pystr) (kw : kwargs) : pystr :=
  if is_downloading_to_stdout kw then u "stdout" else filename_for e ext.

(** [re_encode_to_buffer].  When a response is re-encoded, a thread of
    [_re_encode_ffmpeg] feeds its stream to ffmpeg while the output is
    read; what ffmpeg made of it is part of [run e]. *)
Definition re_encode_to_buffer
    (e : env) (t : track) (d : in_data) (out_codec : pystr)
    (pl : option playlist_info) (skip_re_encoding : bool) (kw : kwargs)
  : outcome bytes :=
  let encoded_data :=
    match d, skip_re_encoding with
    | FromResponse total reads, true => _copy_stream total reads kw
    | _, _ => fst (_re_encode_ffmpeg (env_int e) out_codec (duration t) (run e))
    end in
  match encoded_data with
  | Raised err => Raised err
  | Returned encoded =>
      if kw_original_metadata kw then Returned encoded
      else
        Returned (snd (_add_metadata_to_stream (env_http e) (env_dashes e)
                         (env_assembler e) t encoded pl kw))
  end.

Definition re_encode_to_out
    (e : env) (t : track) (d : in_data) (out_codec : pystr) (filename : pystr)
    (pl : option playlist_info) (skip_re_encoding : bool) (kw : kwargs)
  : M unit :=
  encoded <- lift (re_encode_to_buffer e t d out_codec pl skip_re_encoding kw) ;;
  if is_downloading_to_stdout kw then ret tt
  else modify (fun w => set_files (<[filename := encoded]> (files w)) w).

(** [min_size <= x] and [x <= max_size] for a float [x]: Python compares
    an [int] with a float by their exact values. *)
Definition int_le_float (lo : Z) (x : float) : bool :=
  match x with
  | Real q => Qle_bool (inject_Z lo) q
  | Inf negative => negb negative
  end.

Definition float_le_ext (x : float) (hi : ext) : bool :=
  match hi, x with
  | Infinity, _ => true
  | Finite h, Real q => Qle_bool q (inject_Z h)
  | Finite h, Inf negative => negative
  end.

(** [bitrate_KBps * transcoding.duration]: the bit rate is the float
    [256 / 8] or [128 / 8], that is [32.0] or [16.0]; the duration, an
    [int], is converted to a float, and the product is rounded. *)
Definition declared_bytes (tr : transcoding) : outcome float :=
  let bitrate_KBps := (if contains (u "aac") (preset tr) then 32 else 16)%Q in
  match float_of_int (transcoding_duration tr) with
  | Raised err => Raised err
  | Returned d => Returned (fmul bitrate_KBps d)
  end.

Definition get_transcoding_m3u8 (e : env) (tr : transcoding) (kw : kwargs)
  : outcome (option pystr) :=
  match declared_bytes tr with
  | Raised err => Raised err
  | Returned total_bytes =>
      if negb (int_le_float (min_size_of kw) total_bytes
               && float_le_ext total_bytes (max_size_of kw))
      then Raised (SoundCloudException bounds_message)
      else
        match transcoding_url tr with
        | Some _ => Returned (Some (m3u8_url e))
        | None => Returned None
        end
  end.

Definition download_original_file
    (e : env) (t : track) (kw : kwargs) : M (option pystr * bool) :=
  let to_stdout := is_downloading_to_stdout kw in
  match original e with
  | OriginalMissing => ret (None, false)
  | OriginalNoFilename header =>
      raise (SoundCloudException
               (u "Could not get filename from content-disposition header: " ++ header))
  | OriginalFound orig_filename filename0 ext total reads =>
      let encoding_to_flac := kw_flac kw && can_convert orig_filename in
      let filename := if encoding_to_flac then flac_sibling filename0 else filename0 in
      skip <- (if to_stdout then ret false
               else already_downloaded (track_id t) filename kw) ;;
      if skip then ret (Some filename, true)
      else
        re_encode_to_out e t (FromResponse total reads)
          (if encoding_to_flac then u "flac" else drop 1 ext)
          filename None (negb encoding_to_flac) kw ;;;
        ret (Some filename, false)
  end.

(** The presets in order of preference, with their file extensions. *)
Definition valid_presets (kw : kwargs) : list (pystr * pystr) :=
  let mp3 := [(u "mp3", u ".mp3")] in
  if kw_onlymp3 kw then mp3
  else
    let with_opus := if kw_opus kw then (u "opus", u ".opus") :: mp3 else mp3 in
    (u "aac", u ".m4a") :: with_opus.

(** The inner loop over the transcodings: it does not stop at a match, so
    the last transcoding of the preset is the one kept. *)
Fixpoint last_match (preset_name : pystr) (ts : list transcoding)
    (found : option transcoding) : option transcoding :=
  match ts with
  | [] => found
  | tr :: rest =>
      last_match preset_name rest
        (if startswith (preset tr) preset_name then Some tr else found)
  end.

Fixpoint choose_preset (presets : list (pystr * pystr)) (ts : list transcoding)
  : option (pystr * pystr * transcoding) :=
  match presets with
  | [] => None
  | (preset_name, preset_ext) :: rest =>
      match last_match preset_name ts None with
      | Some tr => Some (preset_name, preset_ext, tr)
      | None => choose_preset rest ts
      end
  end.

Definition quote : N := 39%N.

(** The list of presets as the error message prints it (presets are made
    of printable characters other than quotes and backslashes). *)
Definition repr_presets (ts : list transcoding) : pystr :=
  u "[" ++
  concat (zip_with (fun sep tr => sep ++ [quote] ++ preset tr ++ [quote])
            ([] :: repeat (u ", ") (length ts)) ts) ++
  u "]".

Definition download_hls
    (e : env) (t : track) (pl : option playlist_info) (kw : kwargs)
  : M (pystr * bool) :=
  match transcodings t with
  | [] =>
      raise (SoundCloudException
               (u "Track " ++ permalink_url t ++ u " has no transcodings available"))
  | _ :: _ =>
      let hls := filter (fun tr => str_eqb (protocol tr) (u "hls") = true) (transcodings t) in
      let to_stdout := is_downloading_to_stdout kw in
      match choose_preset (valid_presets kw) hls with
      | None =>
          raise (SoundCloudException
                   (u "Could not find valid transcoding. Available transcodings: "
                    ++ repr_presets hls))
      | Some (preset_name, ext, tr) =>
          let filename := get_filename e ext kw in
          skip <- (if to_stdout then ret false
                   else already_downloaded (track_id t) filename kw) ;;
          if skip then ret (filename, true)
          else
            url <- lift (get_transcoding_m3u8 e tr kw) ;;
            re_encode_to_out e t (FromUrl url)
              (if str_eqb preset_name (u "aac") then u "ipod" else preset_name)
              filename pl false kw ;;;
            ret (filename, false)
      end
  end.

(** [with lock: body] for the zero-timeout lock of the track, the lock of
    the path [./<id>], inside [try ... except filelock.Timeout]; [None]
    is the time-out, which leaves things as they are, the lock file being
    there already when the lock is held elsewhere. *)
Definition with_lock {A} (id : Z) (free : bool) (body : M A) : M (option A) :=
  if free then
    modify (take_lock (str_of_Z id)) ;;;
    a <- body ;; ret (Some a)
  else ret None.

(** [download_track] up to the point where the file name is known
    (the choice between the original file and a transcoding); [None] is the
    [return] after a lock time-out. *)
Definition acquire
    (e : env) (t : track) (pl : option playlist_info) (kw : kwargs)
  : M (option (pystr * bool)) :=
  if str_eqb (policy t) (u "BLOCK") then
    raise (SoundCloudException
             (track_title t ++ u " is not available in your location..."))
  else
    let client_user_id := if auth_token e then Some (me_id e) else None in
    let try_original :=
      (downloadable t || bool_decide (Some (user_id t) = client_user_id))
      && negb (kw_onlymp3 kw) && negb (kw_no_original kw) && auth_token e in
    first <- (if try_original
              then with_lock (track_id t) (lock_free_original e)
                     (download_original_file e t kw)
              else ret (Some (None, false))) ;;
    match first with
    | None => ret None
    | Some (Some filename, is_already_downloaded) =>
        ret (Some (filename, is_already_downloaded))
    | Some (None, _) =>
        if kw_only_original kw then
          raise (SoundCloudException
                   (u "Track " ++ [34%N] ++ permalink_url t ++ [34%N] ++
                    u " does not have original file available. Not downloading..."))
        else with_lock (track_id t) (lock_free_hls e) (download_hls e t pl kw)
    end.

(** [download_track] from [fileToKeep.append] on. *)
Definition finalize
    (e : env) (t : track) (pl : option playlist_info) (kw : kwargs)
    (filename : pystr) (is_already_downloaded : bool) : M unit :=
  (if kw_remove kw
   then modify (fun w => set_fileToKeep (fileToKeep w ++ [filename]) w)
   else ret tt) ;;;
  record_download_archive (track_id t) kw ;;;
  let to_stdout := is_downloading_to_stdout kw in
  if is_already_downloaded && negb (kw_force_metadata kw) then
    raise (SoundCloudException (filename ++ u " already downloaded."))
  else
    on_disk <- isfile filename ;;
    if negb on_disk && negb to_stdout then
      raise (SoundCloudException
               (u "An error occurred downloading " ++ filename ++ u "."))
    else if is_already_downloaded && kw_force_metadata kw then
      fun w =>
        match files w !! filename with
        | None => (Raised OSError, w)
        | Some file_data =>
            let tagged :=
              snd (_add_metadata_to_stream (env_http e) (env_dashes e)
                     (env_assembler e) t file_data pl kw) in
            (Returned tt, set_files (<[filename := tagged]> (files w)) w)
        end
    else ret tt.

(** [download_track]: a [SoundCloudException] of the body ends the track,
    and the process when [exit_on_fail] is set; anything else raised goes
    on to the caller. *)
Definition download_track
    (e : env) (t : track) (pl : option playlist_info) (exit_on_fail : bool)
    (kw : kwargs) : M unit :=
  fun w =>
    match (r <- acquire e t pl kw ;;
           match r with
           | None => ret tt
           | Some (filename, is_already_downloaded) =>
               finalize e t pl kw filename is_already_downloaded
           end) w with
    | (Raised err, w1) =>
        if caught_by_download_track err then
          if exit_on_fail then (Raised (SystemExit 1), w1) else (Returned tt, w1)
        else (Raised err, w1)
    | (Returned _, w1) => (Returned tt, w1)
    end.

(** ** ArchiveLedger: [sync] *)

(** [s.split("\n")] *)
Fixpoint split_newline (cur s : pystr) : list pystr :=
  match s with
  | [] => [cur]
  | c :: s' =>
      if N.eqb c newline then cur :: split_newline [] s'
      else split_newline (cur ++ [c]) s'
  end.

Definition sync_extensions : list pystr :=
  [u ".mp3"; u ".m4a"; u ".opus"; u ".flac"; u ".wav"].

(** The text written by the rewrite loop of [sync]. *)
Fixpoint ledger_text (ids : list Z) : pystr :=
  match ids with
  | [] => []
  | id :: rest => str_of_Z id ++ [newline] ++ ledger_text rest
  end.

Section Sync.

(** The builtin [int]; [None] stands for [ValueError]. *)
Variable py_int : pystr -> option Z.

(** [get_filename(client.get_track(track_id), ext, playlist_info=..., **kwargs)] *)
Variable filename_of : Z -> pystr -> pystr.

(** [[int(i) for i in parts]] *)
Fixpoint parse_ids (parts : list pystr) : option (list Z) :=
  match parts with
  | [] => Some []
  | i :: rest =>
      match py_int i, parse_ids rest with
      | Some id, Some ids => Some (id :: ids)
      | _, _ => None
      end
  end.

(** [[int(i) for i in "".join(f.readlines()).strip().split("\n")]] *)
Definition read_ids (text : pystr) : option (list Z) :=
  parse_ids (split_newline [] (strip text)).

(** The inner loop of the removal: every file that carries the name of
    the track under one of the known extensions. *)
Fixpoint remove_track_files (id : Z) (exts : list pystr) (fs : gmap pystr bytes)
  : gmap pystr bytes :=
  match exts with
  | [] => fs
  | ext :: rest =>
      let filename := filename_of id ext in
      remove_track_files id rest
        (if in_cwd filename && bool_decide (is_Some (fs !! filename))
         then delete filename fs else fs)
  end.

(** The outer loop, over the set [rem] in the order [elements] lists it. *)
Fixpoint remove_tracks (ids : list Z) (fs : gmap pystr bytes) : gmap pystr bytes :=
  match ids with
  | [] => fs
  | id :: rest => remove_tracks rest (remove_track_files id sync_extensions fs)
  end.

(** The two sets [add] and [rem] of [sync]. *)
Definition sync_add (old : list Z) (tracks : list track) : gset Z :=
  list_to_set (map track_id tracks) ∖ list_to_set old.

Definition sync_rem (old : list Z) (tracks : list track) : gset Z :=
  list_to_set old ∖ list_to_set (map track_id tracks).

(** [sync]: the tracks left to download.  The archive is
    [kwargs.get("sync")]; without one, [pathlib.Path(None)] raises
    [TypeError].  A missing or unreadable archive raises [OSError].  All
    of it runs under the lock of the archive. *)
Definition sync (tracks : list track) (kw : kwargs) : M (list track) :=
  fun w =>
    match kw_sync kw with
    | None => (Raised TypeError, w)
    | Some archive =>
    if bool_decide (archive ∈ broken w) then (Raised OSError, lock_left archive w)
    else
      let w := take_lock archive w in
      match archives w !! archive with
      | None => (Raised OSError, w)
      | Some text =>
          match read_ids text with
          | None => (Raised (SystemExit 1), w)
          | Some old =>
              let add := sync_add old tracks in
              let rem := sync_rem old tracks in
              if bool_decide (add = ∅) && bool_decide (rem = ∅)
              then (Raised (SystemExit 0), w)
              else
                let w1 :=
                  if bool_decide (rem = ∅) then w
                  else
                    set_archives
                      (<[archive :=
                           ledger_text (filter (fun id => id ∉ rem) old)]>
                         (archives w))
                      (set_files (remove_tracks (elements rem) (files w)) w) in
                if bool_decide (add = ∅) then (Raised (SystemExit 0), w1)
                else (Returned (filter (fun t => track_id t ∈ add) tracks), w1)
          end
      end
    end.

End Sync.

(** ** The specification's wording, to set against the code *)

(** SizeGuard as specified: [min <= L <= max], an absent [max] meaning no
    upper bound (and an absent [min] the bound [0]). *)
Definition spec_size_accepts (min max : option Z) (L : Z) : Prop :=
  default 0 min <= L /\
  match max with
  | Some m => L <= m
  | None => True
  end.

(** The separators as specified: the dash-like glyphs themselves, a plain
    hyphen and four Unicode dashes. *)
Definition spec_dash_glyphs : list N := [45; 8722; 8211; 8212; 8213]%N.

(** ** Notions used in the statements *)

(** The lines of the diagnostic stream that the loop of
    [_re_encode_ffmpeg] gets to see: those before the first empty one. *)
Fixpoint lines_read (lines : list pystr) : list pystr :=
  match lines with
  | [] => []
  | [] :: _ => []
  | line :: rest => line :: lines_read rest
  end.

(** A line of the progress report of ffmpeg: one of its nine keys, an
    equals sign, and a value. *)
Definition is_progress_line (line : pystr) : bool :=
  existsb (fun key => startswith line (key ++ u "="))
    [u "progress"; u "speed"; u "drop_frames"; u "dup_frames"; u "out_time";
     u "out_time_ms"; u "out_time_us"; u "total_size"; u "bitrate"].

(** The non-progress lines of the diagnostic stream, one after the other,
    as they came. *)
Definition non_progress_text (lines : list pystr) : pystr :=
  concat (List.filter (fun line => negb (is_progress_line line)) (lines_read lines)).

(** The position in seconds that a line reports, if it is an
    [out_time_ms] line: the float nearest to its value over 1,000,000, no
    position when that is out of the range of the floats, and [0] for a
    value that [int] rejects. *)
Definition reported_seconds (py_int : pystr -> option Z) (line : pystr)
  : option (outcome Q) :=
  match strip_prefix (u "out_time_ms=") line with
  | Some value =>
      Some (match py_int value with
            | Some v => true_divide v 1000000
            | None => Returned 0%Q
            end)
  | None => None
  end.

(** The positions of a list of reports, up to the first that is out of
    range. *)
Fixpoint positions_of (reports : list (outcome Q)) : outcome (list Q) :=
  match reports with
  | [] => Returned []
  | Raised err :: _ => Raised err
  | Returned s :: rest =>
      match positions_of rest with
      | Returned l => Returned (s :: l)
      | Raised err => Raised err
      end
  end.

Definition reported_positions (py_int : pystr -> option Z) (lines : list pystr)
  : outcome (list Q) :=
  positions_of (omap (reported_seconds py_int) (lines_read lines)).

(** Successive differences of a list of positions, from [prev] on, each
    rounded as the subtraction of floats rounds it. *)
Fixpoint differences (prev : Q) (l : list Q) : list float :=
  match l with
  | [] => []
  | x :: rest => fsub x prev :: differences x rest
  end.

(** [l] never goes down, starting from [prev]. *)
Fixpoint ascending (prev : Q) (l : list Q) : Prop :=
  match l with
  | [] => True
  | x :: rest => (prev <= x)%Q /\ ascending x rest
  end.

(** A float that is not negative, and one that is not positive. *)
Definition fnonneg (f : float) : Prop :=
  match f with
  | Real q => (0 <= q)%Q
  | Inf negative => negative = false
  end.

Definition fnonpos (f : float) : Prop :=
  match f with
  | Real q => (q <= 0)%Q
  | Inf negative => negative = true
  end.

(** How many lines of an archive carry the given track ID. *)
Definition count_id (id : Z) (text : pystr) : nat :=
  length (List.filter (fun line => str_eqb (strip line) (str_of_Z id)) (file_lines text)).

(** The three ways in which [already_downloaded] finds a track present:
    the target file is on disk; in [--flac] mode, for a target that can be
    converted, its [.flac] sibling is; the track ID is a line of the
    configured archive (which must be readable). *)
Definition on_disk (w : world) (filename : pystr) : bool :=
  bool_decide (is_Some (files w !! filename)).

Definition sibling_on_disk (w : world) (filename : pystr) (kw : kwargs) : bool :=
  kw_flac kw && can_convert filename && on_disk w (flac_sibling filename).

Definition archived (w : world) (id : Z) (kw : kwargs) : bool :=
  match kw_download_archive kw with
  | Some archive =>
      negb (bool_decide (archive ∈ broken w))
      && has_line (str_of_Z id) (file_lines (archive_text w archive))
  | None => false
  end.

Definition present (w : world) (id : Z) (filename : pystr) (kw : kwargs) : bool :=
  on_disk w filename || sibling_on_disk w filename kw || archived w id kw.

(** In [--flac] mode a target on disk that can still be converted does not
    count as downloaded. *)
Definition awaiting_conversion (w : world) (filename : pystr) (kw : kwargs) : bool :=
  kw_flac kw && can_convert filename && on_disk w filename.

(** Two worlds with the same ledgers: every archive reads the same, and
    the same archives are out of reach. *)
Definition same_ledgers (w w1 : world) : Prop :=
  broken w1 = broken w /\ forall path, archive_text w1 path = archive_text w path.

(** A computation that leaves the ledgers as they are. *)
Definition keeps {A} (c : M A) : Prop := forall w, same_ledgers w (snd (c w)).

(** ** Sample inputs *)

Definition default_kwargs : kwargs :=
  {| kw_c := false; kw_force_metadata := false; kw_overwrite := false;
     kw_remove := false; kw_flac := false; kw_onlymp3 := false; kw_opus := false;
     kw_no_original := false; kw_only_original := false; kw_original_art := false;
     kw_extract_artist := false; kw_original_metadata := false;
     kw_no_album_tag := false; kw_hide_progress := false;
     kw_name_format := u "{title}"; kw_min_size := None; kw_max_size := None;
     kw_download_archive := None; kw_sync := None |}.

Definition with_sizes (min max : option Z) (kw : kwargs) : kwargs :=
  {| kw_c := kw_c kw; kw_force_metadata := kw_force_metadata kw;
     kw_overwrite := kw_overwrite kw; kw_remove := kw_remove kw;
     kw_flac := kw_flac kw; kw_onlymp3 := kw_onlymp3 kw; kw_opus := kw_opus kw;
     kw_no_original := kw_no_original kw; kw_only_original := kw_only_original kw;
     kw_original_art := kw_original_art kw; kw_extract_artist := kw_extract_artist kw;
     kw_original_metadata := kw_original_metadata kw;
     kw_no_album_tag := kw_no_album_tag kw; kw_hide_progress := kw_hide_progress kw;
     kw_name_format := kw_name_format kw; kw_min_size := min; kw_max_size := max;
     kw_download_archive := kw_download_archive kw; kw_sync := kw_sync kw |}.

Definition empty_world : world :=
  {| files := ∅; archives := ∅; broken := ∅; lockable := ∅; fileToKeep := [] |}.

Definition two_bytes : bytes := [Byte.x41; Byte.x42].
Definition three_bytes : bytes := [Byte.x41; Byte.x42; Byte.x43].

Definition line_feed (s : string) : pystr := u s ++ [newline].

(** A run of ffmpeg on a track of two seconds whose position goes to 1.5 s
    and is then reported as [N/A]. *)
Definition run_regress : ffmpeg_run :=
  {| stderr_lines := [line_feed "out_time_ms=1500000"; line_feed "out_time_ms=N/A"];
     stdout_reads := [three_bytes]; returncode := 0; temp_file := None |}.

(** The run of the specification's scenario: 0.5 s, then 1.5 s. *)
Definition run_steady : ffmpeg_run :=
  {| stderr_lines := [line_feed "out_time_ms=500000"; line_feed "out_time_ms=1500000"];
     stdout_reads := [three_bytes]; returncode := 0; temp_file := None |}.

(** A run that fails with exit code 1 after two lines of complaint around a
    progress report. *)
Definition run_failed : ffmpeg_run :=
  {| stderr_lines := [line_feed "pipe:0: Invalid data found";
                      line_feed "out_time_ms=500000";
                      line_feed "Conversion failed!"];
     stdout_reads := [two_bytes]; returncode := 1; temp_file := None |}.

Definition archive_path : pystr := u "/music/archive.txt".

Definition with_archive (kw : kwargs) : kwargs :=
  {| kw_c := kw_c kw; kw_force_metadata := kw_force_metadata kw;
     kw_overwrite := kw_overwrite kw; kw_remove := kw_remove kw;
     kw_flac := kw_flac kw; kw_onlymp3 := kw_onlymp3 kw; kw_opus := kw_opus kw;
     kw_no_original := kw_no_original kw; kw_only_original := kw_only_original kw;
     kw_original_art := kw_original_art kw; kw_extract_artist := kw_extract_artist kw;
     kw_original_metadata := kw_original_metadata kw;
     kw_no_album_tag := kw_no_album_tag kw; kw_hide_progress := kw_hide_progress kw;
     kw_name_format := kw_name_format kw; kw_min_size := kw_min_size kw;
     kw_max_size := kw_max_size kw;
     kw_download_archive := Some archive_path; kw_sync := kw_sync kw |}.

Definition with_continue (kw : kwargs) : kwargs :=
  {| kw_c := true; kw_force_metadata := kw_force_metadata kw;
     kw_overwrite := kw_overwrite kw; kw_remove := kw_remove kw;
     kw_flac := kw_flac kw; kw_onlymp3 := kw_onlymp3 kw; kw_opus := kw_opus kw;
     kw_no_original := kw_no_original kw; kw_only_original := kw_only_original kw;
     kw_original_art := kw_original_art kw; kw_extract_artist := kw_extract_artist kw;
     kw_original_metadata := kw_original_metadata kw;
     kw_no_album_tag := kw_no_album_tag kw; kw_hide_progress := kw_hide_progress kw;
     kw_name_format := kw_name_format kw; kw_min_size := kw_min_size kw;
     kw_max_size := kw_max_size kw;
     kw_download_archive := kw_download_archive kw; kw_sync := kw_sync kw |}.

Definition with_overwrite (kw : kwargs) : kwargs :=
  {| kw_c := kw_c kw; kw_force_metadata := kw_force_metadata kw;
     kw_overwrite := true; kw_remove := kw_remove kw;
     kw_flac := kw_flac kw; kw_onlymp3 := kw_onlymp3 kw; kw_opus := kw_opus kw;
     kw_no_original := kw_no_original kw; kw_only_original := kw_only_original kw;
     kw_original_art := kw_original_art kw; kw_extract_artist := kw_extract_artist kw;
     kw_original_metadata := kw_original_metadata kw;
     kw_no_album_tag := kw_no_album_tag kw; kw_hide_progress := kw_hide_progress kw;
     kw_name_format := kw_name_format kw; kw_min_size := kw_min_size kw;
     kw_max_size := kw_max_size kw;
     kw_download_archive := kw_download_archive kw; kw_sync := kw_sync kw |}.

(** A working directory that holds [song.mp3]. *)
Definition world_with_song : world :=
  {| files := {[ u "song.mp3" := three_bytes ]}; archives := ∅; broken := ∅; lockable := ∅;
     fileToKeep := [] |}.

(** A world whose archive lists the track 123. *)
Definition world_with_archive : world :=
  {| files := ∅; archives := {[ archive_path := line_feed "123" ]}; broken := ∅; lockable := ∅;
     fileToKeep := [] |}.

Definition with_sync (kw : kwargs) : kwargs :=
  {| kw_c := kw_c kw; kw_force_metadata := kw_force_metadata kw;
     kw_overwrite := kw_overwrite kw; kw_remove := kw_remove kw;
     kw_flac := kw_flac kw; kw_onlymp3 := kw_onlymp3 kw; kw_opus := kw_opus kw;
     kw_no_original := kw_no_original kw; kw_only_original := kw_only_original kw;
     kw_original_art := kw_original_art kw; kw_extract_artist := kw_extract_artist kw;
     kw_original_metadata := kw_original_metadata kw;
     kw_no_album_tag := kw_no_album_tag kw; kw_hide_progress := kw_hide_progress kw;
     kw_name_format := kw_name_format kw; kw_min_size := kw_min_size kw;
     kw_max_size := kw_max_size kw;
     kw_download_archive := Some archive_path; kw_sync := Some archive_path |}.

Definition hls_mp3 : transcoding :=
  {| preset := u "mp3_1_0"; protocol := u "hls";
     transcoding_url := Some (u "https://api-v2.soundcloud.com/media/stream/hls");
     transcoding_duration := 2000 |}.

(** A public track of two seconds, by another user, with one transcoding. *)
Definition sample_track (id : Z) (name : string) : track :=
  {| track_id := id; track_title := u name; username := u "uploader";
     avatar_url := u "https://i1.sndcdn.com/avatars-large.jpg"; user_id := 9;
     streamable := true; policy := u "ALLOW"; downloadable := false;
     duration := 2000; transcodings := [hls_mp3];
     permalink_url := u "https://soundcloud.com/uploader/track";
     artwork_url := Some (u "https://i1.sndcdn.com/artworks-large.jpg");
     description := None; genre := None; created_at := u "2024-01-01 00:00:00" |}.

(** File names made of the track ID and the extension. *)
Definition name_by_id (id : Z) (ext : pystr) : pystr := str_of_Z id ++ ext.

(** The archive lists 1, 2 and 3, and the audio file of track 1 is on disk. *)
Definition world_123 : world :=
  {| files := {[ name_by_id 1 (u ".mp3") := three_bytes ]};
     archives := {[ archive_path := line_feed "1" ++ line_feed "2" ++ line_feed "3" ]};
     broken := ∅; lockable := ∅; fileToKeep := [] |}.

Definition playlist_234 : list track :=
  [sample_track 2 "two"; sample_track 3 "three"; sample_track 4 "four"].

Definition playlist_123 : list track :=
  [sample_track 1 "one"; sample_track 2 "two"; sample_track 3 "three"].

(** A server that answers every request with a picture labelled
    [image/jpg]. *)
Definition jpg_response : response :=
  {| status_code := 200; content_type := Some (u "image/jpg"); content := three_bytes |}.

Definition http_jpg (url : pystr) : http_answer := Answered jpg_response.

(** A server without pictures. *)
Definition http_404 (url : pystr) : http_answer :=
  Answered {| status_code := 404; content_type := Some (u "text/html"); content := [] |}.

Definition with_extract_artist (kw : kwargs) : kwargs :=
  {| kw_c := kw_c kw; kw_force_metadata := kw_force_metadata kw;
     kw_overwrite := kw_overwrite kw; kw_remove := kw_remove kw;
     kw_flac := kw_flac kw; kw_onlymp3 := kw_onlymp3 kw; kw_opus := kw_opus kw;
     kw_no_original := kw_no_original kw; kw_only_original := kw_only_original kw;
     kw_original_art := kw_original_art kw; kw_extract_artist := true;
     kw_original_metadata := kw_original_metadata kw;
     kw_no_album_tag := kw_no_album_tag kw; kw_hide_progress := kw_hide_progress kw;
     kw_name_format := kw_name_format kw; kw_min_size := kw_min_size kw;
     kw_max_size := kw_max_size kw;
     kw_download_archive := kw_download_archive kw; kw_sync := kw_sync kw |}.

(** A container that no handler knows. *)
Definition no_assembler (stream : bytes) : option (metadata_info -> bytes) := None.

(** A handler that leaves the buffer as it is. *)
Definition plain_assembler (stream : bytes) : option (metadata_info -> bytes) :=
  Some (fun _ => stream).

(** Processing without an account: no original is asked for, the locks
    are free, file names are [song] and the extension, ffmpeg runs well. *)
Definition sample_env : env :=
  {| auth_token := false; me_id := 1;
     lock_free_original := true; lock_free_hls := true;
     original := OriginalMissing;
     filename_for := fun ext => u "song" ++ ext;
     m3u8_url := u "https://cf-hls-media.sndcdn.com/playlist.m3u8";
     run := run_steady;
     env_int := int_ascii; env_http := http_404; env_dashes := dash_set;
     env_assembler := plain_assembler |}.

(** ** Further functions of the module *)

(** [remove_files]: of the regular files of the working directory, those
    not in [fileToKeep] are removed, whatever they are. *)
Definition remove_files : M unit :=
  modify (fun w =>
            set_archives
              (filter (fun entry => in_cwd (fst entry) = false
                                    \/ fst entry ∈ fileToKeep w) (archives w))
              (set_files
                 (filter (fun entry => in_cwd (fst entry) = false
                                       \/ fst entry ∈ fileToKeep w) (files w)) w)).

(** [s.replace(old, new, 1)]: the leftmost occurrence only. *)
Definition replace_first (old new s : pystr) : pystr :=
  match split_once old s with
  | Some (l, r) => l ++ new ++ r
  | None => s
  end.

Definition is_soundcloud_url (url : pystr) : bool :=
  startswith url (u "https://soundcloud.com") || startswith url (u "http://soundcloud.com").

Section ValidateUrl.

(** [urllib.parse.urljoin(url, urllib.parse.urlparse(url).path)]; [None]
    stands for the [ValueError] that [urlparse] raises on a text it cannot
    take apart. *)
Variable urljoin_path : pystr -> option pystr.

(** [requests.get(url)]: the [url] of the response, or [None] for an
    exception. *)
Variable fetch : pystr -> option pystr.

(** Whether [client.resolve] finds something at a URL; a call that raises
    is outside the model. *)
Variable resolves : pystr -> bool.

(** The first three steps of [validate_url]: the host is brought to
    [soundcloud.com], and a scheme is put in front of a bare host. *)
Definition normalise_host (url : pystr) : pystr :=
  let url :=
    if startswith url (u "https://m.soundcloud.com")
       || startswith url (u "http://m.soundcloud.com")
       || startswith url (u "m.soundcloud.com")
    then replace_first (u "m.") [] url else url in
  let url :=
    if startswith url (u "https://www.soundcloud.com")
       || startswith url (u "http://www.soundcloud.com")
       || startswith url (u "www.soundcloud.com")
    then replace_first (u "www.") [] url else url in
  if startswith url (u "soundcloud.com") then u "https://" ++ url else url.

Definition validate_url (url : pystr) : outcome pystr :=
  let url := normalise_host url in
  if is_soundcloud_url url then
    match urljoin_path url with
    | Some joined => Returned joined
    | None => Raised ValueError
    end
  else
    let by_name :=
      if resolves (u "https://soundcloud.com/" ++ url)
      then Returned (u "https://soundcloud.com/" ++ url)
      else Raised (SystemExit 1) in
    match fetch url with
    | Some resp_url =>
        if is_soundcloud_url url then
          match urljoin_path resp_url with
          | Some joined => Returned joined
          | None => by_name
          end
        else Raised (SystemExit 1)
    | None => by_name
    end.

End ValidateUrl.

(** [s.strip(chars)] for a single character. *)
Fixpoint lstrip_char (c : N) (s : pystr) : pystr :=
  match s with
  | [] => []
  | a :: s' => if N.eqb a c then lstrip_char c s' else s
  end.

Definition strip_char (c : N) (s : pystr) : pystr :=
  rev (lstrip_char c (rev (lstrip_char c s))).

Definition hyphen : N := 45%N.
Definition underscore : N := 95%N.

(** The key of [python_args] made from a key of the parsed arguments:
    [key.strip("-").replace("-", "_")]. *)
Definition python_key (key : pystr) : pystr :=
  replace [hyphen] [underscore] (strip_char hyphen key).

(** ** Further notions used in the statements *)

(** The lock file of the archive, when one is configured; and the lock
    files that the processing of a track may leave behind, that of the
    track and that of the archive. *)
Definition archive_lock (kw : kwargs) : list pystr :=
  match kw_download_archive kw with
  | Some archive => [lock_path archive]
  | None => []
  end.

Definition track_locks (t : track) (kw : kwargs) : list pystr :=
  lock_path (str_of_Z (track_id t)) :: archive_lock kw.

(** [w1] has the files of [w], the audio files and the lock files: every
    path holds what it held, or nothing as before, but for the lock files
    among [locks], which may have been created or emptied. *)
Definition files_kept (locks : list pystr) (w w1 : world) : Prop :=
  forall name,
    files w1 !! name = files w !! name
    \/ (name ∈ locks /\ files w1 !! name = Some []).

(** [w1] has the archives of [w], but that the download archive of [kw],
    where it was missing, may be there, empty. *)
Definition archives_kept (kw : kwargs) (w w1 : world) : Prop :=
  forall path,
    archives w1 !! path = archives w !! path
    \/ (kw_download_archive kw = Some path
        /\ archives w !! path = None /\ archives w1 !! path = Some []).

(** The same, but that the download archive may also hold, after its old
    text, the line of the ID [id]. *)
Definition archives_recorded (kw : kwargs) (id : Z) (w w1 : world) : Prop :=
  forall path,
    archives w1 !! path = archives w !! path
    \/ (kw_download_archive kw = Some path
        /\ ((archives w !! path = None /\ archives w1 !! path = Some [])
            \/ archives w1 !! path
               = Some (archive_text w path ++ str_of_Z id ++ [newline]))).

(** A computation that leaves the archives as they are, but that it may
    create the download archive. *)
Definition keeps_archives {A} (kw : kwargs) (c : M A) : Prop :=
  forall w, archives_kept kw w (snd (c w)).

(** The same, with the same list of files to keep. *)
Definition same_files (locks : list pystr) (w w1 : world) : Prop :=
  files_kept locks w w1 /\ fileToKeep w1 = fileToKeep w.

(** A computation that creates, changes and removes no file but the lock
    files among [locks]. *)
Definition keeps_files {A} (locks : list pystr) (c : M A) : Prop :=
  forall w, same_files locks w (snd (c w)).




(** A run that fails without a single [key=value] line. *)
Definition run_plain_failed : ffmpeg_run :=
  {| stderr_lines := [line_feed "pipe:0: Invalid data found";
                      line_feed "Conversion failed!"];
     stdout_reads := []; returncode := 1; temp_file := None |}.

(** The same, with an ffmpeg that fails. *)
Definition failing_env : env :=
  {| auth_token := false; me_id := 1;
     lock_free_original := true; lock_free_hls := true;
     original := OriginalMissing;
     filename_for := fun ext => u "song" ++ ext;
     m3u8_url := u "https://cf-hls-media.sndcdn.com/playlist.m3u8";
     run := run_failed;
     env_int := int_ascii; env_http := http_404; env_dashes := dash_set;
     env_assembler := plain_assembler |}.



Definition with_remove (kw : kwargs) : kwargs :=
  {| kw_c := kw_c kw; kw_force_metadata := kw_force_metadata kw;
     kw_overwrite := kw_overwrite kw; kw_remove := true;
     kw_flac := kw_flac kw; kw_onlymp3 := kw_onlymp3 kw; kw_opus := kw_opus kw;
     kw_no_original := kw_no_original kw; kw_only_original := kw_only_original kw;
     kw_original_art := kw_original_art kw; kw_extract_artist := kw_extract_artist kw;
     kw_original_metadata := kw_original_metadata kw;
     kw_no_album_tag := kw_no_album_tag kw; kw_hide_progress := kw_hide_progress kw;
     kw_name_format := kw_name_format kw; kw_min_size := kw_min_size kw;
     kw_max_size := kw_max_size kw;
     kw_download_archive := kw_download_archive kw; kw_sync := kw_sync kw |}.




(** The names that the audio files of the given tracks may have: one for
    each of the extensions that [sync] knows. *)
Definition names_of (filename_of : Z -> list N -> list N) (ids : list Z) : list (list N) :=
  flat_map (fun id => List.map (filename_of id) sync_extensions) ids.

(** As [world_123], with the audio file of track 2 on disk as well. *)
Definition world_123_two_files : world :=
  {| files := {[ name_by_id 1 (u ".mp3") := three_bytes;
                 name_by_id 2 (u ".mp3") := two_bytes ]};
     archives := {[ archive_path := line_feed "1" ++ line_feed "2" ++ line_feed "3" ]};
     broken := ∅; lockable := ∅; fileToKeep := [] |}.

(** An archive that holds one empty line. *)
Definition world_blank_archive : world :=
  {| files := {[ name_by_id 1 (u ".mp3") := three_bytes ]};
     archives := {[ archive_path := [newline] ]};
     broken := ∅; lockable := ∅; fileToKeep := [] |}.

Definition with_original_metadata (kw : kwargs) : kwargs :=
  {| kw_c := kw_c kw; kw_force_metadata := kw_force_metadata kw;
     kw_overwrite := kw_overwrite kw; kw_remove := kw_remove kw;
     kw_flac := kw_flac kw; kw_onlymp3 := kw_onlymp3 kw; kw_opus := kw_opus kw;
     kw_no_original := kw_no_original kw; kw_only_original := kw_only_original kw;
     kw_original_art := kw_original_art kw; kw_extract_artist := kw_extract_artist kw;
     kw_original_metadata := true;
     kw_no_album_tag := kw_no_album_tag kw; kw_hide_progress := kw_hide_progress kw;
     kw_name_format := kw_name_format kw; kw_min_size := kw_min_size kw;
     kw_max_size := kw_max_size kw; kw_download_archive := kw_download_archive kw;
     kw_sync := kw_sync kw |}.

(** The uploader offers the original file, an mp3 of three bytes that
    arrives in two reads. *)
Definition original_env : env :=
  {| auth_token := true; me_id := 1;
     lock_free_original := true; lock_free_hls := true;
     original := OriginalFound (u "song.mp3") (u "song.mp3") (u ".mp3") 3
                   [two_bytes; [Byte.x43]];
     filename_for := fun ext => u "song" ++ ext;
     m3u8_url := u "https://cf-hls-media.sndcdn.com/playlist.m3u8";
     run := run_steady;
     env_int := int_ascii; env_http := http_404; env_dashes := dash_set;
     env_assembler := plain_assembler |}.

(** The spellings of the host that [validate_url] knows, each with the
    prefix it is brought to. *)
Definition host_spellings : list (pystr * pystr) :=
  [(u "https://m.soundcloud.com", u "https://soundcloud.com");
   (u "http://m.soundcloud.com", u "http://soundcloud.com");
   (u "m.soundcloud.com", u "https://soundcloud.com");
   (u "https://www.soundcloud.com", u "https://soundcloud.com");
   (u "http://www.soundcloud.com", u "http://soundcloud.com");
   (u "www.soundcloud.com", u "https://soundcloud.com");
   (u "soundcloud.com", u "https://soundcloud.com");
   (u "https://soundcloud.com", u "https://soundcloud.com");
   (u "http://soundcloud.com", u "http://soundcloud.com")].

(** A short link, and a network on which every request is answered from
    the page of a track. *)
Definition short_link : pystr := u "https://on.soundcloud.com/AbCdE".

Definition fetch_redirected (url : pystr) : option pystr :=
  Some (u "https://soundcloud.com/artist/song").

Definition dash_to_underscore (c : N) : N :=
  if N.eqb c hyphen then underscore else c.

(** A transcoding that lasts [2 ** 53 + 1] milliseconds. *)
Definition long_transcoding : transcoding :=
  {| preset := u "mp3_1_0"; protocol := u "hls";
     transcoding_url := Some (u "https://api-v2.soundcloud.com/media/stream/hls");
     transcoding_duration := 2 ^ 53 + 1 |}.

(** A run on a track of 900 ms whose position goes to 0.3 s and then to
    the end. *)
Definition run_third : ffmpeg_run :=
  {| stderr_lines := [line_feed "out_time_ms=300000"; line_feed "out_time_ms=900000"];
     stdout_reads := [three_bytes]; returncode := 0; temp_file := None |}.


(** A world in which the lock of the archive cannot be taken. *)
Definition unreachable_world : world :=
  {| files := ∅; archives := ∅; broken := {[ archive_path ]}; lockable := ∅;
     fileToKeep := [] |}.

(** A world whose archive is an empty file. *)
Definition world_empty_archive : world :=
  {| files := ∅; archives := {[ archive_path := [] ]}; broken := ∅; lockable := ∅;
     fileToKeep := [] |}.

(** * Properties *)

(** ** Floats *)

Lemma pow2_pos e : (0 < pow2 e)%Q.
Proof.
  unfold pow2. destruct (0 <=? e) eqn:He.
  - apply Z.leb_le in He. change 0%Q with (inject_Z 0). rewrite <- Zlt_Qlt.
    apply Z.pow_pos_nonneg; lia.
  - reflexivity.
Qed.

Lemma nearest_even_nonneg a b : 0 <= a -> 0 < b -> 0 <= nearest_even a b.
Proof.
  intros Ha Hb. unfold nearest_even.
  assert (0 <= a / b) by (apply Z.div_pos; lia).
  destruct (2 * (a mod b) ?= b); [destruct (Z.even (a / b))| |]; lia.
Qed.

Lemma round_pos_nonneg n d : 0 < n -> 0 < d -> fnonneg (round_pos n d).
Proof.
  intros Hn Hd. unfold round_pos.
  set (e := Z.max (floor_log2 n d - 52) (-1074)).
  set (m := if 0 <=? e then nearest_even n (d * 2 ^ e)
            else nearest_even (n * 2 ^ (- e)) d).
  assert (0 <= m) as Hm.
  { subst m. destruct (0 <=? e) eqn:He.
    - apply Z.leb_le in He. apply nearest_even_nonneg; [lia|].
      apply Z.mul_pos_pos; [lia|]. apply Z.pow_pos_nonneg; lia.
    - apply Z.leb_gt in He. apply nearest_even_nonneg; [|lia].
      apply Z.mul_nonneg_nonneg; [lia|]. apply Z.pow_nonneg. lia. }
  destruct ((0 <=? e) && (2 ^ 1024 <=? m * 2 ^ e)); [reflexivity|].
  cbn [fnonneg]. rewrite Qred_correct.
  apply Qmult_le_0_compat; [|apply Qlt_le_weak, pow2_pos].
  change 0%Q with (inject_Z 0). rewrite <- Zle_Qle. exact Hm.
Qed.

Lemma fneg_nonneg f : fnonneg f -> fnonpos (fneg f).
Proof.
  destruct f as [q|s]; cbn [fneg fnonneg fnonpos].
  - intros H. rewrite Qred_correct. lra.
  - intros ->. reflexivity.
Qed.

Lemma round_nonneg x : (0 <= x)%Q -> fnonneg (round x).
Proof.
  intros Hx. unfold round. destruct x as [n d]. cbn [Qnum Qden].
  destruct n as [|n|n].
  - cbn. lra.
  - apply round_pos_nonneg; lia.
  - exfalso. unfold Qle in Hx. cbn in Hx. lia.
Qed.

Lemma round_nonpos x : (x <= 0)%Q -> fnonpos (round x).
Proof.
  intros Hx. unfold round. destruct x as [n d]. cbn [Qnum Qden].
  destruct n as [|n|n].
  - cbn. lra.
  - exfalso. unfold Qle in Hx. cbn in Hx. lia.
  - apply fneg_nonneg, round_pos_nonneg; lia.
Qed.

Lemma Qred_inject_Z n : Qred (inject_Z n) = inject_Z n.
Proof.
  unfold Qred, inject_Z.
  pose proof (Z.ggcd_gcd n 1) as Hg.
  pose proof (Z.ggcd_correct_divisors n 1) as Hd.
  destruct (Z.ggcd n 1) as [g [a b]]. cbn [fst snd] in *.
  rewrite Z.gcd_1_r in Hg. subst g. destruct Hd as [Ha Hb].
  replace a with n by lia. replace b with 1 by lia. reflexivity.
Qed.

(** Integers that fit the 53 bits of the significand, scaled by a power of
    two, are floats: rounding leaves them as they are. *)
Lemma round_pos_exact z k :
  0 < z < 2 ^ 53 -> 0 <= k -> z * 2 ^ k < 2 ^ 1024 ->
  round_pos (z * 2 ^ k) 1 = Real (inject_Z (z * 2 ^ k)).
Proof.
  intros Hz Hk Hmax. unfold round_pos.
  assert (0 < 2 ^ k) as Hpk by (apply Z.pow_pos_nonneg; lia).
  assert (0 < z * 2 ^ k) as Hn by (apply Z.mul_pos_pos; lia).
  assert (Z.log2 (z * 2 ^ k) = k + Z.log2 z) as Hlog
    by (apply Z.log2_mul_pow2; lia).
  assert (0 <= Z.log2 z <= 52) as Hlz.
  { split; [apply Z.log2_nonneg|].
    assert (Z.log2 z < 53); [|lia]. apply Z.log2_lt_pow2; lia. }
  assert (floor_log2 (z * 2 ^ k) 1 = k + Z.log2 z) as ->.
  { unfold floor_log2. change (Z.log2 1) with 0. rewrite Z.sub_0_r, Hlog.
    destruct (0 <=? k + Z.log2 z) eqn:H0; [|apply Z.leb_gt in H0; lia].
    rewrite Z.mul_1_l, <- Hlog.
    destruct (Z.leb_spec (2 ^ Z.log2 (z * 2 ^ k)) (z * 2 ^ k)) as [_|Hbad];
      [reflexivity|].
    pose proof (Z.log2_spec _ Hn). lia. }
  rewrite Z.max_l by lia.
  set (e := k + Z.log2 z - 52).
  destruct (Z.leb_spec 0 e) as [He|He]; cbn [andb].
  - assert (z * 2 ^ k = (z * 2 ^ (k - e)) * 2 ^ e) as Hsplit.
    { rewrite <- Z.mul_assoc, <- Z.pow_add_r by lia. f_equal. f_equal. lia. }
    assert (0 < 2 ^ e) as Hpe by (apply Z.pow_pos_nonneg; lia).
    assert (nearest_even (z * 2 ^ k) (1 * 2 ^ e) = z * 2 ^ (k - e)) as Hm.
    { unfold nearest_even. rewrite Z.mul_1_l, Hsplit.
      rewrite Z.mod_mul, Z.div_mul by lia.
      destruct (Z.compare_spec (2 * 0) (2 ^ e)); [lia|reflexivity|lia]. }
    rewrite Hm, <- Hsplit.
    destruct (Z.leb_spec (2 ^ 1024) (z * 2 ^ k)); [lia|].
    f_equal. unfold pow2. destruct (Z.leb_spec 0 e); [|lia].
    rewrite <- inject_Z_mult, <- Hsplit. apply Qred_inject_Z.
  - assert (nearest_even (z * 2 ^ k * 2 ^ (- e)) 1 = z * 2 ^ k * 2 ^ (- e)) as Hm.
    { unfold nearest_even. rewrite Z.mod_1_r, Z.div_1_r. reflexivity. }
    rewrite Hm. f_equal.
    rewrite <- (Qred_inject_Z (z * 2 ^ k)). apply Qred_complete.
    unfold pow2. destruct (Z.leb_spec 0 e); [lia|].
    assert (0 < 2 ^ (- e)) as Hpe by (apply Z.pow_pos_nonneg; lia).
    unfold Qeq. cbn [Qnum Qden inject_Z Qmult].
    rewrite Z.mul_1_r, Pos.mul_1_l, Z2Pos.id by lia. lia.
Qed.

Lemma round_exact z k :
  Z.abs z < 2 ^ 53 -> 0 <= k -> Z.abs z * 2 ^ k < 2 ^ 1024 ->
  round (inject_Z (z * 2 ^ k)) = Real (inject_Z (z * 2 ^ k)).
Proof.
  intros Hz Hk Hmax.
  assert (0 < 2 ^ k) as Hpk by (apply Z.pow_pos_nonneg; lia).
  unfold round. cbn [Qnum Qden inject_Z].
  destruct (z * 2 ^ k) as [|n|n] eqn:Hn; [reflexivity| |].
  - assert (0 < z) as Hpos by nia.
    rewrite <- Hn. apply round_pos_exact; lia.
  - assert (z < 0) as Hneg by nia.
    assert (Z.pos n = (- z) * 2 ^ k) as -> by lia.
    rewrite round_pos_exact by lia. cbn [fneg]. f_equal.
    rewrite <- inject_Z_opp, Qred_inject_Z. f_equal. lia.
Qed.

Lemma Qle_bool_inject a b : Qle_bool (inject_Z a) (inject_Z b) = (a <=? b).
Proof. unfold Qle_bool. cbn. rewrite !Z.mul_1_r. reflexivity. Qed.

Lemma true_divide_nonneg a b q :
  0 <= a -> true_divide a b = Returned q -> (0 <= q)%Q.
Proof.
  intros Ha. unfold true_divide.
  assert (fnonneg (round (a # b))) as Hsign.
  { apply round_nonneg. unfold Qle. cbn. lia. }
  destruct (round (a # b)) as [r|s]; [|discriminate].
  intros [= <-]. exact Hsign.
Qed.

(** The declared size of a transcoding whose duration fits the
    significand is the exact product. *)
Lemma declared_bytes_exact tr :
  Z.abs (transcoding_duration tr) < 2 ^ 53 ->
  declared_bytes tr
  = Returned (Real (inject_Z ((if contains (u "aac") (preset tr) then 32 else 16)
                              * transcoding_duration tr))).
Proof.
  intros Hd. unfold declared_bytes, float_of_int, true_divide.
  set (d := transcoding_duration tr) in *.
  assert (round (d # 1) = Real (inject_Z d)) as ->.
  { pose proof (round_exact d 0) as H. rewrite Z.pow_0_r, !Z.mul_1_r in H.
    apply H; [exact Hd|lia|].
    eapply Z.lt_trans; [exact Hd|]. apply Z.pow_lt_mono_r; lia. }
  assert (forall k rate, 0 <= k -> k <= 5 -> rate = 2 ^ k ->
                         fmul (inject_Z rate) (inject_Z d) = Real (inject_Z (rate * d)))
    as Hmul.
  { intros k rate Hk Hk5 ->. unfold fmul. rewrite <- inject_Z_mult, (Z.mul_comm _ d).
    apply round_exact; [exact Hd|exact Hk|].
    assert (2 ^ k <= 2 ^ 5) as Hpow by (apply Z.pow_le_mono_r; lia).
    apply Z.le_lt_trans with (Z.abs d * 2 ^ 5);
      [apply Z.mul_le_mono_nonneg_l; [lia|exact Hpow]|].
    apply Z.lt_trans with (2 ^ 53 * 2 ^ 5);
      [apply Z.mul_lt_mono_pos_r; [reflexivity|exact Hd]|reflexivity]. }
  cbv beta iota zeta. destruct (contains (u "aac") (preset tr)).
  - change 32%Q with (inject_Z 32).
    rewrite (Hmul 5 32); [reflexivity|lia|lia|reflexivity].
  - change 16%Q with (inject_Z 16).
    rewrite (Hmul 4 16); [reflexivity|lia|lia|reflexivity].
Qed.

(** ** SizeGuard *)

Lemma min_size_of_default kw : min_size_of kw = default 0 (kw_min_size kw).
Proof.
  unfold min_size_of. destruct (kw_min_size kw) as [z|]; simpl; [|reflexivity].
  destruct (Z.eqb_spec z 0); congruence.
Qed.

Lemma within_bounds_iff lo x hi :
  within_bounds lo x hi = true <->
  lo <= x /\ match hi with Finite h => x <= h | Infinity => True end.
Proof.
  unfold within_bounds, le_ext. rewrite andb_true_iff, Z.leb_le.
  destruct hi; [rewrite Z.leb_le|]; intuition.
Qed.

Lemma size_guard_cases kw L :
  (within_bounds (min_size_of kw) L (max_size_of kw) = true
   /\ size_guard kw L = Returned tt)
  \/ (within_bounds (min_size_of kw) L (max_size_of kw) = false
      /\ size_guard kw L = Raised (SoundCloudException bounds_message)).
Proof.
  unfold size_guard. destruct (within_bounds _ _ _); [left|right]; split; reflexivity.
Qed.

(** C3, as stated, fails: with [--max-size 0] a length of 5 is accepted,
    although [5 <= 0] does not hold. *)
Lemma C3_counterexample :
  ~ (forall kw L,
        size_guard kw L = Returned tt
        <-> spec_size_accepts (kw_min_size kw) (kw_max_size kw) L).
Proof.
  intros H.
  destruct (H (with_sizes None (Some 0) default_kwargs) 5) as [H1 _].
  destruct (H1 eq_refl) as [_ H2]. simpl in H2. lia.
Qed.

(** C3, amended: the size check accepts a declared length [L] exactly when
    [min <= L] (an absent [min] being [0]) and [max] is absent, is [0], or
    [L <= max]; in every other case it fails with the bounds error, and it
    does so before anything is read from the stream or written to the
    sink.  [get_transcoding_m3u8] puts the same test to the float product
    of the bit rate (32 or 16) and the duration, and raises the bounds
    error in place of the playlist URL exactly when it fails; the float
    product is the exact one as long as the duration is below [2 ** 53]
    in absolute value. *)
Theorem C3_size_guard_accepts_iff kw L :
  (size_guard kw L = Returned tt
   <-> default 0 (kw_min_size kw) <= L
       /\ match kw_max_size kw with
          | Some m => m = 0 \/ L <= m
          | None => True
          end)
  /\ (size_guard kw L <> Returned tt ->
      size_guard kw L = Raised (SoundCloudException bounds_message)
      /\ (forall reads pipe,
             _write_streaming_response_to_pipe L reads pipe kw
             = (Raised (SoundCloudException bounds_message), pipe)))
  /\ (forall e tr,
         Z.abs (transcoding_duration tr) < 2 ^ 53 ->
         (get_transcoding_m3u8 e tr kw <> Raised (SoundCloudException bounds_message)
          <-> size_guard kw ((if contains (u "aac") (preset tr) then 32 else 16)
                             * transcoding_duration tr) = Returned tt)).
Proof.
  split; [|split].
  - rewrite <- min_size_of_default.
    destruct (size_guard_cases kw L) as [[Hb ->]|[Hb ->]].
    + apply within_bounds_iff in Hb. destruct Hb as [Hlo Hhi].
      split; [intros _|reflexivity]. split; [exact Hlo|].
      unfold max_size_of in Hhi. destruct (kw_max_size kw) as [m|]; [|exact I].
      destruct (Z.eqb_spec m 0); [left|right]; assumption.
    + split; [discriminate|]. intros [Hlo Hhi]. exfalso.
      assert (within_bounds (min_size_of kw) L (max_size_of kw) = true) as Ht;
        [|congruence].
      apply within_bounds_iff. split; [exact Hlo|].
      unfold max_size_of. destruct (kw_max_size kw) as [m|]; [|exact I].
      destruct (Z.eqb_spec m 0); [exact I|]. destruct Hhi; [contradiction|assumption].
  - intros Hne. destruct (size_guard_cases kw L) as [[_ Hg]|[_ Hg]]; [contradiction|].
    split; [exact Hg|]. intros reads pipe.
    unfold _write_streaming_response_to_pipe. rewrite Hg. reflexivity.
  - intros e tr Hd. unfold get_transcoding_m3u8.
    rewrite (declared_bytes_exact tr Hd). cbn [int_le_float].
    set (L' := (if contains (u "aac") (preset tr) then 32 else 16)
               * transcoding_duration tr).
    assert (int_le_float (min_size_of kw) (Real (inject_Z L'))
            && float_le_ext (Real (inject_Z L')) (max_size_of kw)
            = within_bounds (min_size_of kw) L' (max_size_of kw)) as Hsame.
    { unfold within_bounds, le_ext, float_le_ext. cbn [int_le_float].
      rewrite Qle_bool_inject. destruct (max_size_of kw); [|reflexivity].
      rewrite Qle_bool_inject. reflexivity. }
    cbn [int_le_float] in Hsame. rewrite Hsame. unfold size_guard.
    destruct (within_bounds _ _ _); simpl.
    + split; [reflexivity|]. intros _. destruct (transcoding_url tr); discriminate.
    + split; [intros H; contradiction H; reflexivity|discriminate].
Qed.

(** A transcoding of two seconds passes the check without bounds. *)
Lemma C3_size_guard_accepts_iff_witness :
  get_transcoding_m3u8 sample_env hls_mp3 default_kwargs
  <> Raised (SoundCloudException bounds_message).
Proof.
  destruct (C3_size_guard_accepts_iff default_kwargs 32000) as (_ & _ & Hhls).
  apply (Hhls sample_env hls_mp3); [reflexivity|reflexivity].
Defined.

(** Beyond that, the float product is not the exact one: a duration of
    [2 ** 53 + 1] is converted to [2 ** 53], so that with the preset mp3
    and a largest size of [2 ** 57] the transcoding is accepted, although
    16 times its duration is above that size. *)
Example long_transcoding_accepted :
  get_transcoding_m3u8 sample_env long_transcoding
    (with_sizes None (Some (2 ^ 57)) default_kwargs)
  = Returned (Some (m3u8_url sample_env))
  /\ 2 ^ 57 < 16 * transcoding_duration long_transcoding.
Proof. split; [vm_compute; reflexivity|reflexivity]. Qed.

(** ** StreamCopier *)






(** ** Cutting strings *)

Lemma strip_prefix_spec p :
  forall s rest, strip_prefix p s = Some rest <-> s = p ++ rest.
Proof.
  induction p as [|a p IH]; intros s rest.
  - simpl. split; [intros [= ->]; reflexivity|intros ->; reflexivity].
  - destruct s as [|b s]; simpl.
    + split; discriminate.
    + destruct (N.eqb_spec a b) as [->|Hne].
      * rewrite IH. split; [intros ->; reflexivity|intros [= ->]; reflexivity].
      * split; [discriminate|]. intros [= Hab _]. congruence.
Qed.

(** [split_once] cuts at an occurrence of the separator... *)
Lemma split_once_parts sep s :
  forall l r, split_once sep s = Some (l, r) -> s = l ++ sep ++ r.
Proof.
  induction s as [|c s IH]; intros l r H.
  - simpl in H. destruct (strip_prefix sep []) as [rest|] eqn:Hp; [|discriminate].
    injection H as <- <-. apply strip_prefix_spec in Hp. exact Hp.
  - cbn [split_once] in H.
    destruct (strip_prefix sep (c :: s)) as [rest|] eqn:Hp.
    + injection H as <- <-. apply strip_prefix_spec in Hp. exact Hp.
    + destruct (split_once sep s) as [[l0 r0]|]; [|discriminate].
      injection H as <- <-. rewrite (IH l0 r0 eq_refl). reflexivity.
Qed.

(** ... and at the leftmost one. *)
Lemma split_once_leftmost sep s :
  forall l r l' r',
    split_once sep s = Some (l, r) -> s = l' ++ sep ++ r' ->
    (length l <= length l')%nat.
Proof.
  induction s as [|c s IH]; intros l r l' r' H Hs.
  - simpl in H. destruct (strip_prefix sep []) as [rest|]; [|discriminate].
    injection H as <- <-. simpl. lia.
  - cbn [split_once] in H.
    destruct (strip_prefix sep (c :: s)) as [rest|] eqn:Hp.
    + injection H as <- <-. simpl. lia.
    + destruct (split_once sep s) as [[l0 r0]|] eqn:Hrec; [|discriminate].
      injection H as <- <-. destruct l' as [|c' l'].
      * simpl in Hs. apply (proj2 (strip_prefix_spec _ _ _)) in Hs. congruence.
      * injection Hs as _ Hs. simpl. specialize (IH l0 r0 l' r' eq_refl Hs). lia.
Qed.

Lemma startswith_spec s p : startswith s p = true <-> exists rest, s = p ++ rest.
Proof.
  unfold startswith. destruct (strip_prefix p s) as [rest|] eqn:H.
  - apply strip_prefix_spec in H. split; [eauto|reflexivity].
  - split; [discriminate|]. intros [rest Hs].
    apply (proj2 (strip_prefix_spec _ _ _)) in Hs. congruence.
Qed.

(** A separator of one character cuts a text at its first occurrence. *)
Lemma split_once_char_first c pre rest :
  Forall (fun a => a <> c) pre ->
  split_once [c] (pre ++ c :: rest) = Some (pre, rest).
Proof.
  induction 1 as [|a pre Ha _ IH].
  - cbn. rewrite N.eqb_refl. reflexivity.
  - change ((a :: pre) ++ c :: rest) with (a :: pre ++ c :: rest).
    cbn [split_once strip_prefix].
    destruct (N.eqb_spec c a) as [->|_]; [contradiction|].
    rewrite IH. reflexivity.
Qed.

Lemma split_once_some sep l :
  forall s r, s = l ++ sep ++ r -> split_once sep s <> None.
Proof.
  induction l as [|a l IH]; intros s r ->.
  - cbn [app]. destruct r as [|b r], sep as [|c sep]; cbn [split_once app];
      try discriminate;
      match goal with
      | |- context [strip_prefix ?p ?t] =>
          rewrite (proj2 (strip_prefix_spec p t _) eq_refl)
      end; discriminate.
  - change ((a :: l) ++ sep ++ r) with (a :: l ++ sep ++ r). cbn [split_once].
    destruct (strip_prefix sep (a :: l ++ sep ++ r)); [discriminate|].
    specialize (IH (l ++ sep ++ r) r eq_refl).
    destruct (split_once sep (l ++ sep ++ r)) as [[l0 r0]|]; [discriminate|].
    contradiction.
Qed.

(** ** TranscodeProcess *)

Lemma last_cons {A} (x : A) (l : list A) (d : A) :
  List.last (x :: l) d = List.last l x.
Proof.
  revert x d. induction l as [|y l IH]; intros x d; [reflexivity|].
  change (List.last (x :: y :: l) d) with (List.last (y :: l) d).
  rewrite (IH y d), (IH y x). reflexivity.
Qed.

Lemma py_min_le_r a b : (py_min a b <= b)%Q.
Proof.
  unfold py_min. destruct (Qle_bool a b) eqn:H.
  - apply Qle_bool_iff. exact H.
  - apply Qle_refl.
Qed.

Lemma py_min_mono a b t : (a <= b)%Q -> (py_min a t <= py_min b t)%Q.
Proof.
  intros Hab. unfold py_min.
  destruct (Qle_bool a t) eqn:Ha, (Qle_bool b t) eqn:Hb.
  - exact Hab.
  - apply Qle_bool_iff. exact Ha.
  - apply Qle_bool_iff in Hb.
    assert (~ (a <= t)%Q) as Hn by (rewrite <- Qle_bool_iff; congruence).
    exfalso. apply Hn. eapply Qle_trans; eassumption.
  - apply Qle_refl.
Qed.

(** The sign of an update is that of the step it reports. *)
Lemma fsub_nonneg a b : (b <= a)%Q -> fnonneg (fsub a b).
Proof. intros H. apply round_nonneg. lra. Qed.

Lemma fsub_nonpos a b : (a <= b)%Q -> fnonpos (fsub a b).
Proof. intros H. apply round_nonpos. lra. Qed.

Lemma differences_nonneg l :
  forall prev, ascending prev l -> Forall fnonneg (differences prev l).
Proof.
  induction l as [|x l IH]; intros prev Hasc; simpl; constructor.
  - destruct Hasc as [H _]. apply fsub_nonneg. exact H.
  - apply IH. apply Hasc.
Qed.

Lemma differences_signs l :
  forall prev,
    Forall2 (fun step d =>
               ((fst step <= snd step)%Q -> fnonneg d)
               /\ ((snd step <= fst step)%Q -> fnonpos d))
            (zip (prev :: l) l) (differences prev l).
Proof.
  induction l as [|x l IH]; intros prev; [constructor|].
  cbn [zip zip_with differences]. constructor; [|apply IH].
  split; [apply fsub_nonneg|apply fsub_nonpos].
Qed.

Lemma ascending_clamp t l :
  forall prev,
    ascending prev l ->
    ascending (py_min prev t) (List.map (fun s => py_min s t) l).
Proof.
  induction l as [|x l IH]; intros prev Hasc; simpl; [exact I|].
  destruct Hasc as [H Hrest]. split; [apply py_min_mono; exact H|apply IH; exact Hrest].
Qed.

(** The nine keys hold no equals sign. *)
Lemma progress_keys_plain :
  Forall (fun key => Forall (fun a => a <> 61%N) key) progress_keys.
Proof. repeat (constructor; [repeat (constructor; [discriminate|]); constructor|]). constructor. Qed.

(** The test of the code, on the two parts of the line, is the test for
    one of the nine keys in front of an equals sign. *)
Lemma is_progress_line_split line :
  _is_ffmpeg_progress_line (split1 (u "=") line) = is_progress_line line.
Proof.
  unfold split1, is_progress_line. fold progress_keys.
  change (u "=") with [61%N].
  destruct (split_once [61%N] line) as [[l r]|] eqn:Hsplit.
  - cbn [_is_ffmpeg_progress_line]. apply eq_true_iff_eq.
    rewrite !existsb_exists. split; intros (key & Hin & Hkey); exists key;
      (split; [exact Hin|]).
    + apply bool_decide_eq_true in Hkey. subst key.
      apply split_once_parts in Hsplit. apply startswith_spec. exists r.
      rewrite Hsplit, <- app_assoc. reflexivity.
    + apply startswith_spec in Hkey. destruct Hkey as [rest Hline].
      rewrite <- app_assoc in Hline. cbn [app] in Hline.
      pose proof progress_keys_plain as Hplain.
      rewrite List.Forall_forall in Hplain.
      rewrite Hline, (split_once_char_first _ _ _ (Hplain key Hin)) in Hsplit.
      injection Hsplit as <- _. apply bool_decide_eq_true. reflexivity.
  - cbn [_is_ffmpeg_progress_line]. symmetry.
    destruct (existsb _ progress_keys) eqn:Hsome; [|reflexivity].
    apply existsb_exists in Hsome. destruct Hsome as (key & _ & Hkey).
    apply startswith_spec in Hkey. destruct Hkey as [rest Hline].
    rewrite <- app_assoc in Hline.
    exfalso. exact (split_once_some _ _ _ _ Hline Hsplit).
Qed.

(** An [out_time_ms] line is cut into its key and its value; no other
    progress line begins like one. *)
Lemma out_time_ms_split line :
  match strip_prefix (u "out_time_ms=") line with
  | Some value => split1 (u "=") line = [u "out_time_ms"; value]
  | None => is_progress_line line && startswith line (u "out_time_ms") = false
  end.
Proof.
  destruct (strip_prefix (u "out_time_ms=") line) as [value|] eqn:Hprefix.
  - apply strip_prefix_spec in Hprefix. subst line.
    unfold split1. change (u "=") with [61%N].
    change (u "out_time_ms=" ++ value) with (u "out_time_ms" ++ 61%N :: value).
    rewrite split_once_char_first; [reflexivity|].
    repeat (constructor; [discriminate|]). constructor.
  - destruct (is_progress_line line) eqn:Hprogress; [|reflexivity].
    destruct (startswith line (u "out_time_ms")) eqn:Hstart; [|reflexivity].
    exfalso. unfold is_progress_line in Hprogress.
    apply existsb_exists in Hprogress. destruct Hprogress as (key & Hin & Hkey).
    apply startswith_spec in Hkey. destruct Hkey as [rest ->].
    cbn [In] in Hin.
    repeat (destruct Hin as [<-|Hin];
            [vm_compute in Hstart; vm_compute in Hprefix; congruence|]).
    exact Hin.
Qed.

Section FfmpegProperties.

Variable py_int : pystr -> option Z.

(** What one line does to the variables of the loop, by the kind of the
    line. *)
Lemma progress_step_cases total_sec st line :
  progress_step py_int total_sec st line
  = match reported_seconds py_int line with
    | Some (Returned s) =>
        Returned
          {| errors_output := errors_output st;
             last_secs := py_min s total_sec;
             updates := updates st ++ [fsub (py_min s total_sec) (last_secs st)] |}
    | Some (Raised err) => Raised err
    | None =>
        if is_progress_line line then Returned st
        else Returned {| errors_output := errors_output st ++ line;
                         last_secs := last_secs st; updates := updates st |}
    end.
Proof.
  unfold progress_step, reported_seconds.
  pose proof (out_time_ms_split line) as Hcut.
  destruct (strip_prefix (u "out_time_ms=") line) as [value|] eqn:Hprefix.
  - rewrite Hcut. apply strip_prefix_spec in Hprefix. subst line.
    change (_is_ffmpeg_progress_line [u "out_time_ms"; value]) with true.
    change (startswith (u "out_time_ms=" ++ value) (u "out_time_ms")) with true.
    cbn [negb]. unfold parse_seconds. cbn [nth].
    destruct (py_int value) as [v|]; [|reflexivity].
    destruct (true_divide v 1000000); reflexivity.
  - rewrite is_progress_line_split.
    destruct (is_progress_line line); cbn [negb andb] in *; [|reflexivity].
    rewrite Hcut. reflexivity.
Qed.

Lemma reported_positions_cons c line rest :
  reported_positions py_int ((c :: line) :: rest)
  = match reported_seconds py_int (c :: line) with
    | Some (Returned s) =>
        match reported_positions py_int rest with
        | Returned l => Returned (s :: l)
        | Raised err => Raised err
        end
    | Some (Raised err) => Raised err
    | None => reported_positions py_int rest
    end.
Proof.
  unfold reported_positions.
  change (lines_read ((c :: line) :: rest)) with ((c :: line) :: lines_read rest).
  cbn [omap list_omap].
  destruct (reported_seconds py_int (c :: line)) as [[s|err]|]; reflexivity.
Qed.

Lemma non_progress_text_cons c line rest :
  non_progress_text ((c :: line) :: rest)
  = if is_progress_line (c :: line) then non_progress_text rest
    else (c :: line) ++ non_progress_text rest.
Proof.
  unfold non_progress_text.
  change (lines_read ((c :: line) :: rest)) with ((c :: line) :: lines_read rest).
  cbn [List.filter]. destruct (is_progress_line (c :: line)); reflexivity.
Qed.

Lemma reported_seconds_progress line r :
  reported_seconds py_int line = Some r -> is_progress_line line = true.
Proof.
  unfold reported_seconds.
  destruct (strip_prefix (u "out_time_ms=") line) as [value|] eqn:Hprefix;
    [|discriminate].
  intros _. apply strip_prefix_spec in Hprefix. subst line. reflexivity.
Qed.

(** The loop as a whole, when no position is out of range: the error text
    grows by the non-progress lines, the updates by the differences of the
    clamped positions. *)
Lemma progress_loop_spec total_sec lines :
  forall st positions,
    reported_positions py_int lines = Returned positions ->
    let clamped := List.map (fun s => py_min s total_sec) positions in
    exists final,
      progress_loop py_int total_sec lines st = (None, final)
      /\ errors_output final = errors_output st ++ non_progress_text lines
      /\ updates final = updates st ++ differences (last_secs st) clamped
      /\ last_secs final = List.last clamped (last_secs st).
Proof.
  induction lines as [|line rest IH]; intros st positions Hpos; cbv zeta.
  - injection Hpos as <-. exists st. simpl. rewrite !app_nil_r. auto.
  - destruct line as [|c line].
    + injection Hpos as <-. exists st. simpl. rewrite !app_nil_r. auto.
    + rewrite reported_positions_cons in Hpos.
      change (progress_loop py_int total_sec ((c :: line) :: rest) st)
        with (match progress_step py_int total_sec st (c :: line) with
              | Returned st1 => progress_loop py_int total_sec rest st1
              | Raised err => (Some err, st)
              end).
      rewrite progress_step_cases, non_progress_text_cons.
      destruct (reported_seconds py_int (c :: line)) as [[s|err]|] eqn:Hs;
        [| discriminate |].
      * rewrite (reported_seconds_progress _ _ Hs).
        destruct (reported_positions py_int rest) as [l|err] eqn:Hrest;
          [|discriminate].
        injection Hpos as <-.
        destruct (IH {| errors_output := errors_output st;
                        last_secs := py_min s total_sec;
                        updates := updates st
                                   ++ [fsub (py_min s total_sec) (last_secs st)] |}
                     l eq_refl)
          as (final & Hrun & He & Hu & Hl).
        exists final. cbv zeta in *.
        cbn [errors_output updates last_secs] in He, Hu, Hl.
        rewrite Hrun, He, Hu, Hl.
        cbn [List.map differences]. rewrite last_cons, <- app_assoc. auto.
      * destruct (is_progress_line (c :: line)).
        -- apply IH. exact Hpos.
        -- destruct (IH {| errors_output := errors_output st ++ c :: line;
                           last_secs := last_secs st; updates := updates st |}
                        positions Hpos)
             as (final & Hrun & He & Hu & Hl).
           exists final. cbv zeta in *.
           cbn [errors_output updates last_secs] in He, Hu, Hl.
           rewrite Hrun, He, Hu, Hl, <- app_assoc. auto.
Qed.


(** The run as a whole, when nothing is out of range. *)
Lemma ffmpeg_run_spec out_codec track_duration_ms run total_sec positions :
  true_divide track_duration_ms 1000 = Returned total_sec ->
  reported_positions py_int (stderr_lines run) = Returned positions ->
  let clamped := List.map (fun s => py_min s total_sec) positions in
  snd (_re_encode_ffmpeg py_int out_codec track_duration_ms run)
  = differences 0%Q clamped
  /\ fst (_re_encode_ffmpeg py_int out_codec track_duration_ms run)
     = if negb (returncode run =? 0) then
         Raised (SoundCloudException
                   (ffmpeg_error_message (returncode run)
                      (non_progress_text (stderr_lines run))))
       else if negb (_is_unsupported_codec_for_streaming out_codec)
       then Returned (delivered (stdout_reads run))
       else match temp_file run with
            | Some content => Returned content
            | None => Raised OSError
            end.
Proof.
  intros Htotal Hpos clamped. unfold _re_encode_ffmpeg. rewrite Htotal.
  destruct (progress_loop_spec total_sec (stderr_lines run) progress_start
              positions Hpos) as (final & Hrun & He & Hu & _).
  rewrite Hrun. cbn [errors_output updates last_secs progress_start app] in He, Hu.
  destruct (negb (returncode run =? 0));
    [|destruct (negb (_is_unsupported_codec_for_streaming out_codec));
      [|destruct (temp_file run)]];
    cbn [fst snd]; rewrite ?He; auto.
Qed.

End FfmpegProperties.

Lemma true_divide_raises a b err : true_divide a b = Raised err -> err = OverflowError.
Proof.
  unfold true_divide. destruct (round (a # b)); [discriminate|]. congruence.
Qed.


(** C2, as stated, fails: when the position 1.5 s is followed by the value
    [N/A], which [int] rejects, the observer is sent [-1.5]. *)
Lemma C2_counterexample :
  ~ Forall fnonneg (snd (_re_encode_ffmpeg int_ascii (u "mp3") 2000 run_regress)).
Proof.
  intros H. vm_compute in H.
  inversion H as [|d1 l1 _ Hrest]. inversion Hrest as [|d2 l2 Hneg _].
  apply Hneg. reflexivity.
Qed.

(** Nor is the sum of the updates bounded by the duration: each update is
    a rounded difference.  On a track of 900 ms, the positions 0.3 s and
    0.9 s are sent as [0.3] and [0.6000000000000001], and their sum, the
    exact one as well as the float, is above the float [0.9]. *)
Example sum_of_updates_exceeds_duration :
  exists total a b c,
    true_divide 900 1000 = Returned total
    /\ snd (_re_encode_ffmpeg int_ascii (u "mp3") 900 run_third) = [Real a; Real b]
    /\ (total < a + b)%Q
    /\ fadd a b = Real c /\ (total < c)%Q.
Proof.
  do 4 eexists. split; [vm_compute; reflexivity|].
  split; [vm_compute; reflexivity|].
  split; [reflexivity|]. split; [vm_compute; reflexivity|reflexivity].
Qed.

(** C2, amended: within one transcode operation, for every track duration
    and every sequence of diagnostic lines in which no division leaves the
    range of the floats, each [out_time_ms] line reports a position (the
    float nearest to its value over 1,000,000, or 0 when [int] rejects the
    value), the position is clamped to the duration in seconds, so that
    no position that is kept exceeds the duration, and the observer is
    sent the float difference between this clamped position and the one
    kept before.  An update is not negative when the clamped position did
    not go down, and not positive when it did not go up; all updates are
    non-negative when the duration is not negative and the reported
    positions never go down and do not start below 0. *)
Theorem C2_progress_deltas
    py_int out_codec track_duration_ms run total_sec positions :
  true_divide track_duration_ms 1000 = Returned total_sec ->
  reported_positions py_int (stderr_lines run) = Returned positions ->
  let deltas := snd (_re_encode_ffmpeg py_int out_codec track_duration_ms run) in
  let clamped := List.map (fun s => py_min s total_sec) positions in
  deltas = differences 0%Q clamped
  /\ Forall (fun p => (p <= total_sec)%Q) clamped
  /\ Forall2 (fun step d =>
                ((fst step <= snd step)%Q -> fnonneg d)
                /\ ((snd step <= fst step)%Q -> fnonpos d))
             (zip (0%Q :: clamped) clamped) deltas
  /\ (0 <= track_duration_ms -> ascending 0%Q positions -> Forall fnonneg deltas).
Proof.
  intros Htotal Hpos deltas clamped.
  assert (deltas = differences 0%Q clamped) as Hdeltas.
  { subst deltas.
    apply (ffmpeg_run_spec py_int out_codec track_duration_ms run total_sec
             positions Htotal Hpos). }
  rewrite Hdeltas.
  split; [reflexivity|]. split; [|split].
  - subst clamped. apply Forall_map. apply Forall_forall. intros p _.
    apply py_min_le_r.
  - apply differences_signs.
  - intros Hdur Hasc. apply differences_nonneg.
    pose proof (true_divide_nonneg _ _ _ Hdur Htotal) as Hnonneg.
    assert (py_min 0 total_sec = 0%Q) as H0.
    { unfold py_min. destruct (Qle_bool 0 total_sec) eqn:Hb; [reflexivity|].
      apply Qle_bool_iff in Hnonneg. congruence. }
    rewrite <- H0 at 1. apply ascending_clamp. exact Hasc.
Qed.

(** The scenario of the specification: positions 0.5 s and 1.5 s of a track
    of 2000 ms are sent as 0.5 and 1.0, both at most the 2 s of the track. *)
Lemma C2_progress_deltas_witness :
  snd (_re_encode_ffmpeg int_ascii (u "mp3") 2000 run_steady)
  = [Real (1 # 2); Real 1]
  /\ Forall fnonneg (snd (_re_encode_ffmpeg int_ascii (u "mp3") 2000 run_steady)).
Proof.
  destruct (C2_progress_deltas int_ascii (u "mp3") 2000 run_steady 2%Q
              [(1 # 2)%Q; (3 # 2)%Q] eq_refl eq_refl)
    as (Heq & _ & _ & Hpos).
  split.
  - rewrite Heq. reflexivity.
  - apply Hpos; [lia|]. cbn. repeat split; discriminate.
Defined.




(** ** ArchiveLedger: the membership check *)

Lemma files_lock_left path w :
  files (lock_left path w)
  = if bool_decide (path ∈ lockable w) then <[lock_path path := []]> (files w)
    else files w.
Proof. unfold lock_left. destruct (bool_decide (path ∈ lockable w)); reflexivity. Qed.

Lemma archives_lock_left path w : archives (lock_left path w) = archives w.
Proof. unfold lock_left. destruct (bool_decide (path ∈ lockable w)); reflexivity. Qed.

Lemma broken_lock_left path w : broken (lock_left path w) = broken w.
Proof. unfold lock_left. destruct (bool_decide (path ∈ lockable w)); reflexivity. Qed.

Lemma fileToKeep_lock_left path w : fileToKeep (lock_left path w) = fileToKeep w.
Proof. unfold lock_left. destruct (bool_decide (path ∈ lockable w)); reflexivity. Qed.

(** C10, as stated, fails: when the archive is out of reach (here its lock
    cannot be taken), the check on a ledger that does not exist returns
    [False] and creates nothing. *)
Lemma C10_counterexample :
  archives unreachable_world !! archive_path = None
  /\ in_download_archive 7 (with_archive default_kwargs) unreachable_world
     = (Returned (Some false), unreachable_world).
Proof. split; reflexivity. Qed.

(** C10, amended: with an archive configured, the membership check on a
    ledger that does not exist returns [False]; it leaves an empty ledger
    at the archive path when the lock can be taken and the file opened,
    and no ledger when not.  On every call each existing ledger keeps its
    text.  Of the other files the call touches one, the lock file of the
    archive, which it creates, or empties, whenever the lock can be
    taken. *)
Theorem C10_in_download_archive id kw archive w :
  kw_download_archive kw = Some archive ->
  let result := in_download_archive id kw w in
  (archives w !! archive = None ->
   fst result = Returned (Some false)
   /\ (archive ∉ broken w -> archives (snd result) !! archive = Some [])
   /\ (archive ∈ broken w -> archives (snd result) !! archive = None))
  /\ (forall path text,
         archives w !! path = Some text -> archives (snd result) !! path = Some text)
  /\ files (snd result)
     = (if bool_decide (archive ∈ broken w) && negb (bool_decide (archive ∈ lockable w))
        then files w
        else <[lock_path archive := []]> (files w)).
Proof.
  intros Hkw result. subst result. unfold in_download_archive. rewrite Hkw.
  destruct (bool_decide (archive ∈ broken w)) eqn:Hb.
  - apply bool_decide_eq_true in Hb. cbn [fst snd andb].
    rewrite archives_lock_left, files_lock_left. split; [|split].
    + intros Hnone. split; [reflexivity|]. split; [intros Hn; contradiction|].
      intros _. exact Hnone.
    + auto.
    + destruct (bool_decide (archive ∈ lockable w)); reflexivity.
  - apply bool_decide_eq_false in Hb.
    cbn [fst snd andb archives files set_archives take_lock set_files].
    unfold archive_text. split; [|split].
    + intros Hnone. rewrite Hnone. cbn [default].
      split; [reflexivity|]. split; [intros _; apply lookup_insert_eq|].
      intros Hin. contradiction.
    + intros path text Hpath. destruct (decide (archive = path)) as [->|Hne].
      * rewrite Hpath. cbn [default]. apply lookup_insert_eq.
      * rewrite lookup_insert_ne; assumption.
    + reflexivity.
Qed.

(** The check for track 7 in a world without any file. *)
Lemma C10_in_download_archive_witness :
  in_download_archive 7 (with_archive default_kwargs) empty_world
  = (Returned (Some false),
     take_lock archive_path (set_archives {[ archive_path := [] ]} empty_world)).
Proof.
  destruct (C10_in_download_archive 7 (with_archive default_kwargs) archive_path
              empty_world eq_refl) as (Hnew & _ & _).
  destruct (Hnew (lookup_empty _)) as [Hres _].
  destruct (in_download_archive 7 (with_archive default_kwargs) empty_world)
    as [o w1] eqn:Hcall.
  simpl in Hres. subst o. vm_compute in Hcall.
  injection Hcall as <-. vm_compute. reflexivity.
Defined.

(** ** DownloadOrchestrator: the test for an earlier download *)

(** The archive part of [already_downloaded]: whether the track is listed,
    and the world after the look. *)
Lemma in_download_archive_outcome id kw archive w :
  kw_download_archive kw = Some archive ->
  fst (in_download_archive id kw w) = Returned (Some (archived w id kw)).
Proof.
  intros Hkw. unfold in_download_archive, archived. rewrite Hkw.
  destruct (bool_decide (archive ∈ broken w)); reflexivity.
Qed.

(** No lock file has a name that [can_convert] accepts. *)
Lemma ext_scan_lock p :
  forall seen cur, ext_scan (p ++ u ".scdl.lock") seen cur = u ".lock".
Proof.
  induction p as [|c p IH]; intros seen cur.
  - destruct seen; reflexivity.
  - change ((c :: p) ++ u ".scdl.lock") with (c :: p ++ u ".scdl.lock").
    cbn [ext_scan].
    destruct (N.eqb c slash); [apply IH|].
    destruct (N.eqb c dot); [destruct seen; apply IH|apply IH].
Qed.

Lemma can_convert_lock p : can_convert (lock_path p) = false.
Proof. unfold can_convert, splitext_ext, lock_path. rewrite ext_scan_lock. reflexivity. Qed.

(** The files after the archive check: those from before, and the lock
    file of the archive when the lock was taken. *)
Lemma in_download_archive_files id kw w name :
  (forall archive, kw_download_archive kw = Some archive -> name <> lock_path archive) ->
  files (snd (in_download_archive id kw w)) !! name = files w !! name.
Proof.
  intros Hname. unfold in_download_archive.
  destruct (kw_download_archive kw) as [archive|]; [|reflexivity].
  specialize (Hname archive eq_refl).
  destruct (bool_decide (archive ∈ broken w)); cbn [snd].
  - rewrite files_lock_left. destruct (bool_decide (archive ∈ lockable w));
      [apply lookup_insert_ne; congruence|reflexivity].
  - cbn [files take_lock set_files set_archives]. apply lookup_insert_ne. congruence.
Qed.

Lemma isfile_after_check id kw w filename :
  can_convert filename = true ->
  bool_decide (is_Some (files (snd (in_download_archive id kw w)) !! filename))
  = bool_decide (is_Some (files w !! filename)).
Proof.
  intros Hconv. rewrite in_download_archive_files; [reflexivity|].
  intros archive _ ->. rewrite can_convert_lock in Hconv. discriminate.
Qed.

Lemma in_download_archive_returns id kw w :
  exists r, in_download_archive id kw w = (Returned r, snd (in_download_archive id kw w)).
Proof.
  unfold in_download_archive. destruct (kw_download_archive kw) as [archive|];
    [|eexists; reflexivity].
  destruct (bool_decide (archive ∈ broken w)); eexists; reflexivity.
Qed.

(** The decision of [already_downloaded] as one table. *)
Lemma already_downloaded_outcome id filename kw w :
  fst (already_downloaded id filename kw w)
  = if present w id filename kw
       && negb (awaiting_conversion w filename kw)
       && negb (kw_overwrite kw)
    then if kw_c kw || kw_remove kw || kw_force_metadata kw
         then Returned true
         else Raised (SystemExit 1)
    else Returned false.
Proof.
  unfold already_downloaded, present, awaiting_conversion, sibling_on_disk, on_disk.
  unfold bind, isfile, read, ret, sys_exit, raise.
  assert (kw_flac kw && can_convert filename = true ->
          bool_decide (is_Some (files (snd (in_download_archive id kw w)) !! filename))
          = bool_decide (is_Some (files w !! filename))) as Hsame
    by (intros Hflac; apply andb_true_iff in Hflac; apply isfile_after_check, Hflac).
  destruct (kw_download_archive kw) as [archive|] eqn:Hkw.
  - destruct (in_download_archive_returns id kw w) as [r Hr].
    pose proof (in_download_archive_outcome id kw archive w Hkw) as Ho.
    rewrite Hr in Ho. cbn [fst] in Ho. injection Ho as ->.
    destruct (kw_flac kw && can_convert filename) eqn:Hflac; cbn [andb];
      rewrite Hr; cbn [from_option]; unfold Datatypes.id;
      rewrite ?(Hsame eq_refl);
      destruct (bool_decide (is_Some (files w !! filename)));
      destruct (archived w id kw);
      try destruct (bool_decide (is_Some (files w !! flac_sibling filename)));
      destruct (kw_overwrite kw); cbn;
      destruct (kw_c kw), (kw_remove kw), (kw_force_metadata kw); reflexivity.
  - unfold archived. rewrite Hkw.
    destruct (kw_flac kw && can_convert filename) eqn:Hflac; cbn [andb];
      destruct (bool_decide (is_Some (files w !! filename)));
      try destruct (bool_decide (is_Some (files w !! flac_sibling filename)));
      destruct (kw_overwrite kw); cbn;
      destruct (kw_c kw), (kw_remove kw), (kw_force_metadata kw); reflexivity.
Qed.

(** An exit raised while the file is looked for leaves [download_track]
    as it is, whether or not [exit_on_fail] is set. *)
Lemma exit_leaves_download_track e t pl exit_on_fail kw w code w1 :
  acquire e t pl kw w = (Raised (SystemExit code), w1) ->
  download_track e t pl exit_on_fail kw w = (Raised (SystemExit code), w1).
Proof. intros Hacq. unfold download_track, bind. rewrite Hacq. reflexivity. Qed.

(** [song.mp3] is on disk and no option was given: the track is not
    skipped, the run ends, even when failures of a track are not to end
    it. *)
Example hard_stop_example :
  fst (download_track sample_env (sample_track 123 "Song") None false
         default_kwargs world_with_song)
  = Raised (SystemExit 1).
Proof. vm_compute. reflexivity. Qed.

(** C4, as stated, fails: with [--overwrite], one of the four options, a
    target file that exists is not reported as already downloaded. *)
Lemma C4_counterexample :
  on_disk world_with_song (u "song.mp3") = true
  /\ kw_overwrite (with_overwrite default_kwargs) = true
  /\ fst (already_downloaded 123 (u "song.mp3") (with_overwrite default_kwargs)
            world_with_song)
     = Returned false.
Proof. vm_compute. auto. Qed.

(** C4, amended: for every track that is present (its target file is on
    disk, or in [--flac] mode the [.flac] sibling of a convertible target
    is, or its ID is a line of the configured archive), unless overwrite
    was requested or the target is a file on disk that [--flac] mode can
    still convert: if none of continue, remove and force-metadata was
    requested, [already_downloaded] ends with [sys.exit(1)], which
    [download_track] does not catch (a stop of the whole invocation); if
    one of the three was requested, it returns [True].  With overwrite, or
    for a file still to be converted, it returns [False]: the track is not
    reported as downloaded and is fetched again. *)
Theorem C4_already_downloaded id filename kw w :
  present w id filename kw = true ->
  let outcome := fst (already_downloaded id filename kw w) in
  (kw_overwrite kw = false ->
   awaiting_conversion w filename kw = false ->
   (kw_c kw = false -> kw_remove kw = false -> kw_force_metadata kw = false ->
    outcome = Raised (SystemExit 1)
    /\ caught_by_download_track (SystemExit 1) = false)
   /\ (kw_c kw = true \/ kw_remove kw = true \/ kw_force_metadata kw = true ->
       outcome = Returned true))
  /\ (kw_overwrite kw = true \/ awaiting_conversion w filename kw = true ->
      outcome = Returned false).
Proof.
  intros Hpresent outcome. subst outcome.
  rewrite already_downloaded_outcome, Hpresent. split.
  - intros -> ->. cbn [negb andb]. split.
    + intros -> -> ->. split; reflexivity.
    + intros [->|[->| ->]]; rewrite ?orb_true_r; reflexivity.
  - intros [->| ->]; cbn [negb andb]; rewrite ?andb_false_r; reflexivity.
Qed.

(** [song.mp3] is on disk: without options the run stops, with [-c] the
    file is reported as downloaded. *)
Lemma C4_already_downloaded_witness :
  present world_with_song 123 (u "song.mp3") default_kwargs = true
  /\ fst (already_downloaded 123 (u "song.mp3") default_kwargs world_with_song)
     = Raised (SystemExit 1)
  /\ fst (already_downloaded 123 (u "song.mp3") (with_continue default_kwargs)
            world_with_song)
     = Returned true.
Proof.
  assert (present world_with_song 123 (u "song.mp3") default_kwargs = true) as Hp
    by (vm_compute; reflexivity).
  split; [exact Hp|]. split.
  - destruct (C4_already_downloaded 123 (u "song.mp3") default_kwargs
                world_with_song Hp) as [Hstop _].
    destruct (Hstop eq_refl eq_refl) as [Hexit _].
    apply (Hexit eq_refl eq_refl eq_refl).
  - destruct (C4_already_downloaded 123 (u "song.mp3") (with_continue default_kwargs)
                world_with_song Hp) as [Hstop _].
    destruct (Hstop eq_refl eq_refl) as [_ Hreport].
    apply Hreport. left. reflexivity.
Defined.

(** ** ArchiveLedger: [sync] *)

Lemma elem_of_ids_filter (A : gset Z) (tracks : list track) x :
  x ∈ (list_to_set (map track_id (filter (fun t => track_id t ∈ A) tracks)) : gset Z)
  <-> x ∈ A /\ x ∈ (list_to_set (map track_id tracks) : gset Z).
Proof.
  rewrite !elem_of_list_to_set, !list_elem_of_In, !in_map_iff. split.
  - intros (t & <- & Ht). apply list_elem_of_In, list_elem_of_filter in Ht.
    destruct Ht as [HA Ht]. split; [exact HA|]. exists t. split; [reflexivity|].
    apply list_elem_of_In. exact Ht.
  - intros (HA & t & <- & Ht). exists t. split; [reflexivity|].
    apply list_elem_of_In, list_elem_of_filter. split; [exact HA|].
    apply list_elem_of_In. exact Ht.
Qed.

Lemma differences_of_equal_sets (A B : gset Z) :
  A = B -> B ∖ A = ∅ /\ A ∖ B = ∅.
Proof.
  intros ->. split; apply set_eq; intros x; rewrite elem_of_difference, elem_of_empty;
    tauto.
Qed.

Section SyncProperties.

Variable py_int : pystr -> option Z.
Variable filename_of : Z -> pystr -> pystr.

(** [sync] once the lock is taken and the archive has been read. *)
Lemma sync_after_read tracks kw archive w text old :
  kw_sync kw = Some archive ->
  archive ∉ broken w ->
  archives w !! archive = Some text ->
  read_ids py_int text = Some old ->
  sync py_int filename_of tracks kw w
  = let w0 := take_lock archive w in
    let add := sync_add old tracks in
    let rem := sync_rem old tracks in
    if bool_decide (add = ∅) && bool_decide (rem = ∅)
    then (Raised (SystemExit 0), w0)
    else
      let w1 :=
        if bool_decide (rem = ∅) then w0
        else
          set_archives
            (<[archive := ledger_text (filter (fun id => id ∉ rem) old)]> (archives w0))
            (set_files (remove_tracks filename_of (elements rem) (files w0)) w0) in
      if bool_decide (add = ∅) then (Raised (SystemExit 0), w1)
      else (Returned (filter (fun t => track_id t ∈ add) tracks), w1).
Proof.
  intros Hkw Hok Htext Hold. unfold sync. rewrite Hkw.
  rewrite (bool_decide_eq_false_2 _ Hok). cbv zeta.
  change (archives (take_lock archive w)) with (archives w).
  rewrite Htext, Hold. reflexivity.
Qed.

(** An archive never reads as the empty list of IDs. *)
Lemma read_ids_nonempty text old : read_ids py_int text = Some old -> old <> [].
Proof.
  unfold read_ids.
  assert (forall s cur, split_newline cur s <> []) as Hparts.
  { induction s as [|c s IH]; intros cur; cbn [split_newline]; [discriminate|].
    destruct (N.eqb c newline); [discriminate|apply IH]. }
  specialize (Hparts (strip text) []).
  destruct (split_newline [] (strip text)) as [|part parts]; [contradiction|].
  cbn [parse_ids]. destruct (py_int part); [|discriminate].
  destruct (parse_ids py_int parts); [|discriminate].
  intros [= <-]. discriminate.
Qed.

End SyncProperties.

(** The text written by the rewrite loop: each ID in decimal, followed by a
    newline. *)
Lemma ledger_text_lines ids :
  ledger_text ids = flat_map (fun id => str_of_Z id ++ [newline]) ids.
Proof.
  induction ids as [|id ids IH]; [reflexivity|].
  cbn [ledger_text flat_map]. rewrite IH, <- app_assoc. reflexivity.
Qed.

(** C5, as stated, fails: for an archive without IDs ([known] empty) and an
    empty playlist, the two sets are the same, yet [sync] does not signal
    that nothing changed: [int('')] raises [ValueError], and [sync] ends
    with [sys.exit(1)], the exit status of an error. *)
Lemma C5_counterexample :
  archives world_empty_archive !! archive_path = Some []
  /\ sync int_ascii name_by_id [] (with_sync default_kwargs) world_empty_archive
     = (Raised (SystemExit 1), take_lock archive_path world_empty_archive).
Proof. split; [reflexivity|vm_compute; reflexivity]. Qed.

(** C5, amended: on an archive within reach that lists the IDs [known], at
    least one, and a playlist with the IDs [current], [sync] returns the
    tracks of the playlist whose IDs are in [current - known] and takes
    those in [known - current] out of the archive: when both differences
    are empty, and so whenever the two sets are the same, it ends with
    [sys.exit(0)] (no changes, exit status 0), having touched nothing but
    the lock file of the archive; when IDs are to be removed, the archive
    is rewritten to hold the IDs of [known] that are not removed, in their
    old order, each in decimal on a line of its own; when none is, the
    archive and every other file but the lock file stay as they were. *)
Theorem C5_sync py_int filename_of tracks kw archive w text old :
  kw_sync kw = Some archive ->
  archive ∉ broken w ->
  archives w !! archive = Some text ->
  read_ids py_int text = Some old ->
  let known : gset Z := list_to_set old in
  let current : gset Z := list_to_set (map track_id tracks) in
  let to_add := current ∖ known in
  let to_remove := known ∖ current in
  let result := sync py_int filename_of tracks kw w in
  (to_add = ∅ -> to_remove = ∅ ->
   result = (Raised (SystemExit 0), take_lock archive w))
  /\ (known = current -> result = (Raised (SystemExit 0), take_lock archive w))
  /\ (to_add <> ∅ ->
      exists todo,
        fst result = Returned todo
        /\ todo = filter (fun t => track_id t ∈ to_add) tracks
        /\ (list_to_set (map track_id todo) : gset Z) = to_add)
  /\ (to_add = ∅ -> fst result = Raised (SystemExit 0))
  /\ (to_remove <> ∅ ->
      exists ids,
        archives (snd result) !! archive
        = Some (flat_map (fun id => str_of_Z id ++ [newline]) ids)
        /\ ids = filter (fun id => id ∉ to_remove) old
        /\ (list_to_set ids : gset Z) = known ∖ to_remove)
  /\ (to_remove = ∅ -> snd result = take_lock archive w).
Proof.
  intros Hkw Hok Htext Hold known current to_add to_remove result.
  subst result. rewrite (sync_after_read _ _ _ _ _ _ _ _ Hkw Hok Htext Hold).
  change (sync_add old tracks) with to_add.
  change (sync_rem old tracks) with to_remove.
  cbv zeta.
  assert (known = current -> to_add = ∅ /\ to_remove = ∅) as Hsame
    by (intros Heq; apply (differences_of_equal_sets _ _ Heq)).
  assert ((list_to_set (map track_id (filter (fun t => track_id t ∈ to_add) tracks))
           : gset Z) = to_add) as Htodo.
  { apply set_eq. intros x. rewrite elem_of_ids_filter.
    unfold to_add. rewrite elem_of_difference. tauto. }
  assert ((list_to_set (filter (fun id => id ∉ to_remove) old) : gset Z)
          = known ∖ to_remove) as Hkept.
  { apply set_eq. intros x.
    rewrite elem_of_list_to_set, list_elem_of_filter, elem_of_difference.
    unfold known. rewrite elem_of_list_to_set. tauto. }
  destruct (decide (to_add = ∅)) as [Ha|Ha], (decide (to_remove = ∅)) as [Hr|Hr];
    rewrite ?(bool_decide_eq_true_2 _ Ha), ?(bool_decide_eq_false_2 _ Ha),
      ?(bool_decide_eq_true_2 _ Hr), ?(bool_decide_eq_false_2 _ Hr);
    cbn [andb fst snd archives set_archives];
    repeat split;
    try reflexivity; try (intros; reflexivity); try (intros; contradiction);
    try (intros Heq; destruct (Hsame Heq); contradiction).
  - intros _. eexists. rewrite <- ledger_text_lines.
    split; [apply lookup_insert_eq|]. split; [reflexivity|exact Hkept].
  - intros _. eexists. split; [reflexivity|]. split; [reflexivity|exact Htodo].
  - intros _. eexists. split; [reflexivity|]. split; [reflexivity|exact Htodo].
  - intros _. eexists. rewrite <- ledger_text_lines.
    split; [apply lookup_insert_eq|]. split; [reflexivity|exact Hkept].
Qed.

(** The example of the specification: known = {1,2,3} and current =
    {2,3,4} give the track 4 to download and the ID 1 to remove; the
    archive is left with the lines of 2 and 3.  With the playlist {1,2,3}
    itself there is nothing to do. *)
Lemma C5_sync_witness :
  (exists todo,
      fst (sync int_ascii name_by_id playlist_234 (with_sync default_kwargs) world_123)
      = Returned todo
      /\ (list_to_set (map track_id todo) : gset Z) = {[4]})
  /\ archives (snd (sync int_ascii name_by_id playlist_234
                      (with_sync default_kwargs) world_123)) !! archive_path
     = Some (line_feed "2" ++ line_feed "3")
  /\ sync int_ascii name_by_id playlist_123 (with_sync default_kwargs) world_123
     = (Raised (SystemExit 0), take_lock archive_path world_123).
Proof.
  assert (archive_path ∉ broken world_123) as Hok by apply not_elem_of_empty.
  destruct (C5_sync int_ascii name_by_id playlist_234 (with_sync default_kwargs)
              archive_path world_123
              (line_feed "1" ++ line_feed "2" ++ line_feed "3") [1; 2; 3]
              eq_refl Hok eq_refl eq_refl)
    as (_ & _ & Hadd & _ & Hrem & _).
  destruct (C5_sync int_ascii name_by_id playlist_123 (with_sync default_kwargs)
              archive_path world_123
              (line_feed "1" ++ line_feed "2" ++ line_feed "3") [1; 2; 3]
              eq_refl Hok eq_refl eq_refl)
    as (_ & Hsame & _).
  split; [|split].
  - destruct Hadd as (todo & Hres & _ & Hset).
    + intros H. apply (f_equal elements) in H. vm_compute in H. discriminate.
    + exists todo. split; [exact Hres|]. rewrite Hset. vm_compute. reflexivity.
  - destruct Hrem as (ids & Hres & -> & _).
    + intros H. apply (f_equal elements) in H. vm_compute in H. discriminate.
    + rewrite Hres. vm_compute. reflexivity.
  - apply Hsame. reflexivity.
Defined.

(** The two differences of the example, and the world it leaves: the file
    of track 1 is gone, and the lock file of the archive is there. *)
Example sync_example_sets :
  sync_add [1; 2; 3] playlist_234 = {[4]}
  /\ sync_rem [1; 2; 3] playlist_234 = {[1]}
  /\ snd (sync int_ascii name_by_id playlist_234 (with_sync default_kwargs) world_123)
     = {| files := {[ lock_path archive_path := [] ]};
          archives := {[ archive_path := line_feed "2" ++ line_feed "3" ]};
          broken := ∅; lockable := ∅; fileToKeep := [] |}.
Proof. vm_compute. auto. Qed.

(** ** MetadataAssembler: artwork *)

Lemma existsb_str_eqb x l : existsb (str_eqb x) l = true <-> In x l.
Proof.
  rewrite existsb_exists. unfold str_eqb. split.
  - intros (y & Hy & Heq). apply bool_decide_eq_true in Heq. subst. exact Hy.
  - intros Hx. exists x. split; [exact Hx|]. apply bool_decide_eq_true. reflexivity.
Qed.

Lemma _try_get_artwork_some http_get url size r :
  _try_get_artwork http_get url size = Some r
  <-> http_get (replace (u "large") size url) = Answered r
      /\ status_code r = 200
      /\ In (lower (default [] (content_type r))) artwork_types.
Proof.
  unfold _try_get_artwork.
  destruct (http_get (replace (u "large") size url)) as [a|].
  - destruct (Z.eqb_spec (status_code a) 200) as [Hs|Hs]; cbn [negb].
    + destruct (existsb (str_eqb (lower (default [] (content_type a)))) artwork_types)
        eqn:Ht; cbn [negb].
      * apply existsb_str_eqb in Ht. split.
        -- intros [= ->]. auto.
        -- intros ([= ->] & _ & _). reflexivity.
      * split; [discriminate|]. intros ([= ->] & _ & Hin).
        apply existsb_str_eqb in Hin. congruence.
    + split; [discriminate|]. intros ([= ->] & Hcode & _). contradiction.
  - split; [discriminate|]. intros (Hn & _). discriminate.
Qed.

(** C7, as stated, fails: a response with status 200 whose content type is
    [image/jpg], which is neither [image/png] nor [image/jpeg], yields
    artwork. *)
Lemma C7_counterexample :
  _try_get_artwork http_jpg (u "https://i1.sndcdn.com/artworks-large.jpg") (u "t500x500")
  = Some jpg_response
  /\ content_type jpg_response <> Some (u "image/png")
  /\ content_type jpg_response <> Some (u "image/jpeg").
Proof. split; [reflexivity|split; discriminate]. Qed.

(** C7, amended: in every metadata-assembly run the original-resolution
    artwork URL is asked for first only if original-art was requested;
    otherwise, or when that attempt yields nothing, the 500x500 one is;
    an attempt yields artwork exactly when the request is answered with
    status 200 and the content type, in lower case, is [image/png],
    [image/jpeg] or [image/jpg]; and when the attempts yield nothing the
    metadata carries no artwork and is written all the same. *)
Theorem C7_artwork http_get dashes assembler t pl kw stream :
  let base := artwork_base_url t in
  let original := _try_get_artwork http_get base (u "original") in
  let fixed := _try_get_artwork http_get base (u "t500x500") in
  let metadata := snd (build_metadata http_get dashes t pl kw) in
  (forall url size r,
      _try_get_artwork http_get url size = Some r
      <-> http_get (replace (u "large") size url) = Answered r
          /\ status_code r = 200
          /\ In (lower (default [] (content_type r)))
               [u "image/png"; u "image/jpeg"; u "image/jpg"])
  /\ (kw_original_art kw = false -> get_artwork http_get t kw = fixed)
  /\ (kw_original_art kw = true ->
      get_artwork http_get t kw
      = match original with
        | Some r => Some r
        | None => fixed
        end)
  /\ artwork_jpeg metadata = option_map content (get_artwork http_get t kw)
  /\ (get_artwork http_get t kw = None ->
      artwork_jpeg metadata = None
      /\ forall handler,
          assembler stream = Some handler ->
          snd (_add_metadata_to_stream http_get dashes assembler t stream pl kw)
          = handler metadata).
Proof.
  intros base original fixed metadata.
  assert (artwork_jpeg metadata = option_map content (get_artwork http_get t kw))
    as Hart.
  { subst metadata. unfold build_metadata.
    destruct (if kw_extract_artist kw
              then extract_artist dashes (username t) (track_title t)
              else (username t, track_title t)); reflexivity. }
  split; [intros url size r; apply _try_get_artwork_some|].
  split; [intros Hno; unfold get_artwork; rewrite Hno; reflexivity|].
  split; [intros Hyes; unfold get_artwork; rewrite Hyes; reflexivity|].
  split; [exact Hart|].
  intros Hnone. split; [rewrite Hart, Hnone; reflexivity|].
  intros handler Hhandler. unfold _add_metadata_to_stream. subst metadata.
  destruct (build_metadata http_get dashes t pl kw) as [t1 m].
  rewrite Hhandler. reflexivity.
Qed.

(** Without pictures on the server, the metadata has no artwork and the
    handler still runs. *)
Lemma C7_artwork_witness :
  get_artwork http_404 (sample_track 4 "four") default_kwargs = None
  /\ artwork_jpeg (snd (build_metadata http_404 dash_set (sample_track 4 "four")
                          None default_kwargs)) = None
  /\ snd (_add_metadata_to_stream http_404 dash_set plain_assembler
            (sample_track 4 "four") three_bytes None default_kwargs)
     = three_bytes.
Proof.
  assert (get_artwork http_404 (sample_track 4 "four") default_kwargs = None) as Hnone
    by reflexivity.
  destruct (C7_artwork http_404 dash_set plain_assembler (sample_track 4 "four")
              None default_kwargs three_bytes) as (_ & _ & _ & _ & Hlast).
  destruct (Hlast Hnone) as [Hart Hwritten].
  split; [exact Hnone|]. split; [exact Hart|].
  apply (Hwritten (fun _ => three_bytes)). reflexivity.
Defined.

(** ** MetadataAssembler: artist and title *)

Lemma extract_artist_absent dashes username title :
  (forall d, In d dashes -> contains d title = false) ->
  extract_artist dashes username title = (username, title).
Proof.
  induction dashes as [|d dashes IH]; intros Habsent; [reflexivity|].
  simpl. pose proof (Habsent d (or_introl eq_refl)) as Hd. unfold contains in Hd.
  destruct (split_once d title); [discriminate|].
  apply IH. intros d' Hd'. apply Habsent. right. exact Hd'.
Qed.

Lemma extract_artist_first before :
  forall d after username title l r,
    (forall d', In d' before -> contains d' title = false) ->
    split_once d title = Some (l, r) ->
    extract_artist (before ++ d :: after) username title = (strip l, strip r).
Proof.
  induction before as [|b before IH]; intros d after username title l r Habsent Hsplit.
  - simpl. rewrite Hsplit. reflexivity.
  - simpl. pose proof (Habsent b (or_introl eq_refl)) as Hb. unfold contains in Hb.
    destruct (split_once b title); [discriminate|].
    apply IH; [|exact Hsplit]. intros d' Hd'. apply Habsent. right. exact Hd'.
Qed.

(** C8, as stated, fails: the title [Artist-Song] contains the plain
    hyphen, one of the dash-like glyphs, and yet the title is left as it
    is and the user name stays the artist. *)
Lemma C8_counterexample :
  In 45%N spec_dash_glyphs
  /\ In 45%N (u "Artist-Song")
  /\ extract_artist dash_set (u "uploader") (u "Artist-Song")
     = (u "uploader", u "Artist-Song").
Proof. vm_compute. tauto. Qed.

(** C8, amended: the separators are the five dash-like glyphs (hyphen,
    U+2212, U+2013, U+2014, U+2015) each with a space before and after it.
    With artist extraction enabled, in whatever order the set of separators
    is gone through: if the title contains none of them, the title is left
    unchanged and the user name is kept as artist; otherwise, for the first
    separator in that order that the title contains, the text left of its
    leftmost occurrence becomes the artist and all the text right of it the
    title, both trimmed, so that only one cut is made however often
    separators occur. *)
Theorem C8_artist_extraction http_get dashes t pl kw :
  kw_extract_artist kw = true ->
  Permutation dashes dash_set ->
  let metadata := snd (build_metadata http_get dashes t pl kw) in
  ((forall d, In d dash_set -> contains d (track_title t) = false) ->
   artist metadata = username t /\ title metadata = track_title t)
  /\ (forall before d after,
         dashes = before ++ d :: after ->
         (forall d', In d' before -> contains d' (track_title t) = false) ->
         contains d (track_title t) = true ->
         exists l r,
           track_title t = l ++ d ++ r
           /\ (forall l' r', track_title t = l' ++ d ++ r' -> (length l <= length l')%nat)
           /\ artist metadata = strip l
           /\ title metadata = strip r).
Proof.
  intros Hon Hperm metadata.
  assert (artist metadata = fst (extract_artist dashes (username t) (track_title t))
          /\ title metadata = snd (extract_artist dashes (username t) (track_title t)))
    as [Hartist Htitle].
  { subst metadata. unfold build_metadata. rewrite Hon.
    destruct (extract_artist dashes (username t) (track_title t)). split; reflexivity. }
  rewrite Hartist, Htitle. split.
  - intros Habsent. rewrite extract_artist_absent; [split; reflexivity|].
    intros d Hd. apply Habsent. eapply Permutation_in; eassumption.
  - intros before d after Hdashes Habsent Hd. unfold contains in Hd.
    destruct (split_once d (track_title t)) as [[l r]|] eqn:Hsplit; [|discriminate].
    exists l, r. split; [apply split_once_parts; exact Hsplit|]. split.
    + intros l' r' Hs. eapply split_once_leftmost; eassumption.
    + rewrite Hdashes, (extract_artist_first before d after _ _ l r Habsent Hsplit).
      split; reflexivity.
Qed.

(** The example of the specification, with a second separator further on:
    the title [Artist - Song Name - Live] is cut once, at its first
    [ - ]. *)
Lemma C8_artist_extraction_witness :
  kw_extract_artist (with_extract_artist default_kwargs) = true
  /\ Permutation dash_set dash_set
  /\ exists l r,
      u "Artist - Song Name - Live" = l ++ [32; 45; 32]%N ++ r
      /\ artist (snd (build_metadata http_404 dash_set
                        (sample_track 5 "Artist - Song Name - Live") None
                        (with_extract_artist default_kwargs)))
         = strip l
      /\ title (snd (build_metadata http_404 dash_set
                       (sample_track 5 "Artist - Song Name - Live") None
                       (with_extract_artist default_kwargs)))
         = strip r.
Proof.
  assert (Permutation dash_set dash_set) as Hperm by apply Permutation_refl.
  destruct (C8_artist_extraction http_404 dash_set
              (sample_track 5 "Artist - Song Name - Live") None
              (with_extract_artist default_kwargs) eq_refl Hperm) as [_ Hfirst].
  destruct (Hfirst [] [32; 45; 32]%N (tl dash_set) eq_refl)
    as (l & r & Hcut & _ & Ha & Ht).
  - intros d' [].
  - reflexivity.
  - split; [reflexivity|]. split; [exact Hperm|].
    exists l, r. split; [exact Hcut|]. split; [exact Ha|exact Ht].
Defined.

(** What the example comes to. *)
Example artist_extraction_example :
  extract_artist dash_set (u "uploader") (u "Artist - Song Name")
  = (u "Artist", u "Song Name")
  /\ extract_artist dash_set (u "uploader") (u "Artist - Song Name - Live")
     = (u "Artist", u "Song Name - Live")
  /\ extract_artist dash_set (u "uploader") (u "No separator here")
     = (u "uploader", u "No separator here").
Proof. vm_compute. auto. Qed.

(** With two different separators in the title, the cut depends on the
    order in which the set is gone through. *)
Example artist_extraction_order :
  extract_artist [[32; 45; 32]; [32; 8211; 32]]%N (u "uploader")
    (u "A - B" ++ [32; 8211; 32]%N ++ u "C")
  = (u "A", u "B" ++ [32; 8211; 32]%N ++ u "C")
  /\ extract_artist [[32; 8211; 32]; [32; 45; 32]]%N (u "uploader")
       (u "A - B" ++ [32; 8211; 32]%N ++ u "C")
     = (u "A - B", u "C").
Proof. vm_compute. auto. Qed.

(** ** DownloadOrchestrator and the archive *)

Lemma same_ledgers_refl w : same_ledgers w w.
Proof. split; reflexivity. Qed.

Lemma same_ledgers_trans w w1 w2 :
  same_ledgers w w1 -> same_ledgers w1 w2 -> same_ledgers w w2.
Proof.
  intros [Hb1 Ha1] [Hb2 Ha2]. split; [congruence|].
  intros path. rewrite Ha2. apply Ha1.
Qed.

Lemma keeps_ret {A} (a : A) : keeps (ret a).
Proof. intros w. apply same_ledgers_refl. Qed.

Lemma keeps_raise {A} (e : exn) : keeps (raise (A := A) e).
Proof. intros w. apply same_ledgers_refl. Qed.

Lemma keeps_lift {A} (o : outcome A) : keeps (lift o).
Proof. intros w. apply same_ledgers_refl. Qed.

Lemma keeps_read {A} (f : world -> A) : keeps (read f).
Proof. intros w. apply same_ledgers_refl. Qed.

Lemma keeps_bind {A B} (c : M A) (k : A -> M B) :
  keeps c -> (forall a, keeps (k a)) -> keeps (bind c k).
Proof.
  intros Hc Hk w. unfold bind. specialize (Hc w).
  destruct (c w) as [[a|e] w1]; cbn [snd] in *; [|exact Hc].
  eapply same_ledgers_trans; [exact Hc|apply Hk].
Qed.

Lemma keeps_modify (f : world -> world) :
  (forall w, archives (f w) = archives w /\ broken (f w) = broken w) ->
  keeps (modify f).
Proof.
  intros Hf w. destruct (Hf w) as [Ha Hb]. split; [exact Hb|].
  intros path. unfold archive_text. cbn [snd modify]. rewrite Ha. reflexivity.
Qed.

Lemma keeps_in_download_archive id kw : keeps (in_download_archive id kw).
Proof.
  intros w. unfold in_download_archive.
  destruct (kw_download_archive kw) as [archive|]; [|apply same_ledgers_refl].
  destruct (bool_decide (archive ∈ broken w)).
  { split; cbn [snd]; [apply broken_lock_left|].
    intros path. unfold archive_text. rewrite archives_lock_left. reflexivity. }
  split; [reflexivity|]. intros path. cbn [snd]. unfold archive_text.
  cbn [archives set_archives take_lock set_files].
  destruct (decide (archive = path)) as [->|Hne].
  - rewrite lookup_insert_eq. reflexivity.
  - rewrite lookup_insert_ne by exact Hne. reflexivity.
Qed.

Ltac keeps_step :=
  first
    [ apply keeps_ret | apply keeps_raise | apply keeps_lift | apply keeps_read
    | apply keeps_in_download_archive
    | apply keeps_modify; intros ?; split; reflexivity
    | apply keeps_bind; [|intros ?]
    | match goal with
      | |- keeps (if ?b then _ else _) => destruct b
      | |- keeps (match ?x with _ => _ end) => destruct x
      end ].

Lemma keeps_already_downloaded id filename kw : keeps (already_downloaded id filename kw).
Proof. unfold already_downloaded, isfile, sys_exit. repeat keeps_step. Qed.

Lemma keeps_re_encode_to_out e t d out_codec filename pl skip kw :
  keeps (re_encode_to_out e t d out_codec filename pl skip kw).
Proof. unfold re_encode_to_out. repeat keeps_step. Qed.

Ltac keeps_call :=
  first [ apply keeps_already_downloaded | apply keeps_re_encode_to_out | keeps_step ].

Lemma keeps_download_original_file e t kw : keeps (download_original_file e t kw).
Proof.
  unfold download_original_file. cbv zeta.
  destruct (original e); repeat keeps_call.
Qed.

Lemma keeps_download_hls e t pl kw : keeps (download_hls e t pl kw).
Proof.
  unfold download_hls. cbv zeta.
  destruct (transcodings t); [keeps_step|].
  destruct (choose_preset _ _) as [[[preset_name ext] tr]|]; [|keeps_step].
  repeat keeps_call.
Qed.

Lemma keeps_with_lock {A} id free (body : M A) :
  keeps body -> keeps (with_lock id free body).
Proof. intros Hbody. unfold with_lock. destruct free; repeat keeps_step. exact Hbody. Qed.

Lemma keeps_acquire e t pl kw : keeps (acquire e t pl kw).
Proof.
  unfold acquire. cbv zeta. destruct (str_eqb (policy t) (u "BLOCK")); [keeps_step|].
  apply keeps_bind.
  - destruct (_ && auth_token e); [|keeps_step].
    apply keeps_with_lock, keeps_download_original_file.
  - intros [[[filename|] already]|];
      repeat first [apply keeps_with_lock, keeps_download_hls | keeps_step].
Qed.

(** [finalize] adds the line of the track to the archive, whatever comes
    after the recording. *)
Lemma finalize_appends e t pl kw filename already archive w :
  kw_download_archive kw = Some archive ->
  archive ∉ broken w ->
  archive_text (snd (finalize e t pl kw filename already w)) archive
  = archive_text w archive ++ str_of_Z (track_id t) ++ [newline].
Proof.
  intros Hkw Hok.
  unfold finalize, bind, modify, ret, raise, isfile, read, record_download_archive.
  rewrite Hkw.
  destruct (kw_remove kw); cbn [broken set_fileToKeep];
    rewrite (bool_decide_eq_false_2 _ Hok);
    repeat match goal with
           | |- context [if ?b then _ else _] => destruct b
           | |- context [match files ?w !! ?f with _ => _ end] => destruct (files w !! f)
           end;
    cbn [snd]; unfold archive_text;
    cbn [archives set_archives set_files set_fileToKeep take_lock];
    rewrite lookup_insert_eq; reflexivity.
Qed.

(** What [download_track] leaves is what its body leaves. *)
Lemma download_track_world e t pl exit_on_fail kw w filename already w1 :
  acquire e t pl kw w = (Returned (Some (filename, already)), w1) ->
  snd (download_track e t pl exit_on_fail kw w)
  = snd (finalize e t pl kw filename already w1).
Proof.
  intros Hacq. unfold download_track, bind. rewrite Hacq.
  destruct (finalize e t pl kw filename already w1) as [[[]|err] w2];
    [reflexivity|].
  destruct (caught_by_download_track err), exit_on_fail; reflexivity.
Qed.

(** The characters of [str(n)] are digits or the minus sign; none is white
    space. *)
Lemma string_of_uint_no_space d :
  Forall (fun c => is_space c = false)
    (u (DecimalString.NilEmpty.string_of_uint d)).
Proof. induction d; simpl; constructor; try reflexivity; assumption. Qed.

Lemma str_of_Z_no_space n : Forall (fun c => is_space c = false) (str_of_Z n).
Proof.
  unfold str_of_Z, DecimalString.NilZero.string_of_int,
    DecimalString.NilZero.string_of_uint.
  destruct (Z.to_int n) as [d|d]; destruct d;
    repeat (constructor; try reflexivity);
    apply (string_of_uint_no_space d).
Qed.

Lemma lstrip_no_space s : Forall (fun c => is_space c = false) s -> lstrip s = s.
Proof. intros H. destruct H as [|c s Hc _]; [reflexivity|]. simpl. rewrite Hc. reflexivity. Qed.

Lemma strip_line s :
  Forall (fun c => is_space c = false) s -> strip (s ++ [newline]) = s.
Proof.
  intros H. unfold strip, rstrip.
  assert (rev (lstrip (rev (s ++ [newline]))) = s) as Hr.
  { rewrite rev_app_distr. simpl. rewrite lstrip_no_space; [apply rev_involutive|].
    apply Forall_rev. exact H. }
  destruct H as [|c s Hc Hs]; [reflexivity|].
  change ((c :: s) ++ [newline]) with (c :: s ++ [newline]).
  cbn [lstrip]. rewrite Hc. exact Hr.
Qed.

Lemma lines_from_line s :
  forall cur,
    Forall (fun c => is_space c = false) s ->
    lines_from cur (s ++ [newline]) = [cur ++ s ++ [newline]].
Proof.
  induction s as [|c s IH]; intros cur H; [reflexivity|].
  inversion H as [|? ? Hc Hs]; subst.
  change ((c :: s) ++ [newline]) with (c :: s ++ [newline]). cbn [lines_from].
  destruct (N.eqb_spec c newline) as [->|_]; [discriminate|].
  rewrite IH by exact Hs. rewrite <- app_assoc. reflexivity.
Qed.

Lemma lines_from_app a :
  forall cur b,
    lines_from cur ((a ++ [newline]) ++ b)
    = lines_from cur (a ++ [newline]) ++ lines_from [] b.
Proof.
  induction a as [|c a IH]; intros cur b; [reflexivity|].
  change (((c :: a) ++ [newline]) ++ b) with (c :: (a ++ [newline]) ++ b).
  change ((c :: a) ++ [newline]) with (c :: a ++ [newline]).
  cbn [lines_from]. destruct (N.eqb c newline); rewrite IH; reflexivity.
Qed.

(** Appending the line of a track to an archive that is empty or ends with
    a newline adds one line that carries the ID. *)
Lemma count_id_append id text :
  text = [] \/ (exists body, text = body ++ [newline]) ->
  count_id id (text ++ str_of_Z id ++ [newline]) = S (count_id id text).
Proof.
  intros Htext. unfold count_id, file_lines.
  pose proof (str_of_Z_no_space id) as Hid.
  assert (lines_from [] (text ++ str_of_Z id ++ [newline])
          = lines_from [] text ++ [str_of_Z id ++ [newline]]) as ->.
  { destruct Htext as [->|[body ->]].
    - simpl. apply (lines_from_line _ [] Hid).
    - rewrite lines_from_app, (lines_from_line _ [] Hid). reflexivity. }
  rewrite List.filter_app, length_app. cbn [List.filter].
  rewrite (strip_line _ Hid). unfold str_eqb.
  rewrite bool_decide_eq_true_2 by reflexivity. simpl. lia.
Qed.

(** C9, as stated, fails: the archive lists track 123 once; processing the
    track with [-c] finds it there, reports it as downloaded, and records
    it again, so that the archive lists it twice. *)
Lemma C9_counterexample :
  count_id 123 (archive_text world_with_archive archive_path) = 1%nat
  /\ count_id 123
       (archive_text
          (snd (download_track sample_env (sample_track 123 "Song") None false
                  (with_continue (with_archive default_kwargs)) world_with_archive))
          archive_path)
     = 2%nat.
Proof. vm_compute. auto. Qed.

(** C9, amended: for every track processed with a download archive
    configured and within reach, once the file name is known (the file
    freshly downloaded or found already present), the orchestrator appends
    the line of the track ID to the archive: the old text stays in front of
    it; and in an archive that is empty or ends with a newline the number
    of lines with this ID grows by one, so that an ID listed before is
    listed once more. *)
Theorem C9_archive_record e t pl exit_on_fail kw archive w filename already w1 :
  kw_download_archive kw = Some archive ->
  archive ∉ broken w ->
  acquire e t pl kw w = (Returned (Some (filename, already)), w1) ->
  let after := snd (download_track e t pl exit_on_fail kw w) in
  archive_text after archive
  = archive_text w archive ++ str_of_Z (track_id t) ++ [newline]
  /\ (archive_text w archive = []
      \/ (exists body, archive_text w archive = body ++ [newline]) ->
      count_id (track_id t) (archive_text after archive)
      = S (count_id (track_id t) (archive_text w archive))).
Proof.
  intros Hkw Hok Hacq after.
  assert (archive_text after archive
          = archive_text w archive ++ str_of_Z (track_id t) ++ [newline]) as Htext.
  { subst after. rewrite (download_track_world _ _ _ _ _ _ _ _ _ Hacq).
    pose proof (keeps_acquire e t pl kw w) as [Hbroken Hsame].
    rewrite Hacq in Hbroken, Hsame. cbn [snd] in Hbroken, Hsame.
    rewrite finalize_appends; [|exact Hkw|rewrite Hbroken; exact Hok].
    rewrite Hsame. reflexivity. }
  split; [exact Htext|].
  intros Hends. rewrite Htext. apply count_id_append. exact Hends.
Qed.

(** A fresh download into a world without archive records the track, and
    so does the processing, with [-c], of a track that the archive lists
    already. *)
Lemma C9_archive_record_witness :
  archive_text
    (snd (download_track sample_env (sample_track 123 "Song") None false
            (with_archive default_kwargs) empty_world))
    archive_path
  = line_feed "123"
  /\ archive_text
       (snd (download_track sample_env (sample_track 123 "Song") None false
               (with_continue (with_archive default_kwargs)) world_with_archive))
       archive_path
     = line_feed "123" ++ line_feed "123".
Proof.
  split.
  - assert (archive_path ∉ broken empty_world) as Hok by apply not_elem_of_empty.
    assert (acquire sample_env (sample_track 123 "Song") None
              (with_archive default_kwargs) empty_world
            = (Returned (Some (u "song.mp3", false)),
               snd (acquire sample_env (sample_track 123 "Song") None
                      (with_archive default_kwargs) empty_world))) as Hacq
      by (vm_compute; reflexivity).
    destruct (C9_archive_record sample_env (sample_track 123 "Song") None false
                (with_archive default_kwargs) archive_path empty_world
                (u "song.mp3") false _ eq_refl Hok Hacq) as [Htext _].
    exact Htext.
  - assert (archive_path ∉ broken world_with_archive) as Hok
      by apply not_elem_of_empty.
    assert (acquire sample_env (sample_track 123 "Song") None
              (with_continue (with_archive default_kwargs)) world_with_archive
            = (Returned (Some (u "song.mp3", true)),
               snd (acquire sample_env (sample_track 123 "Song") None
                      (with_continue (with_archive default_kwargs))
                      world_with_archive))) as Hacq
      by (vm_compute; reflexivity).
    destruct (C9_archive_record sample_env (sample_track 123 "Song") None false
                (with_continue (with_archive default_kwargs)) archive_path
                world_with_archive (u "song.mp3") true _ eq_refl Hok Hacq)
      as [Htext _].
    exact Htext.
Defined.

(** * Further properties *)

(** ** The progress loop *)

Lemma no_equals_no_progress line :
  contains (u "=") line = false -> is_progress_line line = false.
Proof.
  rewrite <- is_progress_line_split. unfold contains, split1.
  destruct (split_once (u "=") line) as [[l r]|]; [discriminate|reflexivity].
Qed.

Lemma lines_read_forall (P : list N -> Prop) lines :
  Forall P lines -> Forall P (lines_read lines).
Proof.
  induction 1 as [|line rest Hline _ IH]; [constructor|].
  destruct line; [constructor|]. cbn [lines_read]. constructor; assumption.
Qed.

Lemma plain_lines_text py_int lines :
  Forall (fun line => is_progress_line line = false) lines ->
  non_progress_text lines = concat (lines_read lines)
  /\ reported_positions py_int lines = Returned [].
Proof.
  intros H. apply lines_read_forall in H.
  unfold non_progress_text, reported_positions.
  induction H as [|line rest Hline _ [IH1 IH2]]; [split; reflexivity|].
  cbn [List.filter omap list_omap].
  destruct (reported_seconds py_int line) as [r|] eqn:Hr.
  - apply reported_seconds_progress in Hr. congruence.
  - rewrite Hline. cbn [negb concat]. rewrite IH1. split; [reflexivity|exact IH2].
Qed.

(** X2: a diagnostic stream in which no line has an equals sign is no
    source of progress: no update is sent to the observer, and when ffmpeg
    then fails, on a track whose duration in seconds is within the range
    of the floats, the text of the error is the whole stream up to its
    end, nothing left out.  A duration beyond that range ends the run at
    its first division, whatever the stream holds. *)
Theorem plain_diagnostics_kept_whole py_int out_codec track_duration_ms run :
  Forall (fun line => contains (u "=") line = false) (stderr_lines run) ->
  snd (_re_encode_ffmpeg py_int out_codec track_duration_ms run) = []
  /\ (returncode run <> 0 ->
      forall total_sec,
        true_divide track_duration_ms 1000 = Returned total_sec ->
        fst (_re_encode_ffmpeg py_int out_codec track_duration_ms run)
        = Raised (SoundCloudException
                    (u "FFmpeg error(" ++ str_of_Z (returncode run) ++ u "): "
                     ++ concat (lines_read (stderr_lines run)))))
  /\ (forall err,
         true_divide track_duration_ms 1000 = Raised err ->
         fst (_re_encode_ffmpeg py_int out_codec track_duration_ms run)
         = Raised OverflowError).
Proof.
  intros Hplain.
  assert (Forall (fun line => is_progress_line line = false) (stderr_lines run))
    as Hnone.
  { eapply Forall_impl; [exact Hplain|]. intros line. apply no_equals_no_progress. }
  destruct (plain_lines_text py_int _ Hnone) as [Htext Hpos].
  split; [|split].
  - destruct (true_divide track_duration_ms 1000) as [total_sec|err] eqn:Htotal.
    + destruct (ffmpeg_run_spec py_int out_codec track_duration_ms run total_sec []
                  Htotal Hpos) as [Hsnd _].
      exact Hsnd.
    + unfold _re_encode_ffmpeg. rewrite Htotal. reflexivity.
  - intros Hcode total_sec Htotal.
    destruct (ffmpeg_run_spec py_int out_codec track_duration_ms run total_sec []
                Htotal Hpos) as [_ Hfst].
    rewrite Hfst. apply Z.eqb_neq in Hcode. rewrite Hcode. cbn [negb].
    rewrite Htext. reflexivity.
  - intros err Htotal. unfold _re_encode_ffmpeg. rewrite Htotal.
    apply true_divide_raises in Htotal. subst err. reflexivity.
Qed.

Lemma plain_diagnostics_kept_whole_witness :
  fst (_re_encode_ffmpeg int_ascii (u "mp3") 2000 run_plain_failed)
  = Raised (SoundCloudException
              (u "FFmpeg error(1): " ++ line_feed "pipe:0: Invalid data found"
               ++ line_feed "Conversion failed!")).
Proof.
  assert (Forall (fun line => contains (u "=") line = false)
            (stderr_lines run_plain_failed)) as Hplain
    by (repeat constructor).
  destruct (plain_diagnostics_kept_whole int_ascii (u "mp3") 2000 run_plain_failed
              Hplain) as (_ & Hfail & _).
  rewrite (Hfail ltac:(discriminate) 2%Q eq_refl). reflexivity.
Defined.

(** ** The archive: writing and reading back *)

Lemma has_line_app id l1 l2 :
  has_line id (l1 ++ l2) = has_line id l1 || has_line id l2.
Proof.
  induction l1 as [|line l1 IH]; [reflexivity|].
  simpl. destruct (str_eqb (strip line) id); [reflexivity|exact IH].
Qed.

Lemma file_lines_append text line :
  text = [] \/ (exists body, text = body ++ [newline]) ->
  Forall (fun c => is_space c = false) line ->
  file_lines (text ++ line ++ [newline]) = file_lines text ++ [line ++ [newline]].
Proof.
  intros Htext Hline. unfold file_lines. destruct Htext as [->|[body ->]].
  - simpl. apply (lines_from_line _ [] Hline).
  - rewrite lines_from_app, (lines_from_line _ [] Hline). reflexivity.
Qed.

(** X3: what [record_download_archive] writes, [in_download_archive] finds.
    In an archive within reach that is empty or ends with a newline, a
    track is listed once it has been recorded, and every track listed
    before is listed still. *)
Theorem recorded_track_is_found id kw archive w :
  kw_download_archive kw = Some archive ->
  archive ∉ broken w ->
  archive_text w archive = [] \/ (exists body, archive_text w archive = body ++ [newline]) ->
  let w1 := snd (record_download_archive id kw w) in
  fst (in_download_archive id kw w1) = Returned (Some true)
  /\ (forall other,
         fst (in_download_archive other kw w) = Returned (Some true) ->
         fst (in_download_archive other kw w1) = Returned (Some true)).
Proof.
  intros Hkw Hok Htext w1.
  assert (broken w1 = broken w
          /\ archive_text w1 archive
             = archive_text w archive ++ str_of_Z id ++ [newline]) as [Hb Ha].
  { subst w1. unfold record_download_archive. rewrite Hkw.
    rewrite (bool_decide_eq_false_2 _ Hok). cbn [snd].
    split; [reflexivity|]. unfold archive_text at 1.
    unfold take_lock. cbn [archives set_archives set_files].
    rewrite lookup_insert_eq. reflexivity. }
  assert (forall other w',
             archive ∉ broken w' ->
             fst (in_download_archive other kw w')
             = Returned (Some (has_line (str_of_Z other)
                                 (file_lines (archive_text w' archive))))) as Hlook.
  { intros other w' Hok'. unfold in_download_archive. rewrite Hkw.
    rewrite (bool_decide_eq_false_2 _ Hok'). reflexivity. }
  assert (archive ∉ broken w1) as Hok1 by (rewrite Hb; exact Hok).
  split.
  - rewrite (Hlook id w1 Hok1), Ha.
    rewrite (file_lines_append _ _ Htext (str_of_Z_no_space id)), has_line_app.
    cbn [has_line]. rewrite (strip_line _ (str_of_Z_no_space id)).
    unfold str_eqb. rewrite bool_decide_eq_true_2 by reflexivity.
    rewrite orb_true_r. reflexivity.
  - intros other. rewrite (Hlook other w Hok), (Hlook other w1 Hok1), Ha.
    rewrite (file_lines_append _ _ Htext (str_of_Z_no_space id)), has_line_app.
    intros [= ->]. reflexivity.
Qed.

Lemma recorded_track_is_found_witness :
  fst (in_download_archive 7 (with_archive default_kwargs)
         (snd (record_download_archive 7 (with_archive default_kwargs)
                 world_with_archive)))
  = Returned (Some true)
  /\ fst (in_download_archive 123 (with_archive default_kwargs)
            (snd (record_download_archive 7 (with_archive default_kwargs)
                    world_with_archive)))
     = Returned (Some true).
Proof.
  assert (archive_path ∉ broken world_with_archive) as Hok by apply not_elem_of_empty.
  assert (archive_text world_with_archive archive_path = []
          \/ (exists body, archive_text world_with_archive archive_path
                           = body ++ [newline])) as Htext
    by (right; exists (u "123"); reflexivity).
  destruct (recorded_track_is_found 7 (with_archive default_kwargs) archive_path
              world_with_archive eq_refl Hok Htext) as [Hnew Hold].
  split; [exact Hnew|]. apply Hold. reflexivity.
Defined.

(** ** The converted sibling *)

Lemma ext_scan_flac x :
  forall seen cur,
    ext_scan (x ++ u ".flac") seen cur = u ".flac"
    \/ ext_scan (x ++ u ".flac") seen cur = [].
Proof.
  induction x as [|c x IH]; intros seen cur.
  - destruct seen; [left|right]; reflexivity.
  - change ((c :: x) ++ u ".flac") with (c :: x ++ u ".flac"). cbn [ext_scan].
    destruct (N.eqb c slash); [apply IH|].
    destruct (N.eqb c dot); [destruct seen; apply IH|apply IH].
Qed.

(** X4: the name of the converted sibling, [filename[:-4] + ".flac"], is
    for no file name one that [can_convert] accepts: a file that was
    converted is not taken for one still to be converted. *)
Theorem flac_sibling_not_convertible filename :
  can_convert (flac_sibling filename) = false.
Proof.
  unfold can_convert, flac_sibling, splitext_ext.
  destruct (ext_scan_flac (take (length filename - 4) filename) false None)
    as [-> | ->]; reflexivity.
Qed.

(** ** What the look for an earlier download leaves alone *)

Lemma files_kept_refl locks w : files_kept locks w w.
Proof. intros name. left. reflexivity. Qed.

Lemma files_kept_trans locks w w1 w2 :
  files_kept locks w w1 -> files_kept locks w1 w2 -> files_kept locks w w2.
Proof.
  intros H1 H2 name. destruct (H2 name) as [Heq|Hlock]; [|right; exact Hlock].
  rewrite Heq. apply H1.
Qed.

Lemma files_kept_mono locks locks' w w1 :
  locks ⊆ locks' -> files_kept locks w w1 -> files_kept locks' w w1.
Proof.
  intros Hsub H name. destruct (H name) as [Heq|[Hin Hlock]]; [left; exact Heq|].
  right. split; [apply Hsub, Hin|exact Hlock].
Qed.

Lemma files_kept_take_lock locks path w :
  lock_path path ∈ locks -> files_kept locks w (take_lock path w).
Proof.
  intros Hin name. unfold take_lock. cbn [files set_files].
  destruct (decide (name = lock_path path)) as [->|Hne].
  - right. split; [exact Hin|apply lookup_insert_eq].
  - left. apply lookup_insert_ne. congruence.
Qed.

Lemma files_kept_lock_left locks path w :
  lock_path path ∈ locks -> files_kept locks w (lock_left path w).
Proof.
  intros Hin. unfold lock_left.
  destruct (bool_decide (path ∈ lockable w));
    [apply files_kept_take_lock, Hin|apply files_kept_refl].
Qed.

Lemma files_kept_is_Some locks w w1 name :
  files_kept locks w w1 -> is_Some (files w !! name) -> is_Some (files w1 !! name).
Proof.
  intros H Hdisk. destruct (H name) as [->|[_ ->]]; [exact Hdisk|eauto].
Qed.

Lemma archive_lock_elem kw archive :
  kw_download_archive kw = Some archive -> lock_path archive ∈ archive_lock kw.
Proof. intros Hkw. unfold archive_lock. rewrite Hkw. apply elem_of_cons. auto. Qed.

Lemma track_lock_elem t kw : lock_path (str_of_Z (track_id t)) ∈ track_locks t kw.
Proof. apply elem_of_cons. auto. Qed.

Lemma archive_lock_track_locks t kw : archive_lock kw ⊆ track_locks t kw.
Proof. intros name Hin. apply elem_of_cons. auto. Qed.

Lemma same_files_refl locks w : same_files locks w w.
Proof. split; [apply files_kept_refl|reflexivity]. Qed.

Lemma same_files_trans locks w w1 w2 :
  same_files locks w w1 -> same_files locks w1 w2 -> same_files locks w w2.
Proof.
  intros [Hf1 Hk1] [Hf2 Hk2].
  split; [eapply files_kept_trans; eassumption|congruence].
Qed.

Lemma keeps_files_ret {A} locks (a : A) : keeps_files locks (ret a).
Proof. intros w. apply same_files_refl. Qed.

Lemma keeps_files_raise {A} locks (e : exn) : keeps_files locks (raise (A := A) e).
Proof. intros w. apply same_files_refl. Qed.

Lemma keeps_files_read {A} locks (f : world -> A) : keeps_files locks (read f).
Proof. intros w. apply same_files_refl. Qed.


Lemma keeps_files_bind {A B} locks (c : M A) (k : A -> M B) :
  keeps_files locks c -> (forall a, keeps_files locks (k a)) ->
  keeps_files locks (bind c k).
Proof.
  intros Hc Hk w. unfold bind. specialize (Hc w).
  destruct (c w) as [[a|e] w1]; cbn [snd] in *; [|exact Hc].
  eapply same_files_trans; [exact Hc|apply Hk].
Qed.

Lemma keeps_files_in_download_archive id kw :
  keeps_files (archive_lock kw) (in_download_archive id kw).
Proof.
  intros w. unfold in_download_archive.
  destruct (kw_download_archive kw) as [archive|] eqn:Hkw; [|apply same_files_refl].
  pose proof (archive_lock_elem kw archive Hkw) as Hin.
  destruct (bool_decide (archive ∈ broken w)); cbn [snd]; split.
  - apply files_kept_lock_left, Hin.
  - apply fileToKeep_lock_left.
  - intros name.
    exact (files_kept_take_lock _ archive
             (set_archives (<[archive := archive_text w archive]> (archives w)) w)
             Hin name).
  - reflexivity.
Qed.

Lemma keeps_files_record_download_archive id kw :
  keeps_files (archive_lock kw) (record_download_archive id kw).
Proof.
  intros w. unfold record_download_archive.
  destruct (kw_download_archive kw) as [archive|] eqn:Hkw; [|apply same_files_refl].
  pose proof (archive_lock_elem kw archive Hkw) as Hin.
  destruct (bool_decide (archive ∈ broken w)); cbn [snd]; split.
  - apply files_kept_lock_left, Hin.
  - apply fileToKeep_lock_left.
  - intros name.
    exact (files_kept_take_lock _ archive
             (set_archives
                (<[archive := archive_text w archive ++ str_of_Z id ++ [newline]]>
                   (archives w)) w)
             Hin name).
  - reflexivity.
Qed.

Ltac keeps_files_step :=
  first
    [ apply keeps_files_ret | apply keeps_files_raise | apply keeps_files_read
    | apply keeps_files_in_download_archive
    | apply keeps_files_bind; [|intros ?]
    | match goal with
      | |- keeps_files _ (if ?b then _ else _) => destruct b
      | |- keeps_files _ (match ?x with _ => _ end) => destruct x
      end ].

Lemma keeps_files_already_downloaded id filename kw :
  keeps_files (archive_lock kw) (already_downloaded id filename kw).
Proof. unfold already_downloaded, isfile, sys_exit. repeat keeps_files_step. Qed.

(** The world after the look: the one from before, or the one that the
    look into the archive left. *)
Lemma already_downloaded_world id filename kw w :
  snd (already_downloaded id filename kw w) = w
  \/ snd (already_downloaded id filename kw w) = snd (in_download_archive id kw w).
Proof.
  unfold already_downloaded, bind, isfile, read, ret, sys_exit, raise.
  destruct (kw_download_archive kw) as [archive|].
  - destruct (in_download_archive_returns id kw w) as [r Hr]. right.
    destruct (kw_flac kw && can_convert filename); cbv beta iota;
      rewrite Hr; cbv beta iota;
    repeat match goal with
           | |- context [if ?b then _ else _] => destruct b
           end; reflexivity.
  - left.
    repeat match goal with
           | |- context [if ?b then _ else _] => destruct b
           end; reflexivity.
Qed.

Lemma in_download_archive_archives id kw w path :
  archives (snd (in_download_archive id kw w)) !! path = archives w !! path
  \/ (kw_download_archive kw = Some path
      /\ (path ∉ broken w)
      /\ archives w !! path = None
      /\ archives (snd (in_download_archive id kw w)) !! path = Some []).
Proof.
  unfold in_download_archive.
  destruct (kw_download_archive kw) as [archive|]; [|left; reflexivity].
  destruct (bool_decide (archive ∈ broken w)) eqn:Hb; cbn [snd].
  - left. rewrite archives_lock_left. reflexivity.
  - apply bool_decide_eq_false in Hb.
    unfold take_lock. cbn [archives set_files set_archives].
    destruct (decide (path = archive)) as [->|Hne].
    + rewrite lookup_insert_eq. unfold archive_text.
      destruct (archives w !! archive) as [text|] eqn:Htext; [left; reflexivity|].
      right. auto.
    + left. apply lookup_insert_ne. congruence.
Qed.

(** X5: [already_downloaded] only looks.  However it ends, by a return or
    by the exit, every file is as before but for the lock file of the
    archive, which the look into the archive creates or empties; the list
    of files to keep is as before; every archive reads as before, the same
    paths being out of reach, the one change being that a missing archive
    within reach may now be there, empty; and without an archive nothing
    at all is changed. *)
Theorem already_downloaded_only_looks id filename kw w :
  let w1 := snd (already_downloaded id filename kw w) in
  files_kept (archive_lock kw) w w1
  /\ fileToKeep w1 = fileToKeep w
  /\ broken w1 = broken w
  /\ (forall path, archive_text w1 path = archive_text w path)
  /\ (forall path,
         archives w1 !! path = archives w !! path
         \/ (kw_download_archive kw = Some path
             /\ (path ∉ broken w)
             /\ archives w !! path = None
             /\ archives w1 !! path = Some []))
  /\ (kw_download_archive kw = None -> w1 = w).
Proof.
  intros w1.
  destruct (keeps_files_already_downloaded id filename kw w) as [Hf Hk].
  destruct (keeps_already_downloaded id filename kw w) as [Hb Ha].
  split; [exact Hf|split; [exact Hk|split; [exact Hb|split; [exact Ha|split]]]].
  - intros path. subst w1.
    destruct (already_downloaded_world id filename kw w) as [-> | ->];
      [left; reflexivity|apply in_download_archive_archives].
  - intros Hnone. subst w1.
    destruct (already_downloaded_world id filename kw w) as [-> | ->];
      [reflexivity|].
    unfold in_download_archive. rewrite Hnone. reflexivity.
Qed.

(** ** What becomes of the archives *)

Lemma archives_kept_refl kw w : archives_kept kw w w.
Proof. intros path. left. reflexivity. Qed.

Lemma archives_kept_trans kw w w1 w2 :
  archives_kept kw w w1 -> archives_kept kw w1 w2 -> archives_kept kw w w2.
Proof.
  intros H1 H2 path.
  destruct (H2 path) as [Heq|(Hkw & Hnone & Hnew)]; [rewrite Heq; apply H1|].
  right. split; [exact Hkw|]. split; [|exact Hnew].
  destruct (H1 path) as [Heq|(_ & _ & Hsome)]; congruence.
Qed.

Lemma keeps_archives_ret {A} kw (a : A) : keeps_archives kw (ret a).
Proof. intros w. apply archives_kept_refl. Qed.

Lemma keeps_archives_raise {A} kw (e : exn) : keeps_archives kw (raise (A := A) e).
Proof. intros w. apply archives_kept_refl. Qed.

Lemma keeps_archives_lift {A} kw (o : outcome A) : keeps_archives kw (lift o).
Proof. intros w. apply archives_kept_refl. Qed.

Lemma keeps_archives_read {A} kw (f : world -> A) : keeps_archives kw (read f).
Proof. intros w. apply archives_kept_refl. Qed.

Lemma keeps_archives_bind {A B} kw (c : M A) (k : A -> M B) :
  keeps_archives kw c -> (forall a, keeps_archives kw (k a)) ->
  keeps_archives kw (bind c k).
Proof.
  intros Hc Hk w. unfold bind. specialize (Hc w).
  destruct (c w) as [[a|e] w1]; cbn [snd] in *; [|exact Hc].
  eapply archives_kept_trans; [exact Hc|apply Hk].
Qed.

Lemma keeps_archives_modify kw (f : world -> world) :
  (forall w, archives (f w) = archives w) -> keeps_archives kw (modify f).
Proof. intros Hf w path. left. cbn [snd modify]. rewrite Hf. reflexivity. Qed.

Lemma keeps_archives_in_download_archive id kw :
  keeps_archives kw (in_download_archive id kw).
Proof.
  intros w path. unfold in_download_archive.
  destruct (kw_download_archive kw) as [archive|]; [|left; reflexivity].
  destruct (bool_decide (archive ∈ broken w)); cbn [snd].
  - left. rewrite archives_lock_left. reflexivity.
  - unfold take_lock. cbn [archives set_files set_archives].
    destruct (decide (path = archive)) as [->|Hne].
    + rewrite lookup_insert_eq. unfold archive_text.
      destruct (archives w !! archive) as [text|]; [left; reflexivity|].
      right. auto.
    + left. apply lookup_insert_ne. congruence.
Qed.

Ltac keeps_archives_step :=
  first
    [ apply keeps_archives_ret | apply keeps_archives_raise
    | apply keeps_archives_lift | apply keeps_archives_read
    | apply keeps_archives_in_download_archive
    | apply keeps_archives_modify; intros ?; reflexivity
    | apply keeps_archives_bind; [|intros ?]
    | match goal with
      | |- keeps_archives _ (if ?b then _ else _) => destruct b
      | |- keeps_archives _ (match ?x with _ => _ end) => destruct x
      end ].

Lemma keeps_archives_already_downloaded id filename kw :
  keeps_archives kw (already_downloaded id filename kw).
Proof. unfold already_downloaded, isfile, sys_exit. repeat keeps_archives_step. Qed.

Lemma keeps_archives_re_encode_to_out e t d out_codec filename pl skip kw :
  keeps_archives kw (re_encode_to_out e t d out_codec filename pl skip kw).
Proof. unfold re_encode_to_out. repeat keeps_archives_step. Qed.

Ltac keeps_archives_call :=
  first [ apply keeps_archives_already_downloaded
        | apply keeps_archives_re_encode_to_out
        | keeps_archives_step ].

Lemma keeps_archives_download_original_file e t kw :
  keeps_archives kw (download_original_file e t kw).
Proof.
  unfold download_original_file. cbv zeta.
  destruct (original e); repeat keeps_archives_call.
Qed.

Lemma keeps_archives_download_hls e t pl kw :
  keeps_archives kw (download_hls e t pl kw).
Proof.
  unfold download_hls. cbv zeta.
  destruct (transcodings t); [keeps_archives_step|].
  destruct (choose_preset _ _) as [[[preset_name ext] tr]|]; [|keeps_archives_step].
  repeat keeps_archives_call.
Qed.

Lemma keeps_archives_with_lock {A} kw id free (body : M A) :
  keeps_archives kw body -> keeps_archives kw (with_lock id free body).
Proof.
  intros Hbody. unfold with_lock. destruct free; repeat keeps_archives_step.
  exact Hbody.
Qed.

Lemma keeps_archives_acquire e t pl kw : keeps_archives kw (acquire e t pl kw).
Proof.
  unfold acquire. cbv zeta.
  destruct (str_eqb (policy t) (u "BLOCK")); [keeps_archives_step|].
  apply keeps_archives_bind.
  - destruct (_ && auth_token e); [|keeps_archives_step].
    apply keeps_archives_with_lock, keeps_archives_download_original_file.
  - intros [[[filename|] already]|];
      repeat first [ apply keeps_archives_with_lock, keeps_archives_download_hls
                   | keeps_archives_step ].
Qed.

Lemma archives_kept_text kw w w1 path :
  archives_kept kw w w1 -> archive_text w1 path = archive_text w path.
Proof.
  intros H. unfold archive_text.
  destruct (H path) as [->|(_ & -> & ->)]; reflexivity.
Qed.

Lemma archives_kept_recorded kw id w w1 :
  archives_kept kw w w1 -> archives_recorded kw id w w1.
Proof.
  intros H path. destruct (H path) as [Heq|(Hkw & Hnone & Hnew)]; [left; exact Heq|].
  right. auto.
Qed.

Lemma archives_recorded_after_kept kw id w w0 w1 :
  archives_kept kw w w0 -> archives_recorded kw id w0 w1 ->
  archives_recorded kw id w w1.
Proof.
  intros H1 H2 path.
  destruct (H2 path) as [Heq|(Hkw & [(Hnone & Hnew)|Hline])].
  - rewrite Heq. apply archives_kept_recorded, H1.
  - right. split; [exact Hkw|]. left. split; [|exact Hnew].
    destruct (H1 path) as [Heq|(_ & _ & Hsome)]; congruence.
  - right. split; [exact Hkw|]. right.
    rewrite Hline, (archives_kept_text _ _ _ _ H1). reflexivity.
Qed.

(** ** Downloads that fail, and downloads that succeed *)








(** [with_lock] with the lock free, and with the lock held elsewhere. *)
Lemma with_lock_free {A} id (body : M A) w :
  with_lock id true body w
  = match body (take_lock (str_of_Z id) w) with
    | (Returned a, w1) => (Returned (Some a), w1)
    | (Raised e, w1) => (Raised e, w1)
    end.
Proof. reflexivity. Qed.


(** Without an original, [download_original_file] has changed nothing. *)
Lemma no_original_no_change e t kw w already w1 :
  download_original_file e t kw w = (Returned (None, already), w1) -> w1 = w.
Proof.
  unfold download_original_file. cbv zeta.
  destruct (original e) as [|header|orig_filename filename0 ext total reads].
  - intros [= _ <-]. reflexivity.
  - discriminate.
  - unfold bind, ret.
    match goal with
    | |- context [match ?c w with _ => _ end] => destruct (c w) as [[[|]|e1] w2]
    end; [discriminate| |discriminate].
    destruct (re_encode_to_out _ _ _ _ _ _ _ _ w2) as [[[]|e2] w3]; discriminate.
Qed.



(** A fresh download leaves its file on disk. *)
Lemma fresh_download_hls_on_disk e t pl kw w filename w1 :
  is_downloading_to_stdout kw = false ->
  download_hls e t pl kw w = (Returned (filename, false), w1) ->
  is_Some (files w1 !! filename).
Proof.
  intros Hout. unfold download_hls. cbv zeta. rewrite Hout.
  destruct (transcodings t); [discriminate|].
  destruct (choose_preset _ _) as [[[preset_name ext] tr]|]; [|discriminate].
  unfold bind, ret, lift, re_encode_to_out, modify. rewrite Hout.
  destruct (already_downloaded _ _ _ w) as [[[|]|e1] w2]; try discriminate.
  destruct (get_transcoding_m3u8 e tr kw) as [url|e2]; [|discriminate].
  destruct (re_encode_to_buffer _ _ _ _ _ _ _) as [encoded|e3]; [|discriminate].
  intros [= <- <-]. cbn [files set_files]. rewrite lookup_insert_eq. eauto.
Qed.

Lemma fresh_original_on_disk e t kw w filename w1 :
  is_downloading_to_stdout kw = false ->
  download_original_file e t kw w = (Returned (Some filename, false), w1) ->
  is_Some (files w1 !! filename).
Proof.
  intros Hout. unfold download_original_file. cbv zeta. rewrite Hout.
  destruct (original e) as [|header|orig_filename filename0 ext total reads];
    [discriminate|discriminate|].
  unfold bind, ret, lift, re_encode_to_out, modify. rewrite Hout.
  destruct (already_downloaded _ _ _ w) as [[[|]|e1] w2]; try discriminate.
  destruct (re_encode_to_buffer _ _ _ _ _ _ _) as [encoded|e3]; [|discriminate].
  intros [= <- <-]. cbn [files set_files]. rewrite lookup_insert_eq. eauto.
Qed.

Lemma fresh_acquire_on_disk e t pl kw w filename w1 :
  is_downloading_to_stdout kw = false ->
  acquire e t pl kw w = (Returned (Some (filename, false)), w1) ->
  is_Some (files w1 !! filename).
Proof.
  intros Hout. unfold acquire. cbv zeta.
  destruct (str_eqb (policy t) (u "BLOCK")); [discriminate|].
  assert (forall w0,
             (if kw_only_original kw
              then raise (SoundCloudException
                            (u "Track " ++ [34%N] ++ permalink_url t ++ [34%N] ++
                             u " does not have original file available. Not downloading..."))
              else with_lock (track_id t) (lock_free_hls e) (download_hls e t pl kw)) w0
             = (Returned (Some (filename, false)), w1) ->
             is_Some (files w1 !! filename)) as Hhls.
  { intros w0. destruct (kw_only_original kw); [discriminate|].
    destruct (lock_free_hls e); [|discriminate]. rewrite with_lock_free.
    destruct (download_hls e t pl kw _) as [[[f b]|e1] w2] eqn:Hrun; [|discriminate].
    intros [= -> -> <-]. eapply fresh_download_hls_on_disk; eassumption. }
  unfold bind at 1.
  destruct (_ && auth_token e).
  - destruct (lock_free_original e) eqn:Hfree; [|discriminate].
    rewrite with_lock_free.
    destruct (download_original_file e t kw _) as [[[[f|] b]|e1] w2] eqn:Hrun.
    + unfold ret. intros [= -> -> <-]. eapply fresh_original_on_disk; eassumption.
    + apply Hhls.
    + discriminate.
  - apply Hhls.
Qed.

(** A file found present was not written. *)
Lemma present_hls_not_written e t pl kw w filename w1 :
  download_hls e t pl kw w = (Returned (filename, true), w1) ->
  files_kept (archive_lock kw) w w1.
Proof.
  unfold download_hls. cbv zeta.
  destruct (transcodings t); [discriminate|].
  destruct (choose_preset _ _) as [[[preset_name ext] tr]|]; [|discriminate].
  unfold bind, ret, lift, re_encode_to_out, modify.
  destruct (is_downloading_to_stdout kw).
  - destruct (get_transcoding_m3u8 e tr kw) as [url|e2]; [|discriminate].
    destruct (re_encode_to_buffer _ _ _ _ _ _ _) as [encoded|e3]; discriminate.
  - pose proof (keeps_files_already_downloaded (track_id t) (get_filename e ext kw) kw w)
      as [Hf _].
    destruct (already_downloaded _ _ _ w) as [[[|]|e1] w2]; cbn [snd] in Hf.
    + intros [= _ <-]. exact Hf.
    + destruct (get_transcoding_m3u8 e tr kw) as [url|e2]; [|discriminate].
      destruct (re_encode_to_buffer _ _ _ _ _ _ _) as [encoded|e3]; discriminate.
    + discriminate.
Qed.

Lemma present_original_not_written e t kw w filename w1 :
  download_original_file e t kw w = (Returned (Some filename, true), w1) ->
  files_kept (archive_lock kw) w w1.
Proof.
  unfold download_original_file. cbv zeta.
  destruct (original e) as [|header|orig_filename filename0 ext total reads];
    [discriminate|discriminate|].
  unfold bind, ret, lift, re_encode_to_out, modify.
  destruct (is_downloading_to_stdout kw).
  - destruct (re_encode_to_buffer _ _ _ _ _ _ _) as [encoded|e3]; discriminate.
  - match goal with
    | |- context [already_downloaded ?i ?f kw w] =>
        pose proof (keeps_files_already_downloaded i f kw w) as [Hf _];
        destruct (already_downloaded i f kw w) as [[[|]|e1] w2]
    end; cbn [snd] in Hf.
    + intros [= _ <-]. exact Hf.
    + destruct (re_encode_to_buffer _ _ _ _ _ _ _) as [encoded|e3]; discriminate.
    + discriminate.
Qed.

Lemma present_acquire_not_written e t pl kw w filename w1 :
  acquire e t pl kw w = (Returned (Some (filename, true)), w1) ->
  files_kept (track_locks t kw) w w1.
Proof.
  unfold acquire. cbv zeta.
  destruct (str_eqb (policy t) (u "BLOCK")); [discriminate|].
  assert (forall w0, files_kept (track_locks t kw) w0
                       (take_lock (str_of_Z (track_id t)) w0)) as Hlock
    by (intros w0; apply files_kept_take_lock, track_lock_elem).
  assert (forall w0,
             (if kw_only_original kw
              then raise (SoundCloudException
                            (u "Track " ++ [34%N] ++ permalink_url t ++ [34%N] ++
                             u " does not have original file available. Not downloading..."))
              else with_lock (track_id t) (lock_free_hls e) (download_hls e t pl kw)) w0
             = (Returned (Some (filename, true)), w1) ->
             files_kept (track_locks t kw) w0 w1) as Hhls.
  { intros w0. destruct (kw_only_original kw); [discriminate|].
    destruct (lock_free_hls e); [|discriminate]. rewrite with_lock_free.
    destruct (download_hls e t pl kw _) as [[[f b]|e1] w2] eqn:Hrun; [|discriminate].
    intros [= -> -> <-]. eapply files_kept_trans; [apply Hlock|].
    eapply files_kept_mono; [apply archive_lock_track_locks|].
    eapply present_hls_not_written; eassumption. }
  unfold bind at 1.
  destruct (_ && auth_token e).
  - destruct (lock_free_original e) eqn:Hfree; [|discriminate].
    rewrite with_lock_free.
    destruct (download_original_file e t kw _) as [[[[f|] b]|e1] w2] eqn:Hrun.
    + unfold ret. intros [= -> -> <-]. eapply files_kept_trans; [apply Hlock|].
      eapply files_kept_mono; [apply archive_lock_track_locks|].
      eapply present_original_not_written; eassumption.
    + apply no_original_no_change in Hrun. subst w2. intros Hend.
      eapply files_kept_trans; [apply Hlock|exact (Hhls _ Hend)].
    + discriminate.
  - apply Hhls.
Qed.

Lemma record_download_archive_returns id kw w :
  record_download_archive id kw w
  = (Returned tt, snd (record_download_archive id kw w)).
Proof.
  unfold record_download_archive. destruct (kw_download_archive kw) as [archive|];
    [|reflexivity].
  destruct (bool_decide (archive ∈ broken w)); reflexivity.
Qed.

(** [finalize] after the note for the clean-up: the line in the archive,
    and what follows it. *)
Lemma finalize_steps e t pl kw filename already w :
  finalize e t pl kw filename already w
  = let w0 := if kw_remove kw then set_fileToKeep (fileToKeep w ++ [filename]) w
              else w in
    let w1 := snd (record_download_archive (track_id t) kw w0) in
    if already && negb (kw_force_metadata kw) then
      (Raised (SoundCloudException (filename ++ u " already downloaded.")), w1)
    else if negb (bool_decide (is_Some (files w1 !! filename)))
            && negb (is_downloading_to_stdout kw) then
      (Raised (SoundCloudException
                 (u "An error occurred downloading " ++ filename ++ u ".")), w1)
    else if already && kw_force_metadata kw then
      match files w1 !! filename with
      | None => (Raised OSError, w1)
      | Some file_data =>
          (Returned tt,
           set_files
             (<[filename := snd (_add_metadata_to_stream (env_http e) (env_dashes e)
                                   (env_assembler e) t file_data pl kw)]> (files w1))
             w1)
      end
    else (Returned tt, w1).
Proof.
  unfold finalize. unfold bind at 1.
  assert ((if kw_remove kw
           then modify (fun w => set_fileToKeep (fileToKeep w ++ [filename]) w)
           else ret tt) w
          = (Returned tt,
             if kw_remove kw then set_fileToKeep (fileToKeep w ++ [filename]) w else w))
    as -> by (destruct (kw_remove kw); reflexivity).
  cbv zeta. unfold bind at 1. rewrite record_download_archive_returns.
  destruct (already && negb (kw_force_metadata kw)); [reflexivity|].
  unfold bind, isfile, read.
  destruct (negb _ && negb (is_downloading_to_stdout kw)); [reflexivity|].
  destruct (already && kw_force_metadata kw); reflexivity.
Qed.

Lemma finalize_record_kept t kw filename w :
  files_kept (archive_lock kw) w
    (snd (record_download_archive (track_id t) kw
            (if kw_remove kw then set_fileToKeep (fileToKeep w ++ [filename]) w
             else w))).
Proof.
  match goal with
  | |- files_kept _ _ (snd (record_download_archive ?i kw ?w0)) =>
      destruct (keeps_files_record_download_archive i kw w0) as [Hf _];
      assert (files w0 = files w) as Hsame by (destruct (kw_remove kw); reflexivity)
  end.
  intros name. destruct (Hf name) as [Heq|Hlock]; [left|right; exact Hlock].
  rewrite Heq, Hsame. reflexivity.
Qed.


Lemma finalize_fresh e t pl kw filename w :
  is_downloading_to_stdout kw = true \/ is_Some (files w !! filename) ->
  exists w1,
    finalize e t pl kw filename false w = (Returned tt, w1)
    /\ files_kept (archive_lock kw) w w1.
Proof.
  intros Hok. rewrite finalize_steps. cbv zeta.
  pose proof (finalize_record_kept t kw filename w) as Hkept.
  cbn [andb].
  match goal with
  | |- context [negb (bool_decide ?P) && negb ?o] =>
      assert (negb (bool_decide P) && negb o = false) as ->
  end.
  { destruct Hok as [-> | Hdisk]; [apply andb_false_r|].
    rewrite bool_decide_eq_true_2; [reflexivity|].
    exact (files_kept_is_Some _ _ _ _ Hkept Hdisk). }
  eexists. split; [reflexivity|exact Hkept].
Qed.

Lemma finalize_archives e t pl kw filename already w :
  archives_recorded kw (track_id t) w (snd (finalize e t pl kw filename already w)).
Proof.
  rewrite finalize_steps. cbv zeta.
  match goal with
  | |- context [snd (record_download_archive ?i kw ?w0)] =>
      assert (archives_recorded kw i w (snd (record_download_archive i kw w0)))
        as Hrec;
      [assert (archives w0 = archives w /\ broken w0 = broken w
               /\ lockable w0 = lockable w) as (Ha & Hb & Hl)
         by (destruct (kw_remove kw); auto);
       generalize dependent w0
      |generalize dependent (snd (record_download_archive i kw w0))]
  end.
  - intros w0 Ha Hb Hl path. unfold record_download_archive.
    destruct (kw_download_archive kw) as [archive|];
      [|left; cbn [snd ret]; rewrite Ha; reflexivity].
    destruct (bool_decide (archive ∈ broken w0)); cbn [snd].
    + left. rewrite archives_lock_left, Ha. reflexivity.
    + unfold take_lock. cbn [archives set_files set_archives].
      destruct (decide (path = archive)) as [->|Hne].
      * right. split; [reflexivity|]. right. rewrite lookup_insert_eq.
        unfold archive_text. rewrite Ha. reflexivity.
      * left. rewrite lookup_insert_ne by congruence. rewrite Ha. reflexivity.
  - intros w1 Hrec.
    repeat match goal with
           | |- context [match files ?w0 !! ?f with _ => _ end] =>
               destruct (files w0 !! f)
           | |- context [if ?b then _ else _] =>
               lazymatch b with
               | kw_remove kw => fail
               | _ => destruct b
               end
           end;
      exact Hrec.
Qed.

(** The archives after [download_track]. *)
Lemma download_track_archives e t pl exit_on_fail kw w :
  archives_recorded kw (track_id t) w (snd (download_track e t pl exit_on_fail kw w)).
Proof.
  pose proof (keeps_archives_acquire e t pl kw w) as Hacq.
  destruct (acquire e t pl kw w) as [[[[filename already]|]|e1] w0] eqn:Hrun;
    cbn [snd] in Hacq.
  - rewrite (download_track_world _ _ _ _ _ _ _ _ _ Hrun).
    eapply archives_recorded_after_kept; [exact Hacq|apply finalize_archives].
  - unfold download_track, bind. rewrite Hrun.
    apply archives_kept_recorded, Hacq.
  - unfold download_track, bind. rewrite Hrun.
    destruct (caught_by_download_track e1), exit_on_fail;
      apply archives_kept_recorded, Hacq.
Qed.


(** X7: a fresh download is never reported as failed.  When the file name
    is known and the file was fetched in this run (not found present), and
    the output is not the standard output, [download_track] returns
    normally and the file is on disk afterwards. *)
Theorem fresh_download_succeeds e t pl exit_on_fail kw w filename w1 :
  is_downloading_to_stdout kw = false ->
  acquire e t pl kw w = (Returned (Some (filename, false)), w1) ->
  fst (download_track e t pl exit_on_fail kw w) = Returned tt
  /\ is_Some (files (snd (download_track e t pl exit_on_fail kw w)) !! filename).
Proof.
  intros Hout Hacq.
  pose proof (fresh_acquire_on_disk _ _ _ _ _ _ _ Hout Hacq) as Hdisk.
  destruct (finalize_fresh e t pl kw filename w1 (or_intror Hdisk))
    as (w2 & Hfin & Hfiles).
  assert (download_track e t pl exit_on_fail kw w = (Returned tt, w2)) as Hrun.
  { unfold download_track, bind at 1. rewrite Hacq. cbv beta iota. rewrite Hfin.
    reflexivity. }
  rewrite Hrun. cbn [fst snd].
  split; [reflexivity|]. exact (files_kept_is_Some _ _ _ _ Hfiles Hdisk).
Qed.


Lemma fresh_download_succeeds_witness :
  fst (download_track sample_env (sample_track 123 "Song") None true default_kwargs
         empty_world)
  = Returned tt
  /\ is_Some (files (snd (download_track sample_env (sample_track 123 "Song") None true
                            default_kwargs empty_world)) !! u "song.mp3").
Proof.
  assert (acquire sample_env (sample_track 123 "Song") None default_kwargs empty_world
          = (Returned (Some (u "song.mp3", false)),
             snd (acquire sample_env (sample_track 123 "Song") None default_kwargs
                    empty_world))) as Hacq
    by (vm_compute; reflexivity).
  exact (fresh_download_succeeds sample_env (sample_track 123 "Song") None true
           default_kwargs empty_world (u "song.mp3") _ eq_refl Hacq).
Defined.

(** The world after a fresh download into an empty directory: the song,
    and the lock file of the track. *)
Example fresh_download_world :
  snd (download_track sample_env (sample_track 123 "Song") None true default_kwargs
         empty_world)
  = {| files := {[ u "song.mp3" := three_bytes; u "123.scdl.lock" := [] ]};
       archives := ∅; broken := ∅; lockable := ∅; fileToKeep := [] |}.
Proof. vm_compute. reflexivity. Qed.

(** ** Downloads to the standard output *)




(** ** Errors of a track *)

(** X9: no [SoundCloudException] leaves [download_track].  An error of the
    track raised while the file is fetched ends the process with status 1
    when [exit_on_fail] is set, and otherwise ends the track with a normal
    return; in both cases the world is left as the failing step left it. *)
Theorem track_errors_stay_inside e t pl exit_on_fail kw w :
  (forall msg,
      fst (download_track e t pl exit_on_fail kw w) <> Raised (SoundCloudException msg))
  /\ (forall msg w1,
         acquire e t pl kw w = (Raised (SoundCloudException msg), w1) ->
         download_track e t pl exit_on_fail kw w
         = (if exit_on_fail then Raised (SystemExit 1) else Returned tt, w1)).
Proof.
  split.
  - intros msg. unfold download_track.
    match goal with
    | |- context [match ?c w with _ => _ end] => destruct (c w) as [[[]|err] w1]
    end; [discriminate|].
    destruct err; cbn [caught_by_download_track fst];
      try destruct exit_on_fail; discriminate.
  - intros msg w1 Hacq. unfold download_track, bind at 1. rewrite Hacq.
    cbn [caught_by_download_track]. destruct exit_on_fail; reflexivity.
Qed.



Lemma track_errors_stay_inside_witness :
  download_track failing_env (sample_track 123 "Song") None false default_kwargs
    empty_world
  = (Returned tt, take_lock (u "123") empty_world).
Proof.
  destruct (track_errors_stay_inside failing_env (sample_track 123 "Song") None false
              default_kwargs empty_world) as [_ Hinside].
  apply (Hinside (u "FFmpeg error(1): " ++ line_feed "pipe:0: Invalid data found"
                  ++ line_feed "Conversion failed!")).
  vm_compute. reflexivity.
Defined.

(** ** Files to keep *)

Lemma remove_files_lookup w name :
  files (snd (remove_files w)) !! name
  = if negb (in_cwd name) || bool_decide (name ∈ fileToKeep w)
    then files w !! name else None.
Proof.
  unfold remove_files, modify. cbn [snd files set_files set_archives].
  apply option_eq. intros data. rewrite map_lookup_filter_Some. cbn [fst].
  destruct (in_cwd name); cbn [negb orb].
  - destruct (bool_decide (name ∈ fileToKeep w)) eqn:Hkeep.
    + apply bool_decide_eq_true in Hkeep. tauto.
    + apply bool_decide_eq_false in Hkeep.
      split; [intros [_ [Hcwd|Hin]]; [discriminate|contradiction]|discriminate].
  - tauto.
Qed.

Lemma finalize_fileToKeep e t pl kw filename already w :
  fileToKeep (snd (finalize e t pl kw filename already w))
  = if kw_remove kw then fileToKeep w ++ [filename] else fileToKeep w.
Proof.
  rewrite finalize_steps. cbv zeta.
  match goal with
  | |- context [snd (record_download_archive ?i kw ?w0)] =>
      destruct (keeps_files_record_download_archive i kw w0) as [_ Hkeep];
      assert (fileToKeep w0
              = if kw_remove kw then fileToKeep w ++ [filename] else fileToKeep w)
        as Hlist by (destruct (kw_remove kw); reflexivity);
      rewrite Hlist in Hkeep; clear Hlist;
      generalize dependent (snd (record_download_archive i kw w0))
  end.
  intros w1 Hkeep.
  repeat match goal with
         | |- context [match files ?w0 !! ?f with _ => _ end] =>
             destruct (files w0 !! f)
         | |- context [if ?b then _ else _] =>
             lazymatch b with
             | kw_remove kw => fail
             | _ => destruct b
             end
         end;
    exact Hkeep.
Qed.

(** X12: with [--remove], the file of every track whose processing got as
    far as its file name is safe from the final clean-up: its name is put
    on the list of files to keep, whether the file was fetched or found
    present and even when the track then ends as "already downloaded", so
    that [remove_files] afterwards leaves it as it is. *)
Theorem processed_track_survives_cleanup
    e t pl exit_on_fail kw w filename already w1 :
  kw_remove kw = true ->
  acquire e t pl kw w = (Returned (Some (filename, already)), w1) ->
  let after := snd (download_track e t pl exit_on_fail kw w) in
  filename ∈ fileToKeep after
  /\ files (snd (remove_files after)) !! filename = files after !! filename.
Proof.
  intros Hremove Hacq after.
  assert (filename ∈ fileToKeep after) as Hin.
  { subst after. rewrite (download_track_world _ _ _ _ _ _ _ _ _ Hacq).
    rewrite finalize_fileToKeep, Hremove. apply list_elem_of_In, in_or_app.
    right. left. reflexivity. }
  split; [exact Hin|].
  rewrite remove_files_lookup, (bool_decide_eq_true_2 _ Hin), orb_true_r.
  reflexivity.
Qed.

Lemma processed_track_survives_cleanup_witness :
  files (snd (remove_files
                (snd (download_track sample_env (sample_track 123 "Song") None false
                        (with_remove default_kwargs) empty_world))))
    !! u "song.mp3"
  = Some three_bytes.
Proof.
  assert (acquire sample_env (sample_track 123 "Song") None
            (with_remove default_kwargs) empty_world
          = (Returned (Some (u "song.mp3", false)),
             snd (acquire sample_env (sample_track 123 "Song") None
                    (with_remove default_kwargs) empty_world))) as Hacq
    by (vm_compute; reflexivity).
  destruct (processed_track_survives_cleanup sample_env (sample_track 123 "Song") None
              false (with_remove default_kwargs) empty_world (u "song.mp3") false _
              eq_refl Hacq) as [_ Hkept].
  rewrite Hkept. vm_compute. reflexivity.
Defined.

(** ** The choice of a transcoding *)






(** When no transcoding over HLS fits a preset, [download_hls] ends as an
    error of the track and leaves the world as it is. *)
Lemma download_hls_without_choice e t pl kw w :
  choose_preset (valid_presets kw)
    (filter (fun tr => str_eqb (protocol tr) (u "hls") = true) (transcodings t)) = None ->
  exists msg, download_hls e t pl kw w = (Raised (SoundCloudException msg), w).
Proof.
  intros Hnone. unfold download_hls. destruct (transcodings t) as [|tr0 ts] eqn:Hts.
  - eexists. reflexivity.
  - cbv zeta. rewrite Hnone. eexists. reflexivity.
Qed.


(** ** [sync] and the files *)

Lemma remove_track_files_lookup filename_of id exts :
  forall fs name,
    remove_track_files filename_of id exts fs !! name
    = if in_cwd name && bool_decide (name ∈ List.map (filename_of id) exts)
      then None else fs !! name.
Proof.
  induction exts as [|ext exts IH]; intros fs name; cbn [remove_track_files List.map].
  - rewrite (bool_decide_eq_false_2 (name ∈ [])) by apply not_elem_of_nil.
    rewrite andb_false_r. reflexivity.
  - rewrite IH.
    assert ((if in_cwd (filename_of id ext)
                && bool_decide (is_Some (fs !! filename_of id ext))
             then delete (filename_of id ext) fs else fs) !! name
            = if in_cwd name && bool_decide (name = filename_of id ext)
              then None else fs !! name) as ->.
    { destruct (decide (name = filename_of id ext)) as [->|Hne].
      - rewrite (bool_decide_eq_true_2 (_ = _)) by reflexivity.
        destruct (in_cwd (filename_of id ext)); cbn [andb]; [|reflexivity].
        destruct (bool_decide (is_Some (fs !! filename_of id ext))) eqn:Hthere.
        + apply lookup_delete_eq.
        + apply bool_decide_eq_false in Hthere.
          apply eq_None_not_Some. exact Hthere.
      - rewrite (bool_decide_eq_false_2 (name = _)) by exact Hne.
        rewrite andb_false_r.
        destruct (_ && _); [apply lookup_delete_ne; congruence|reflexivity]. }
    destruct (in_cwd name); cbn [andb]; [|reflexivity].
    destruct (decide (name = filename_of id ext)) as [Heq|Hne].
    + rewrite (bool_decide_eq_true_2 (name = _) Heq).
      rewrite (bool_decide_eq_true_2 (name ∈ _ :: _)) by (apply elem_of_cons; auto).
      destruct (bool_decide _); reflexivity.
    + rewrite (bool_decide_eq_false_2 (name = _) Hne).
      destruct (decide (name ∈ List.map (filename_of id) exts)) as [Hin|Hout].
      * rewrite (bool_decide_eq_true_2 _ Hin).
        rewrite bool_decide_eq_true_2 by (apply elem_of_cons; auto). reflexivity.
      * rewrite (bool_decide_eq_false_2 _ Hout).
        rewrite bool_decide_eq_false_2; [reflexivity|].
        rewrite elem_of_cons. tauto.
Qed.

Lemma remove_tracks_lookup filename_of ids :
  forall fs name,
    remove_tracks filename_of ids fs !! name
    = if in_cwd name && bool_decide (name ∈ names_of filename_of ids)
      then None else fs !! name.
Proof.
  induction ids as [|id ids IH]; intros fs name; cbn [remove_tracks names_of flat_map].
  - rewrite (bool_decide_eq_false_2 (name ∈ [])) by apply not_elem_of_nil.
    rewrite andb_false_r. reflexivity.
  - fold (names_of filename_of ids). rewrite IH, remove_track_files_lookup.
    destruct (in_cwd name); cbn [andb]; [|reflexivity].
    destruct (decide (name ∈ names_of filename_of ids)) as [Hin|Hout].
    + rewrite (bool_decide_eq_true_2 _ Hin).
      rewrite bool_decide_eq_true_2 by (apply elem_of_app; auto). reflexivity.
    + rewrite (bool_decide_eq_false_2 _ Hout).
      destruct (decide (name ∈ List.map (filename_of id) sync_extensions))
        as [Hin|Hout'].
      * rewrite (bool_decide_eq_true_2 _ Hin).
        rewrite bool_decide_eq_true_2 by (apply elem_of_app; auto). reflexivity.
      * rewrite (bool_decide_eq_false_2 _ Hout').
        rewrite bool_decide_eq_false_2; [reflexivity|].
        rewrite elem_of_app. tauto.
Qed.

Lemma elem_of_names_of filename_of ids name :
  name ∈ names_of filename_of ids
  <-> exists id ext, id ∈ ids /\ ext ∈ sync_extensions /\ name = filename_of id ext.
Proof.
  unfold names_of. rewrite list_elem_of_In, in_flat_map. split.
  - intros (id & Hid & Hname). apply in_map_iff in Hname.
    destruct Hname as (ext & <- & Hext).
    exists id, ext. rewrite !list_elem_of_In. auto.
  - intros (id & ext & Hid & Hext & ->). exists id.
    rewrite <- list_elem_of_In. split; [exact Hid|].
    apply in_map_iff. exists ext. rewrite <- list_elem_of_In. auto.
Qed.

(** X14: what [sync] does to the files.  On an archive it can read, the
    files of the working directory that carry the name of a track to
    remove (an ID of the archive that the playlist no longer has) under one
    of the extensions .mp3, .m4a, .opus, .flac and .wav are gone
    afterwards; every other audio or lock file is as before, in the
    working directory or elsewhere, but for the lock file of the archive,
    which is there, empty; the archive holds what it held when no track is
    to be removed, and else the IDs that stay, each on a line of its own;
    every other archive is as before; and the list of files to keep is
    not touched. *)
Theorem sync_removes_only_dropped_tracks
    py_int filename_of tracks kw archive w text old name :
  kw_sync kw = Some archive ->
  archive ∉ broken w ->
  archives w !! archive = Some text ->
  read_ids py_int text = Some old ->
  let to_remove : gset Z := list_to_set old ∖ list_to_set (map track_id tracks) in
  let after := snd (sync py_int filename_of tracks kw w) in
  ((exists id ext,
       id ∈ to_remove /\ ext ∈ sync_extensions /\ name = filename_of id ext) ->
   in_cwd name = true ->
   files after !! name = None)
  /\ ((forall id ext,
          id ∈ to_remove -> ext ∈ sync_extensions -> name <> filename_of id ext)
      \/ in_cwd name = false ->
      files after !! name
      = if bool_decide (name = lock_path archive) then Some [] else files w !! name)
  /\ archives after
     = (if bool_decide (to_remove = ∅) then archives w
        else <[archive := flat_map (fun id => str_of_Z id ++ [newline])
                            (filter (fun id => id ∉ to_remove) old)]> (archives w))
  /\ fileToKeep after = fileToKeep w.
Proof.
  intros Hkw Hok Htext Hold to_remove after.
  assert (archives after
          = (if bool_decide (to_remove = ∅) then archives w
             else <[archive := flat_map (fun id => str_of_Z id ++ [newline])
                                 (filter (fun id => id ∉ to_remove) old)]>
                    (archives w))) as Harch.
  { subst after. rewrite (sync_after_read _ _ _ _ _ _ _ _ Hkw Hok Htext Hold).
    change (sync_rem old tracks) with to_remove. cbv zeta.
    rewrite <- ledger_text_lines.
    destruct (bool_decide (to_remove = ∅)), (bool_decide (sync_add old tracks = ∅));
      reflexivity. }
  assert (files (take_lock archive w) !! name
          = if bool_decide (name = lock_path archive) then Some []
            else files w !! name) as Hlock.
  { unfold take_lock. cbn [files set_files].
    destruct (decide (name = lock_path archive)) as [->|Hne].
    - rewrite bool_decide_eq_true_2 by reflexivity. apply lookup_insert_eq.
    - rewrite (bool_decide_eq_false_2 _ Hne). apply lookup_insert_ne. congruence. }
  assert (files after !! name
          = (if in_cwd name
                && bool_decide (name ∈ names_of filename_of (elements to_remove))
             then None else files (take_lock archive w) !! name)
          /\ fileToKeep after = fileToKeep w)
    as (Hfiles & Hkeep).
  { subst after. rewrite (sync_after_read _ _ _ _ _ _ _ _ Hkw Hok Htext Hold).
    change (sync_rem old tracks) with to_remove. cbv zeta.
    destruct (decide (to_remove = ∅)) as [Hr|Hr].
    - rewrite (bool_decide_eq_true_2 _ Hr), Hr, elements_empty.
      rewrite (bool_decide_eq_false_2 (name ∈ _)) by apply not_elem_of_nil.
      rewrite andb_false_r.
      destruct (bool_decide (sync_add old tracks = ∅)); cbn [andb snd]; auto.
    - rewrite (bool_decide_eq_false_2 _ Hr), andb_false_r.
      destruct (bool_decide (sync_add old tracks = ∅));
        cbn [snd files fileToKeep set_archives set_files];
        (split; [apply remove_tracks_lookup|reflexivity]). }
  split; [|split; [|split; [exact Harch|exact Hkeep]]].
  - intros (id & ext & Hid & Hext & Hname) Hcwd. rewrite Hfiles, Hcwd.
    rewrite bool_decide_eq_true_2; [reflexivity|].
    apply elem_of_names_of. exists id, ext. rewrite elem_of_elements. auto.
  - intros Hother. rewrite Hfiles, Hlock.
    destruct Hother as [Hother|Hcwd]; [|rewrite Hcwd; reflexivity].
    rewrite (bool_decide_eq_false_2 (name ∈ _)); [rewrite andb_false_r; reflexivity|].
    rewrite elem_of_names_of. intros (id & ext & Hid & Hext & Hname).
    apply elem_of_elements in Hid. exact (Hother id ext Hid Hext Hname).
Qed.

(** With the archive 1, 2, 3 and the playlist 2, 3, 4, the file of track 1
    is removed and the file of track 2 stays. *)
Lemma sync_removes_only_dropped_tracks_witness :
  files (snd (sync int_ascii name_by_id playlist_234 (with_sync default_kwargs)
                world_123_two_files)) !! name_by_id 1 (u ".mp3") = None
  /\ files (snd (sync int_ascii name_by_id playlist_234 (with_sync default_kwargs)
                   world_123_two_files)) !! name_by_id 2 (u ".mp3") = Some two_bytes.
Proof.
  assert (archive_path ∉ broken world_123_two_files) as Hok by apply not_elem_of_empty.
  assert (forall id : Z,
             id ∈ (list_to_set [1; 2; 3] ∖ list_to_set (map track_id playlist_234) : gset Z)
             <-> id = 1) as Hset.
  { intros id. rewrite elem_of_difference, !elem_of_list_to_set.
    cbn [map playlist_234 sample_track track_id].
    rewrite !elem_of_cons, !elem_of_nil. lia. }
  split.
  - destruct (sync_removes_only_dropped_tracks int_ascii name_by_id playlist_234
                (with_sync default_kwargs) archive_path world_123_two_files
                (line_feed "1" ++ line_feed "2" ++ line_feed "3") [1; 2; 3]
                (name_by_id 1 (u ".mp3")) eq_refl Hok eq_refl eq_refl)
      as (Hgone & _).
    apply Hgone; [|reflexivity]. exists 1, (u ".mp3"). split; [apply Hset; reflexivity|].
    split; [apply elem_of_cons; left; reflexivity|reflexivity].
  - destruct (sync_removes_only_dropped_tracks int_ascii name_by_id playlist_234
                (with_sync default_kwargs) archive_path world_123_two_files
                (line_feed "1" ++ line_feed "2" ++ line_feed "3") [1; 2; 3]
                (name_by_id 2 (u ".mp3")) eq_refl Hok eq_refl eq_refl)
      as (_ & Hkept & _).
    rewrite Hkept; [reflexivity|]. left.
    intros id ext Hid Hext. apply Hset in Hid. subst id.
    unfold sync_extensions in Hext.
    rewrite !elem_of_cons, elem_of_nil in Hext.
    destruct Hext as [->|[->|[->|[->|[->|[]]]]]]; vm_compute; discriminate.
Defined.

Lemma lstrip_blank text :
  Forall (fun c => is_space c = true) text -> lstrip text = [].
Proof.
  induction 1 as [|c text Hc _ IH]; [reflexivity|].
  cbn [lstrip]. rewrite Hc. exact IH.
Qed.

Lemma read_ids_blank py_int text :
  py_int [] = None ->
  Forall (fun c => is_space c = true) text ->
  read_ids py_int text = None.
Proof.
  intros Hint Hblank. unfold read_ids, strip, rstrip.
  rewrite (lstrip_blank _ Hblank). cbn. rewrite Hint. reflexivity.
Qed.

(** X15: [sync] cannot work on an archive without IDs.  When the archive
    is empty or holds white space only, and [int] refuses the empty string
    as Python's does, the one part that [split] yields is no number:
    [sync] ends with [sys.exit(1)], whatever the playlist is, and nothing
    is changed but the lock file of the archive, which the lock that was
    taken leaves behind; so an empty archive never makes [sync] download
    the whole playlist. *)
Theorem sync_refuses_blank_archive py_int filename_of tracks kw archive w text :
  kw_sync kw = Some archive ->
  archive ∉ broken w ->
  archives w !! archive = Some text ->
  py_int [] = None ->
  Forall (fun c => is_space c = true) text ->
  sync py_int filename_of tracks kw w
  = (Raised (SystemExit 1),
     {| files := <[archive ++ u ".scdl.lock" := []]> (files w);
        archives := archives w; broken := broken w; lockable := lockable w;
        fileToKeep := fileToKeep w |}).
Proof.
  intros Hkw Hok Htext Hint Hblank. unfold sync. rewrite Hkw.
  rewrite (bool_decide_eq_false_2 _ Hok). cbv zeta.
  change (archives (take_lock archive w)) with (archives w).
  rewrite Htext, (read_ids_blank _ _ Hint Hblank). reflexivity.
Qed.

Lemma sync_refuses_blank_archive_witness :
  fst (sync int_ascii name_by_id playlist_234 (with_sync default_kwargs)
         world_blank_archive)
  = Raised (SystemExit 1)
  /\ archives (snd (sync int_ascii name_by_id playlist_234 (with_sync default_kwargs)
                      world_blank_archive))
     = archives world_blank_archive.
Proof.
  assert (archive_path ∉ broken world_blank_archive) as Hok by apply not_elem_of_empty.
  assert (Forall (fun c => is_space c = true) [newline]) as Hblank
    by (repeat constructor).
  rewrite (sync_refuses_blank_archive int_ascii name_by_id playlist_234
             (with_sync default_kwargs) archive_path world_blank_archive [newline]
             eq_refl Hok eq_refl eq_refl Hblank).
  split; reflexivity.
Defined.

(** ** The original file, copied *)

Lemma copy_loop_returned reads :
  forall received pipe total pipe1,
    copy_loop reads received pipe = (Returned total, pipe1) ->
    total = received + len (delivered reads)
    /\ sink_data pipe1 = sink_data pipe ++ delivered reads.
Proof.
  induction reads as [|chunk rest IH]; intros received pipe total pipe1.
  - cbn. intros [= <- <-]. rewrite app_nil_r. split; [unfold len; cbn; lia|reflexivity].
  - destruct chunk as [|b chunk].
    + cbn. intros [= <- <-]. rewrite app_nil_r. split; [unfold len; cbn; lia|reflexivity].
    + cbn [copy_loop delivered].
      destruct (chunk_size <? len (b :: chunk)); [discriminate|].
      intros Hrun. apply IH in Hrun. destruct Hrun as [-> ->].
      cbn [sink_write sink_data]. rewrite <- app_assoc.
      split; [|reflexivity].
      unfold len. cbn [length app]. rewrite length_app. lia.
Qed.

Lemma copy_stream_returned N reads kw data :
  _copy_stream N reads kw = Returned data ->
  data = delivered reads /\ len (delivered reads) = N /\ size_guard kw N = Returned tt.
Proof.
  unfold _copy_stream, _write_streaming_response_to_pipe.
  destruct (size_guard kw N) as [[]|e1]; [|discriminate].
  destruct (copy_loop reads 0 (new_sink BytesIO)) as [[total|e1] pipe1] eqn:Hloop;
    [|discriminate].
  apply copy_loop_returned in Hloop. destruct Hloop as [-> Hdata].
  destruct (Z.eqb_spec (0 + len (delivered reads)) N) as [HN|HN];
    cbn [negb]; [|discriminate].
  destruct (sink_is (sink_flush pipe1)); intros [= <-];
    cbn [sink_close sink_flush sink_data]; rewrite Hdata;
    (split; [reflexivity|split; [lia|reflexivity]]).
Qed.

(** X16: with [--original-metadata], an original file that is not
    converted to flac is stored as it was sent.  Whenever
    [download_original_file] reports a fresh download to a file, that file
    holds exactly the bytes the response delivered, in their order, the
    other files are as before but for the lock file of the archive, the
    archives are as before but that the download archive, where it was
    missing, may be there, empty, the number of bytes is the declared
    length, and that length is within the size bounds: neither ffmpeg nor
    the metadata writer had a hand in it. *)
Theorem original_kept_byte_for_byte
    e t kw w orig_filename filename0 ext N reads filename w1 :
  original e = OriginalFound orig_filename filename0 ext N reads ->
  kw_flac kw && can_convert orig_filename = false ->
  kw_original_metadata kw = true ->
  is_downloading_to_stdout kw = false ->
  download_original_file e t kw w = (Returned (Some filename, false), w1) ->
  filename = filename0
  /\ files w1 !! filename0 = Some (delivered reads)
  /\ (forall name,
         name <> filename0 ->
         files w1 !! name = files w !! name
         \/ (name ∈ archive_lock kw /\ files w1 !! name = Some []))
  /\ archives_kept kw w w1
  /\ len (delivered reads) = N
  /\ size_guard kw N = Returned tt.
Proof.
  intros Horig Hflac Hmeta Hout Hrun.
  assert (archives_kept kw w w1) as Harch.
  { pose proof (keeps_archives_download_original_file e t kw w) as H.
    rewrite Hrun in H. exact H. }
  revert Hrun. unfold download_original_file. cbv zeta.
  rewrite Horig, Hflac, Hout. cbn [negb].
  unfold bind, ret, lift, re_encode_to_out, modify. rewrite Hout.
  pose proof (keeps_files_already_downloaded (track_id t) filename0 kw w) as [Hsame _].
  destruct (already_downloaded (track_id t) filename0 kw w) as [[[|]|e1] w2];
    try discriminate.
  unfold re_encode_to_buffer. rewrite Hmeta.
  destruct (_copy_stream N reads kw) as [data|e1] eqn:Hcopy; [|discriminate].
  apply copy_stream_returned in Hcopy. destruct Hcopy as (-> & Hlen & Hguard).
  intros [= <- <-]. cbn [snd] in Hsame. cbn [files set_files].
  split; [reflexivity|split; [apply lookup_insert_eq|split; [|auto]]].
  intros name Hne. rewrite lookup_insert_ne by congruence. apply Hsame.
Qed.

Lemma original_kept_byte_for_byte_witness :
  files (snd (download_original_file original_env (sample_track 123 "Song")
                (with_original_metadata default_kwargs) empty_world)) !! u "song.mp3"
  = Some three_bytes.
Proof.
  assert (download_original_file original_env (sample_track 123 "Song")
            (with_original_metadata default_kwargs) empty_world
          = (Returned (Some (u "song.mp3"), false),
             snd (download_original_file original_env (sample_track 123 "Song")
                    (with_original_metadata default_kwargs) empty_world))) as Hrun
    by (vm_compute; reflexivity).
  destruct (original_kept_byte_for_byte original_env (sample_track 123 "Song")
              (with_original_metadata default_kwargs) empty_world
              (u "song.mp3") (u "song.mp3") (u ".mp3") 3 [two_bytes; [Byte.x43]]
              (u "song.mp3") _ eq_refl eq_refl eq_refl eq_refl Hrun)
    as (_ & Hfile & _).
  rewrite Hfile. reflexivity.
Defined.

(** ** [validate_url] *)

(** X17: [validate_url] accepts the host in nine spellings, whatever
    follows it: with or without a scheme, and with [m.] or [www.] in front.
    The spelling is brought to [soundcloud.com], a missing scheme becomes
    [https://] and a given one is kept, and the result is the URL reduced
    to its path by [urljoin], or the [ValueError] of [urlparse] where it
    cannot take the URL apart; no request is sent, so the answer is the
    same on every network. *)
Theorem validate_url_known_hosts urljoin_path fetch resolves rest :
  Forall (fun spelling =>
            validate_url urljoin_path fetch resolves (fst spelling ++ rest)
            = match urljoin_path (snd spelling ++ rest) with
              | Some joined => Returned joined
              | None => Raised ValueError
              end)
         host_spellings.
Proof.
  unfold host_spellings.
  repeat (apply List.Forall_cons; [vm_compute; reflexivity|]).
  apply List.Forall_nil.
Qed.

(** X18: a URL of another host is never accepted for what the request to
    it answers.  When the URL, brought to its normal form, does not start
    with the host, and the request to it succeeds, [validate_url] ends with
    [sys.exit(1)] wherever the response came from: the test made after the
    request looks at the URL that was given, not at the one that was
    reached.  Such a URL is returned only when the request raises and
    [client.resolve] finds a user or a track of that name, and then as
    [https://soundcloud.com/] followed by the text given. *)
Theorem redirect_never_accepted urljoin_path fetch resolves url :
  is_soundcloud_url (normalise_host url) = false ->
  (forall target,
      fetch (normalise_host url) = Some target ->
      validate_url urljoin_path fetch resolves url = Raised (SystemExit 1))
  /\ (forall v,
         validate_url urljoin_path fetch resolves url = Returned v ->
         fetch (normalise_host url) = None
         /\ resolves (u "https://soundcloud.com/" ++ normalise_host url) = true
         /\ v = u "https://soundcloud.com/" ++ normalise_host url
         /\ is_soundcloud_url v = true).
Proof.
  intros Hother. unfold validate_url. cbv zeta. rewrite Hother.
  split.
  - intros target Hfetch. rewrite Hfetch. reflexivity.
  - intros v. destruct (fetch (normalise_host url)) as [target|]; [discriminate|].
    destruct (resolves _) eqn:Hres; [|discriminate].
    intros [= <-]. auto.
Qed.

Lemma redirect_never_accepted_witness :
  validate_url (fun url => Some url) fetch_redirected (fun _ => true) short_link
  = Raised (SystemExit 1).
Proof.
  destruct (redirect_never_accepted (fun url => Some url) fetch_redirected
              (fun _ => true) short_link eq_refl) as [Hexit _].
  apply (Hexit (u "https://soundcloud.com/artist/song")). reflexivity.
Defined.

(** ** The keys of [python_args] *)

Lemma replace_hyphen s :
  replace [hyphen] [underscore] s = map dash_to_underscore s.
Proof.
  unfold replace. induction s as [|c s IH]; [reflexivity|].
  cbn [replace_from map length Nat.sub]. unfold startswith, dash_to_underscore.
  cbn [strip_prefix]. rewrite N.eqb_sym.
  destruct (N.eqb c hyphen); cbn [app]; rewrite IH; reflexivity.
Qed.

Lemma lstrip_char_suffix c s :
  exists front, s = front ++ lstrip_char c s /\ Forall (fun a => a = c) front.
Proof.
  induction s as [|a s IH].
  - exists []. split; [reflexivity|constructor].
  - cbn [lstrip_char]. destruct (N.eqb_spec a c) as [->|Hne].
    + destruct IH as (front & Heq & Hall). exists (c :: front).
      split; [cbn; congruence|constructor; auto].
    + exists []. split; [reflexivity|constructor].
Qed.

(** X19: the keys under which [main] hands the command-line options to the
    rest of the program hold no hyphen.  [python_key] keeps the characters
    of the option between its leading and trailing hyphens, in their order,
    with every hyphen among them turned into an underscore; an option
    without hyphens is its own key. *)
Theorem python_key_without_hyphen key :
  (hyphen ∉ python_key key)
  /\ (exists front back,
         key = front ++ strip_char hyphen key ++ back
         /\ Forall (fun c => c = hyphen) front
         /\ Forall (fun c => c = hyphen) back
         /\ python_key key = map dash_to_underscore (strip_char hyphen key))
  /\ (hyphen ∉ key -> python_key key = key).
Proof.
  unfold python_key. rewrite replace_hyphen.
  split; [|split].
  - rewrite list_elem_of_In, in_map_iff. intros (c & Hc & _).
    unfold dash_to_underscore in Hc.
    destruct (N.eqb_spec c hyphen) as [_|Hne]; [discriminate Hc|contradiction].
  - destruct (lstrip_char_suffix hyphen key) as (front & Hfront & Hall).
    destruct (lstrip_char_suffix hyphen (rev (lstrip_char hyphen key)))
      as (back & Hback & Hallb).
    exists front, (rev back). unfold strip_char.
    split; [|split; [exact Hall|split; [|reflexivity]]].
    + rewrite <- rev_app_distr, <- Hback, rev_involutive. exact Hfront.
    + apply List.Forall_rev. exact Hallb.
  - intros Hnone.
    assert (forall s, hyphen ∉ s -> lstrip_char hyphen s = s) as Hsame.
    { intros [|a s] Hs; [reflexivity|]. cbn [lstrip_char].
      destruct (N.eqb_spec a hyphen) as [->|Hne]; [|reflexivity].
      exfalso. apply Hs. apply elem_of_cons. auto. }
    unfold strip_char. rewrite (Hsame key Hnone).
    rewrite Hsame
      by (intros Hin; apply Hnone; apply list_elem_of_In, in_rev;
          apply list_elem_of_In; exact Hin).
    rewrite rev_involutive.
    clear Hsame. induction key as [|c key IH]; [reflexivity|].
    apply not_elem_of_cons in Hnone. destruct Hnone as [Hc Hkey].
    cbn [map]. rewrite (IH Hkey). unfold dash_to_underscore.
    destruct (N.eqb_spec c hyphen) as [->|_]; [contradiction|reflexivity].
Qed.

(** The option [--min-size] becomes the key [min_size]. *)
Lemma python_key_without_hyphen_witness :
  python_key (u "--min-size") = u "min_size"
  /\ python_key (u "<track_id>") = u "<track_id>".
Proof.
  split.
  - destruct (python_key_without_hyphen (u "--min-size"))
      as (_ & (front & back & _ & _ & _ & Hkey) & _).
    rewrite Hkey. reflexivity.
  - destruct (python_key_without_hyphen (u "<track_id>")) as (_ & _ & Hsame).
    apply Hsame. vm_compute. intros Hin.
    repeat (apply elem_of_cons in Hin; destruct Hin as [Hin|Hin]; [discriminate|]).
    apply elem_of_nil in Hin. exact Hin.
Defined.

(** ** The text of an ID *)

Lemma u_inj a b : u a = u b -> a = b.
Proof.
  unfold u. intros H.
  rewrite <- (string_of_list_ascii_of_string a), <- (string_of_list_ascii_of_string b).
  f_equal. revert H.
  generalize (list_ascii_of_string a) (list_ascii_of_string b).
  induction l as [|x l IH]; intros [|y l']; cbn [map]; try discriminate; [reflexivity|].
  intros [= Hxy Hl]. f_equal; [|apply IH; exact Hl].
  rewrite <- (ascii_N_embedding x), <- (ascii_N_embedding y), Hxy. reflexivity.
Qed.

Lemma to_int_proper n :
  Z.to_int n <> Decimal.Pos Decimal.Nil /\ Z.to_int n <> Decimal.Neg Decimal.Nil.
Proof.
  destruct n as [|p|p]; cbn; split; try discriminate;
    intros [= H]; exact (DecimalPos.Unsigned.to_uint_nonnil p H).
Qed.

Lemma str_of_Z_inj n m : str_of_Z n = str_of_Z m -> n = m.
Proof.
  unfold str_of_Z. intros H. apply u_inj in H.
  destruct (to_int_proper n) as [Hn1 Hn2], (to_int_proper m) as [Hm1 Hm2].
  pose proof (DecimalString.NilZero.isi _ Hn1 Hn2) as Hn.
  pose proof (DecimalString.NilZero.isi _ Hm1 Hm2) as Hm.
  rewrite H, Hm in Hn. injection Hn as Hn.
  rewrite <- (DecimalZ.of_to n), <- (DecimalZ.of_to m), Hn. reflexivity.
Qed.

Lemma str_of_Z_nonempty n : str_of_Z n <> [].
Proof.
  unfold str_of_Z, DecimalString.NilZero.string_of_int,
    DecimalString.NilZero.string_of_uint.
  destruct (Z.to_int n) as [d|d]; destruct d; cbn; discriminate.
Qed.

Lemma str_of_Z_last n :
  exists front c, str_of_Z n = front ++ [c] /\ is_space c = false.
Proof.
  pose proof (str_of_Z_no_space n) as Hall.
  destruct (exists_last (str_of_Z_nonempty n)) as (front & c & Heq).
  exists front, c. split; [exact Heq|].
  rewrite Heq in Hall. apply Forall_app in Hall. destruct Hall as [_ Hc].
  inversion Hc. assumption.
Qed.

Lemma str_of_Z_head n :
  exists c rest, str_of_Z n = c :: rest /\ is_space c = false.
Proof.
  pose proof (str_of_Z_no_space n) as Hall.
  destruct (str_of_Z_last n) as (front & c & Heq & Hc).
  destruct (str_of_Z n) as [|c0 rest].
  - destruct front; discriminate.
  - exists c0, rest. split; [reflexivity|]. inversion Hall. assumption.
Qed.

(** X20: recording one track in the archive marks no other track.  Under
    the conditions of the round trip of writing and reading, the test of
    any other ID answers after the recording what it answered before: two
    IDs never have the same decimal text, and the test compares whole
    lines. *)
Theorem recording_marks_one_track id other kw archive w :
  kw_download_archive kw = Some archive ->
  archive ∉ broken w ->
  archive_text w archive = [] \/ (exists body, archive_text w archive = body ++ [newline]) ->
  other <> id ->
  fst (in_download_archive other kw (snd (record_download_archive id kw w)))
  = fst (in_download_archive other kw w).
Proof.
  intros Hkw Hok Htext Hother.
  unfold in_download_archive, record_download_archive. rewrite Hkw.
  rewrite (bool_decide_eq_false_2 _ Hok). cbn [snd fst]. unfold take_lock.
  cbn [broken set_files set_archives]. rewrite (bool_decide_eq_false_2 _ Hok).
  cbn [fst]. unfold archive_text at 1. cbn [archives set_files set_archives].
  rewrite lookup_insert_eq. cbn [default]. unfold Datatypes.id.
  rewrite (file_lines_append _ _ Htext (str_of_Z_no_space id)), has_line_app.
  cbn [has_line]. rewrite (strip_line _ (str_of_Z_no_space id)).
  unfold str_eqb. rewrite bool_decide_eq_false_2.
  - rewrite orb_false_r. reflexivity.
  - intros Heq. apply str_of_Z_inj in Heq. congruence.
Qed.

Lemma recording_marks_one_track_witness :
  fst (in_download_archive 12 (with_archive default_kwargs)
         (snd (record_download_archive 123 (with_archive default_kwargs) empty_world)))
  = Returned (Some false).
Proof.
  assert (archive_path ∉ broken empty_world) as Hok by apply not_elem_of_empty.
  rewrite (recording_marks_one_track 123 12 (with_archive default_kwargs) archive_path
             empty_world eq_refl Hok (or_introl eq_refl)); [reflexivity|lia].
Defined.

(** ** The archive that [sync] writes *)

Lemma ledger_text_app ids id :
  ledger_text (ids ++ [id]) = ledger_text ids ++ str_of_Z id ++ [newline].
Proof.
  induction ids as [|i ids IH]; cbn [ledger_text app].
  - reflexivity.
  - rewrite IH, <- app_assoc. reflexivity.
Qed.

Lemma lstrip_ledger ids : lstrip (ledger_text ids) = ledger_text ids.
Proof.
  destruct ids as [|id ids]; [reflexivity|]. cbn [ledger_text].
  destruct (str_of_Z_head id) as (c & rest & -> & Hc).
  cbn [app lstrip]. rewrite Hc. reflexivity.
Qed.

Lemma rstrip_line front c :
  is_space c = false -> rstrip (front ++ [c] ++ [newline]) = front ++ [c].
Proof.
  intros Hc. unfold rstrip. rewrite !rev_app_distr. cbn [rev app lstrip].
  rewrite Hc. change (is_space newline) with true. cbv iota.
  cbn [rev]. rewrite rev_involutive. reflexivity.
Qed.

Lemma split_newline_plain s :
  Forall (fun c => is_space c = false) s ->
  forall cur, split_newline cur s = [cur ++ s].
Proof.
  induction 1 as [|c s Hc _ IH]; intros cur; cbn [split_newline].
  - rewrite app_nil_r. reflexivity.
  - destruct (N.eqb_spec c newline) as [->|_]; [discriminate|].
    rewrite IH, <- app_assoc. reflexivity.
Qed.

Lemma split_newline_line s rest :
  Forall (fun c => is_space c = false) s ->
  forall cur,
    split_newline cur (s ++ [newline] ++ rest) = (cur ++ s) :: split_newline [] rest.
Proof.
  induction 1 as [|c s Hc _ IH]; intros cur; cbn [split_newline app].
  - rewrite app_nil_r. reflexivity.
  - destruct (N.eqb_spec c newline) as [->|_]; [discriminate|].
    cbn [app] in IH. rewrite IH, <- app_assoc. reflexivity.
Qed.

Lemma split_newline_ledger ids s :
  split_newline [] (ledger_text ids ++ s) = map str_of_Z ids ++ split_newline [] s.
Proof.
  induction ids as [|id ids IH]; [reflexivity|].
  cbn [ledger_text map]. rewrite <- !app_assoc.
  rewrite (split_newline_line _ _ (str_of_Z_no_space id)), IH. reflexivity.
Qed.

Lemma parse_ids_texts py_int ids :
  Forall (fun id => py_int (str_of_Z id) = Some id) ids ->
  parse_ids py_int (map str_of_Z ids) = Some ids.
Proof.
  induction 1 as [|id ids Hid _ IH]; [reflexivity|].
  cbn [map parse_ids]. rewrite Hid, IH. reflexivity.
Qed.

(** X21: what [sync] writes, [sync] reads.  The archive that the rewrite
    loop leaves for the IDs it keeps is read back, by the first line of
    [sync] in a later run, as exactly these IDs in their order, [int]
    giving for the text of each of them the ID itself, as long as one ID at
    least is kept.  When none is kept the archive is left empty, and the
    next [sync] cannot read it. *)
Theorem ledger_is_read_back py_int ids :
  (ids <> [] ->
   Forall (fun id => py_int (str_of_Z id) = Some id) ids ->
   read_ids py_int (ledger_text ids) = Some ids)
  /\ (ids = [] -> py_int [] = None -> read_ids py_int (ledger_text ids) = None).
Proof.
  split.
  - intros Hne Hint.
    destruct (exists_last Hne) as (front & id & ->).
    unfold read_ids, strip. rewrite lstrip_ledger, ledger_text_app.
    destruct (str_of_Z_last id) as (digits & c & Hid & Hc).
    assert (rstrip (ledger_text front ++ str_of_Z id ++ [newline])
            = ledger_text front ++ str_of_Z id) as ->.
    { rewrite Hid, <- !app_assoc.
      rewrite (app_assoc (ledger_text front) digits ([c] ++ [newline])).
      rewrite (rstrip_line _ c Hc), <- app_assoc. reflexivity. }
    rewrite split_newline_ledger.
    rewrite (split_newline_plain _ (str_of_Z_no_space id)). cbn [app].
    change [str_of_Z id] with (map str_of_Z [id]). rewrite <- map_app.
    apply parse_ids_texts. exact Hint.
  - intros -> Hint. cbn. rewrite Hint. reflexivity.
Qed.

Lemma ledger_is_read_back_witness :
  read_ids int_ascii (ledger_text [2; 3]) = Some [2; 3]
  /\ read_ids int_ascii (ledger_text []) = None.
Proof.
  destruct (ledger_is_read_back int_ascii [2; 3]) as [Hread _].
  destruct (ledger_is_read_back int_ascii []) as [_ Hempty].
  split.
  - apply Hread; [discriminate|].
    repeat (constructor; [vm_compute; reflexivity|]). constructor.
  - apply Hempty; reflexivity.
Defined.

(** ** A track found present *)

Lemma finalize_present e t pl kw filename w :
  kw_force_metadata kw = false ->
  fst (finalize e t pl kw filename true w)
  = Raised (SoundCloudException (filename ++ u " already downloaded."))
  /\ files_kept (archive_lock kw) w (snd (finalize e t pl kw filename true w)).
Proof.
  intros Hforce. rewrite finalize_steps. cbv zeta. rewrite Hforce.
  cbn [negb andb fst snd]. split; [reflexivity|apply finalize_record_kept].
Qed.

(** X22: a track that is found present, and whose metadata is not to be
    written anew, ends as an error of the track: [download_track] ends the
    process with status 1 when [exit_on_fail] is set, as it is for a single
    track, and returns otherwise; this also under [-c].  No audio file is
    changed; what may have changed are the lock files of the track and of
    the archive, which are left empty, and the download archive, which
    may have been created or have got the line of the track, every other
    archive being as before. *)
Theorem present_track_ends_as_error e t pl exit_on_fail kw w filename w1 :
  acquire e t pl kw w = (Returned (Some (filename, true)), w1) ->
  kw_force_metadata kw = false ->
  fst (download_track e t pl exit_on_fail kw w)
  = (if exit_on_fail then Raised (SystemExit 1) else Returned tt)
  /\ files_kept (track_locks t kw) w (snd (download_track e t pl exit_on_fail kw w))
  /\ archives_recorded kw (track_id t) w
       (snd (download_track e t pl exit_on_fail kw w)).
Proof.
  intros Hacq Hforce.
  pose proof (download_track_archives e t pl exit_on_fail kw w) as Harch.
  destruct (finalize_present e t pl kw filename w1 Hforce) as [Hres Hfiles].
  apply (files_kept_mono _ _ _ _ (archive_lock_track_locks t kw)) in Hfiles.
  pose proof (present_acquire_not_written _ _ _ _ _ _ _ Hacq) as Hsame.
  revert Harch. unfold download_track, bind. rewrite Hacq. cbv beta iota.
  destruct (finalize e t pl kw filename true w1) as [res w2].
  cbn [fst snd] in Hres, Hfiles. subst res. cbn [caught_by_download_track].
  destruct exit_on_fail; cbn [fst snd]; intros Harch;
    (split; [reflexivity|split; [eapply files_kept_trans; eassumption|exact Harch]]).
Qed.

(** The song that is there stays, and the process ends with status 1. *)
Lemma present_track_ends_as_error_witness :
  fst (download_track sample_env (sample_track 123 "Song") None true
         (with_continue default_kwargs) world_with_song)
  = Raised (SystemExit 1)
  /\ files (snd (download_track sample_env (sample_track 123 "Song") None true
                   (with_continue default_kwargs) world_with_song)) !! u "song.mp3"
     = Some three_bytes.
Proof.
  assert (acquire sample_env (sample_track 123 "Song") None
            (with_continue default_kwargs) world_with_song
          = (Returned (Some (u "song.mp3", true)),
             snd (acquire sample_env (sample_track 123 "Song") None
                    (with_continue default_kwargs) world_with_song))) as Hacq
    by (vm_compute; reflexivity).
  destruct (present_track_ends_as_error sample_env (sample_track 123 "Song") None true
              (with_continue default_kwargs) world_with_song (u "song.mp3") _
              Hacq eq_refl) as (Hres & Hkept & _).
  split; [exact Hres|].
  destruct (Hkept (u "song.mp3")) as [-> | [Hin _]]; [reflexivity|].
  exfalso. revert Hin. vm_compute. intros Hin.
  repeat (apply elem_of_cons in Hin; destruct Hin as [Hin|Hin]; [discriminate|]).
  apply elem_of_nil in Hin. exact Hin.
Defined.
